(** * WebQSP retrieval pipeline: a shallow embedding and its properties

    The development follows [torch_geometric/datasets/web_qsp_dataset.py]:
    the import guard of [WebQSPDataset.__init__], the embedding wrapper
    [sbert_text2embedding], and the subgraph retrieval
    [WebQSPDataset.retrieval_via_pcst] (prize assignment, virtual-node
    reduction, solver call, reconstruction, textual description).

    Conventions.  Tensor entries are modelled by exact rationals [Q];
    node and edge ids are [nat]; Python dicts are [gmap]s; Python
    exceptions are the left summand of [exn + A]. *)

From Stdlib Require Import Ascii QArith Qminmax Lqa DecimalString.
From stdpp Require Import gmap strings list fin_maps sorting.

Close Scope Q_scope.
Local Open Scope string_scope.
Local Open Scope list_scope.
Local Open Scope nat_scope.

(** ** Python exceptions and fallible computations *)

Inductive exn : Type :=
  | ImportError (msg : string)
  | KeyError (key : nat)
  | IndexError (idx : nat)
  | RuntimeError (msg : string).

Definition result (A : Type) : Type := exn + A.

Definition ret {A} (a : A) : result A := inr a.
Definition raise {A} (e : exn) : result A := inl e.
Definition bind {A B} (m : result A) (k : A → result B) : result B :=
  match m with
  | inl e => inl e
  | inr a => k a
  end.

Notation "'let*' x := m 'in' k" := (bind m (λ x, k))
  (at level 10, x pattern, m at level 100, k at level 200, only parsing).

(** [try: m except: h] is Python's bare [try ... except:]. *)
Definition try_except {A} (m : result A) (h : A) : A :=
  match m with
  | inl _ => h
  | inr a => a
  end.

(** [mapM f l] runs [f] over [l] from left to right and stops at the
    first exception. *)
Fixpoint mapM {A B} (f : A → result B) (l : list A) : result (list B) :=
  match l with
  | [] => ret []
  | a :: l' => let* b := f a in let* bs := mapM f l' in ret (b :: bs)
  end.

(** ** Module-level import flags and [WebQSPDataset.__init__] *)

Record imports : Type := {
  WITH_PANDAS : bool;
  WITH_PCST : bool;
  WITH_TRANSFORMERS : bool;
  WITH_DATASETS : bool;
}.

(** [sep.join(l)] *)
Definition join (sep : string) (l : list string) : string :=
  String.concat sep l.

(** One guard of the constructor:
    [if not FLAG: missing_str_list.append(name); missing_imports = True]. *)
Definition guard (flag : bool) (name : string)
    (st : bool * list string) : bool * list string :=
  if flag then st else (true, st.2 ++ [name]).

(** The constructor up to the call of [super().__init__], which is the
    continuation [body]: everything the dataset does after the guard
    (download, processing, loading) happens inside it. *)
Definition __init__ {A} (env : imports) (body : unit → result A) : result A :=
  let st := (false, []) in
  let st := guard (WITH_PCST env) "pcst_fast" st in
  let st := guard (WITH_TRANSFORMERS env) "transformers" st in
  let st := guard (WITH_DATASETS env) "datasets" st in
  let st := guard (WITH_PANDAS env) "pandas" st in
  if st.1 then
    let missing_str := join " " st.2 in
    let error_out := "`pip install " +:+ missing_str +:+ "` to use this dataset." in
    raise (ImportError error_out)
  else body tt.

(** The collaborators the constructor checks, in the order it checks
    them, each with the flag that records its presence. *)
Definition collaborators : list (string * (imports → bool)) :=
  [ ("pcst_fast", WITH_PCST); ("transformers", WITH_TRANSFORMERS);
    ("datasets", WITH_DATASETS); ("pandas", WITH_PANDAS) ].

Definition missing (env : imports) : list string :=
  (filter (λ c, c.2 env = false) collaborators).*1.

Definition all_available (env : imports) : bool :=
  forallb (λ c : string * (imports → bool), c.2 env) collaborators.

(** [sub] occurs in [s]. *)
Definition occurs_in (sub s : string) : Prop :=
  ∃ pre post, s = pre +:+ sub +:+ post.

(** ** Tensors *)

(** A two-dimensional float tensor: its rows and the size of dimension 1
    (which a tensor with no rows still has). *)
Record matrix : Type := Matrix {
  rows : list (list Q);
  ncols : nat;
}.

Definition shape (m : matrix) : nat * nat := (length (rows m), ncols m).

(** [torch.zeros((n, d))] *)
Definition torch_zeros (n d : nat) : matrix :=
  {| rows := replicate n (replicate d 0%Q); ncols := d |}.

(** [torch.cat(ms, dim=0)]: an empty list of tensors is an error, and so
    is a list whose members disagree on dimension 1. *)
Definition torch_cat (ms : list matrix) : result matrix :=
  match ms with
  | [] => raise (RuntimeError "torch.cat(): expected a non-empty list of Tensors")
  | m :: _ =>
      if forallb (λ m', ncols m' =? ncols m) ms
      then ret {| rows := concat (rows <$> ms); ncols := ncols m |}
      else raise (RuntimeError "Sizes of tensors must match except in dimension 0")
  end.

(** ** The tokenised [Dataset] and [DataLoader] *)

(** What the tokenizer returns: two integer tensors with one row per text. *)
Record encoding : Type := {
  input_ids : list (list Z);
  attention_mask : list (list Z);
}.

(** [class Dataset]: [self.data] has the two keys [input_ids] and
    [att_mask]. *)
Record Dataset : Type := {
  data_input_ids : list (list Z);
  data_att_mask : list (list Z);
}.

Definition Dataset_len (d : Dataset) : nat := length (data_input_ids d).

(** [Dataset.__getitem__]: the row of each tensor at [index]. *)
Definition Dataset_getitem (d : Dataset) (index : nat)
    : result (list Z * list Z) :=
  match data_input_ids d !! index, data_att_mask d !! index with
  | Some ids, Some mask => ret (ids, mask)
  | _, _ => raise (IndexError index)
  end.

(** A collated batch: the dict with keys [input_ids] and [att_mask]. *)
Record batch : Type := {
  b_input_ids : list (list Z);
  b_att_mask : list (list Z);
}.

Definition collate (items : list (list Z * list Z)) : batch :=
  {| b_input_ids := items.*1; b_att_mask := items.*2 |}.

(** Consecutive chunks of [n] elements, the last one possibly shorter. *)
Fixpoint chunks_fuel {A} (fuel n : nat) (l : list A) : list (list A) :=
  match fuel with
  | 0 => []
  | S fuel' =>
      match l with
      | [] => []
      | _ :: _ => take n l :: chunks_fuel fuel' n (drop n l)
      end
  end.

Definition chunks {A} (n : nat) (l : list A) : list (list A) :=
  chunks_fuel (length l) n l.

(** [DataLoader(dataset, batch_size, shuffle=False)], iterated to the
    end: indices [0 .. len-1] in order, [batch_size] at a time. *)
Definition DataLoader (d : Dataset) (batch_size : nat) : result (list batch) :=
  mapM (λ idxs, let* items := mapM (Dataset_getitem d) idxs in ret (collate items))
       (chunks batch_size (seq 0 (Dataset_len d))).

(** ** [sbert_text2embedding] *)

Section Sbert.
(** The tokenizer and the sentence transformer are external; either
    may raise. *)
Variable tokenizer : list string → result encoding.
Variable model : batch → result matrix.

(** The body of the [try] block. *)
Definition embed_batches (text : list string) : result matrix :=
  let* enc := tokenizer text in
  let dataset := {| data_input_ids := input_ids enc;
                    data_att_mask := attention_mask enc |} in
  let* batches := DataLoader dataset 256 in
  let* all_embeddings_list := mapM model batches in
  torch_cat all_embeddings_list.

Definition sbert_text2embedding (text : list string) : matrix :=
  try_except (embed_batches text) (torch_zeros 0 1024).
End Sbert.

(** ** Graphs and the textual tables *)

(** [torch_geometric.data.Data] with the four attributes the retrieval
    uses.  [edge_index] is the [2 × E] tensor, kept as its list of
    columns [(src, dst)], which is [e_idx.T]. *)
Record Data : Type := {
  x : list (list Q);
  edge_index : list (nat * nat);
  edge_attr : list (list Q);
  num_nodes : nat;
}.

(** The [num_edges] property of [Data]. *)
Definition num_edges (g : Data) : nat := length (edge_index g).

(** A row of the node table (columns [node_id], [node_attr]) and of the
    edge table (columns [src], [edge_attr], [dst]). *)
Record node_row : Type := { n_node_id : nat; n_node_attr : string }.
Record edge_row : Type := { e_src : nat; e_edge_attr : string; e_dst : nat }.

(** [t[i]] on a list-like object, [IndexError] out of range. *)
Definition getitem {A} (t : list A) (i : nat) : result A :=
  match t !! i with
  | Some a => ret a
  | None => raise (IndexError i)
  end.

(** [t[idxs]] with a list of positions: tensor indexing, [df.iloc]. *)
Definition take_rows {A} (t : list A) (idxs : list nat) : result (list A) :=
  mapM (getitem t) idxs.

(** [d[k]] on a dict, [KeyError] when the key is absent. *)
Definition dict_get (d : gmap nat nat) (k : nat) : result nat :=
  match d !! k with
  | Some v => ret v
  | None => raise (KeyError k)
  end.

(** ** CSV serialisation ([DataFrame.to_csv(index=False)]) *)

Definition newline : string := String "010"%char EmptyString.
Definition quote_char : ascii := "034"%char.

Definition str_of_nat (n : nat) : string :=
  NilEmpty.string_of_uint (Nat.to_uint n).

Fixpoint string_exists (p : ascii → bool) (s : string) : bool :=
  match s with
  | EmptyString => false
  | String a s' => p a || string_exists p s'
  end.

Fixpoint double_quotes (s : string) : string :=
  match s with
  | EmptyString => EmptyString
  | String a s' =>
      if Ascii.eqb a quote_char
      then String a (String a (double_quotes s'))
      else String a (double_quotes s')
  end.

(** Minimal quoting: a field is quoted when it holds the separator, the
    quote character or the line terminator (a line feed); any other
    character, a carriage return too, is written as it is. *)
Definition needs_quoting (s : string) : bool :=
  string_exists (λ a, Ascii.eqb a ","%char || Ascii.eqb a quote_char
                      || Ascii.eqb a "010"%char) s.

Definition csv_field (s : string) : string :=
  if needs_quoting s
  then String quote_char (double_quotes s) +:+ String quote_char EmptyString
  else s.

Definition csv_line (fields : list string) : string :=
  join "," (csv_field <$> fields) +:+ newline.

Definition to_csv (header : list string) (records : list (list string)) : string :=
  String.concat "" (csv_line <$> (header :: records)).

Definition node_record (r : node_row) : list string :=
  [str_of_nat (n_node_id r); n_node_attr r].
Definition edge_record (r : edge_row) : list string :=
  [str_of_nat (e_src r); e_edge_attr r; str_of_nat (e_dst r)].

(** [textual_nodes.to_csv(index=False)] *)
Definition nodes_to_csv (t : list node_row) : string :=
  to_csv ["node_id"; "node_attr"] (node_record <$> t).
(** [textual_edges.to_csv(index=False, columns=["src", "edge_attr", "dst"])] *)
Definition edges_to_csv (t : list edge_row) : string :=
  to_csv ["src"; "edge_attr"; "dst"] (edge_record <$> t).

(** ** Numeric helpers *)

(** Python's [min(a, b)]: [b] when [b < a], else [a]. *)
Definition py_min (a b : Q) : Q := if Qle_bool a b then a else b.

Definition Qlt_bool (a b : Q) : bool := negb (Qle_bool b a).

Definition Q_of_nat (n : nat) : Q := inject_Z (Z.of_nat n).

(** [torch.arange(k, 0, -1).float()] *)
Definition arange_down (k : nat) : list Q := Q_of_nat <$> reverse (seq 1 k).

(** [t.unique()]: the distinct values, ascending. *)
Fixpoint insert_unique (q : Q) (l : list Q) : list Q :=
  match l with
  | [] => [q]
  | y :: l' =>
      match (q ?= y)%Q with
      | Lt => q :: l
      | Eq => l
      | Gt => y :: insert_unique q l'
      end
  end.

Definition torch_unique (t : list Q) : list Q := foldr insert_unique [] t.

(** [np.unique] on integer ids: distinct values, ascending. *)
Definition np_unique (l : list nat) : list nat :=
  merge_sort le (remove_dups l).

(** [t[idx] = vals] with an index tensor: positions out of range are an
    error, and so is a value tensor of another length. *)
Definition setitem (t : list Q) (i : nat) (v : Q) : result (list Q) :=
  if i <? length t then ret (<[i:=v]> t) else raise (IndexError i).

Fixpoint index_put (t : list Q) (idx : list nat) (vals : list Q)
    : result (list Q) :=
  match idx, vals with
  | [], [] => ret t
  | i :: idx', v :: vals' => let* t' := setitem t i v in index_put t' idx' vals'
  | _, _ => raise (RuntimeError "shape mismatch")
  end.

(** [t[mask] = v] with a boolean mask of the same length. *)
Definition mask_set (t : list Q) (mask : list bool) (v : Q) : list Q :=
  zip_with (λ (b : bool) p, if b then v else p) mask t.

(** [sum(mask)] *)
Definition mask_sum (mask : list bool) : nat := length (filter (λ b, b = true) mask).

(** ** The virtual-node reduction (state of the loop) *)

Record reduction : Type := {
  cost_list : list Q;
  edge_list : list (nat * nat);
  virtual_n_prizes : list Q;
  virtual_edges : list (nat * nat);
  virtual_costs : list Q;
  mapping_n : gmap nat nat;
  mapping_e : gmap nat nat;
}.

Definition reduction_init : reduction :=
  {| cost_list := []; edge_list := []; virtual_n_prizes := [];
     virtual_edges := []; virtual_costs := [];
     mapping_n := ∅; mapping_e := ∅ |}.

(** One iteration of the loop over [enumerate(e_idx.T)]. *)
Definition reduction_step (num_nodes : nat) (cost_e : Q)
    (i : nat) (src dst : nat) (prize_e : Q) (st : reduction) : reduction :=
  if Qle_bool prize_e cost_e then
    {| mapping_e := <[length (edge_list st) := i]> (mapping_e st);
       edge_list := edge_list st ++ [(src, dst)];
       cost_list := cost_list st ++ [(cost_e - prize_e)%Q];
       virtual_n_prizes := virtual_n_prizes st;
       virtual_edges := virtual_edges st;
       virtual_costs := virtual_costs st;
       mapping_n := mapping_n st |}
  else
    let virtual_node_id := num_nodes + length (virtual_n_prizes st) in
    {| mapping_n := <[virtual_node_id := i]> (mapping_n st);
       virtual_edges :=
         virtual_edges st ++ [(src, virtual_node_id); (virtual_node_id, dst)];
       virtual_costs := virtual_costs st ++ [0%Q; 0%Q];
       virtual_n_prizes := virtual_n_prizes st ++ [(prize_e - cost_e)%Q];
       cost_list := cost_list st;
       edge_list := edge_list st;
       mapping_e := mapping_e st |}.

(** The loop from column [i] on; [prize_e = e_prizes[i]] is an
    [IndexError] when the prize tensor is shorter than the edge list. *)
Fixpoint reduction_loop (num_nodes : nat) (cost_e : Q) (e_prizes : list Q)
    (i : nat) (columns : list (nat * nat)) (st : reduction) : result reduction :=
  match columns with
  | [] => ret st
  | (src, dst) :: columns' =>
      let* prize_e := getitem e_prizes i in
      reduction_loop num_nodes cost_e e_prizes (S i) columns'
        (reduction_step num_nodes cost_e i src dst prize_e st)
  end.

Definition virtual_node_reduction (num_nodes : nat) (cost_e : Q)
    (e_idx : list (nat * nat)) (e_prizes : list Q) : result reduction :=
  reduction_loop num_nodes cost_e e_prizes 0 e_idx reduction_init.

(** The instance handed to the solver. *)
Definition pcst_prizes (n_prizes : list Q) (r : reduction) : list Q :=
  n_prizes ++ virtual_n_prizes r.
Definition pcst_costs (r : reduction) : list Q :=
  if 0 <? length (virtual_costs r)
  then cost_list r ++ virtual_costs r else cost_list r.
Definition pcst_edges (r : reduction) : list (nat * nat) :=
  if 0 <? length (virtual_costs r)
  then edge_list r ++ virtual_edges r else edge_list r.

(** ** Reconstruction from the solver's selection *)

Record reconstruction : Type := {
  selected_nodes : list nat;
  new_selected_edges : list nat;
  (** [e_idx[:, new_selected_edges]], original node ids *)
  selected_edge_index : list (nat * nat);
  new_selected_nodes : list nat;
}.

Definition reconstruct (num_nodes : nat) (e_idx : list (nat * nat))
    (r : reduction) (vertices edges : list nat) : result reconstruction :=
  let num_edges := length (edge_list r) in
  let selected_nodes := filter (λ v, v < num_nodes) vertices in
  let* selected_edges :=
    mapM (dict_get (mapping_e r)) (filter (λ e, e < num_edges) edges) in
  let virtual_vertices := filter (λ v, num_nodes ≤ v) vertices in
  let* new_selected_edges :=
    if 0 <? length virtual_vertices then
      let* new_virtual_edges := mapM (dict_get (mapping_n r)) virtual_vertices in
      ret (selected_edges ++ new_virtual_edges)
    else ret selected_edges in
  let* edge_index := take_rows e_idx new_selected_edges in
  let new_selected_nodes :=
    np_unique (selected_nodes ++ edge_index.*1 ++ edge_index.*2) in
  ret {| selected_nodes := selected_nodes;
         new_selected_edges := new_selected_edges;
         selected_edge_index := edge_index;
         new_selected_nodes := new_selected_nodes |}.

(** [{n: i for i, n in enumerate(nodes)}] *)
Definition compact_mapping (nodes : list nat) : gmap nat nat :=
  foldl (λ m '(i, n), <[n := i]> m) ∅ (imap (λ i n, (i, n)) nodes).

(** The description and the output graph. *)
Definition build_output (node_feat e_attr : list (list Q))
    (textual_nodes : list node_row) (textual_edges : list edge_row)
    (rc : reconstruction) : result (Data * string) :=
  let* n := take_rows textual_nodes (new_selected_nodes rc) in
  let* e := take_rows textual_edges (new_selected_edges rc) in
  let desc := nodes_to_csv n +:+ newline +:+ edges_to_csv e in
  let mapping := compact_mapping (new_selected_nodes rc) in
  let* x := take_rows node_feat (new_selected_nodes rc) in
  let* edge_attr := take_rows e_attr (new_selected_edges rc) in
  let* src := mapM (dict_get mapping) (selected_edge_index rc).*1 in
  let* dst := mapM (dict_get mapping) (selected_edge_index rc).*2 in
  ret ({| x := x; edge_index := zip src dst; edge_attr := edge_attr;
          num_nodes := length (selected_nodes rc) |}, desc).

(** ** Prize assignment and [WebQSPDataset.retrieval_via_pcst] *)

(** The margin [c = 0.01]. *)
Definition c : Q := 1 # 100.

Section Retrieval.
(** External operations.  [CosineSimilarity q v] is
    [torch.nn.CosineSimilarity(dim=-1)] on one row; [torch_topk t k] is
    [torch.topk(t, k, largest=True)] and returns values and indices;
    [pcst_fast] is the solver. *)
Variable CosineSimilarity : list Q → list Q → Q.
Variable torch_topk : list Q → nat → result (list Q * list nat).
Variable pcst_fast :
  list (nat * nat) → list Q → list Q → Z → nat → string → nat →
  result (list nat * list nat).

(** Lines 197-205. *)
Definition node_prize_assignment (topk : Z) (q_emb : list Q)
    (node_feat : list (list Q)) (num_nodes : nat) : result (list Q) :=
  if (0 <? topk)%Z then
    let n_prizes := CosineSimilarity q_emb <$> node_feat in
    let topk := Z.to_nat (Z.min topk (Z.of_nat num_nodes)) in
    let* (_, topk_n_indices) := torch_topk n_prizes topk in
    let n_prizes := (λ _, 0%Q) <$> n_prizes in
    index_put n_prizes topk_n_indices (arange_down topk)
  else ret (replicate num_nodes 0%Q).

(** One iteration of the loop of lines 215-219, on the pair
    [(e_prizes, last_topk_e_value)]; [e_prizes] is updated in place, so
    the comparison reads the prizes the earlier iterations wrote. *)
Definition tier_step (topk_e : nat) (topk_e_values : list Q) (k : nat)
    (st : list Q * Q) : result (list Q * Q) :=
  let '(e_prizes, last_topk_e_value) := st in
  let* v := getitem topk_e_values k in
  let indices := (λ p, Qeq_bool p v) <$> e_prizes in
  let value :=
    py_min (Q_of_nat (topk_e - k) / Q_of_nat (mask_sum indices))%Q
           (last_topk_e_value - c)%Q in
  ret (mask_set e_prizes indices value, value).

Fixpoint tier_loop (topk_e : nat) (topk_e_values : list Q) (ks : list nat)
    (st : list Q * Q) : result (list Q * Q) :=
  match ks with
  | [] => ret st
  | k :: ks' =>
      let* st' := tier_step topk_e topk_e_values k st in
      tier_loop topk_e topk_e_values ks' st'
  end.

(** [t[-1]] *)
Definition last_item (t : list Q) : result Q :=
  match last t with
  | Some v => ret v
  | None => raise (IndexError 0)
  end.

(** Lines 207-221. *)
Definition edge_prize_assignment (topk_e : Z) (q_emb : list Q)
    (e_attr : list (list Q)) (num_edges : nat) : result (list Q) :=
  if (0 <? topk_e)%Z then
    let e_prizes := CosineSimilarity q_emb <$> e_attr in
    let topk_e :=
      Z.to_nat (Z.min topk_e (Z.of_nat (length (torch_unique e_prizes)))) in
    let* (topk_e_values, _) := torch_topk (torch_unique e_prizes) topk_e in
    let* threshold := last_item topk_e_values in
    let e_prizes :=
      mask_set e_prizes ((λ p, Qlt_bool p threshold) <$> e_prizes) 0%Q in
    let last_topk_e_value := Q_of_nat topk_e in
    let* (e_prizes, _) :=
      tier_loop topk_e topk_e_values (seq 0 topk_e)
                (e_prizes, last_topk_e_value) in
    ret e_prizes
  else ret (replicate num_edges 0%Q).

(** The bypass of lines 185-191. *)
Definition passthrough (graph : Data) (textual_nodes : list node_row)
    (textual_edges : list edge_row) : Data * string :=
  let desc := nodes_to_csv textual_nodes +:+ newline
              +:+ edges_to_csv textual_edges in
  ({| x := x graph; edge_index := edge_index graph;
      edge_attr := edge_attr graph; num_nodes := num_nodes graph |}, desc).

Definition retrieval_via_pcst (graph : Data) (q_emb : list Q)
    (textual_nodes : list node_row) (textual_edges : list edge_row)
    (topk topk_e : Z) (cost_e : Q) : result (Data * string) :=
  let num_nodes := num_nodes graph in
  let num_edges := num_edges graph in
  let e_idx := edge_index graph in
  let e_attr := edge_attr graph in
  let node_feat := x graph in
  if (length textual_nodes =? 0) || (length textual_edges =? 0) then
    ret (passthrough graph textual_nodes textual_edges)
  else
    let root := (-1)%Z in
    let num_clusters := 1 in
    let pruning := "gw" in
    let verbosity_level := 0 in
    let* n_prizes := node_prize_assignment topk q_emb node_feat num_nodes in
    let* e_prizes := edge_prize_assignment topk_e q_emb e_attr num_edges in
    let* r := virtual_node_reduction num_nodes cost_e e_idx e_prizes in
    let prizes := pcst_prizes n_prizes r in
    let* (vertices, edges) :=
      pcst_fast (pcst_edges r) prizes (pcst_costs r) root num_clusters
                pruning verbosity_level in
    let* rc := reconstruct num_nodes e_idx r vertices edges in
    build_output node_feat e_attr textual_nodes textual_edges rc.
End Retrieval.

(** ** A reference top-k selection and cosine similarity

    [topk_stable] selects by descending value and, among equal values,
    by ascending position.  [dot] is the cosine similarity of two unit
    vectors, which is what the sentence transformer produces. *)

Fixpoint insert_desc (p : Q * nat) (l : list (Q * nat)) : list (Q * nat) :=
  match l with
  | [] => [p]
  | y :: l' =>
      if Qle_bool p.1 y.1 then y :: insert_desc p l' else p :: l
  end.

Definition sort_desc (t : list Q) : list (Q * nat) :=
  foldr insert_desc [] (imap (λ i q, (q, i)) t).

Definition topk_stable (t : list Q) (k : nat) : result (list Q * list nat) :=
  if k <=? length t then
    let sel := take k (sort_desc t) in
    ret (sel.*1, sel.*2)
  else raise (RuntimeError "selected index k out of range").

Definition dot (u v : list Q) : Q :=
  foldr Qplus 0%Q (zip_with Qmult u v).


(** ** Sample collaborators for [sbert_text2embedding] *)

(** A tokenizer with one token per text (its length), a tokenizer that
    always raises, and a model with a one-dimensional embedding. *)
Definition length_tokenizer (text : list string) : result encoding :=
  ret {| input_ids := (λ s, [Z.of_nat (String.length s)]) <$> text;
         attention_mask := (λ _, [1%Z]) <$> text |}.

Definition failing_tokenizer (text : list string) : result encoding :=
  raise (RuntimeError "tokenizer").

Definition first_token_model (b : batch) : result matrix :=
  ret {| rows := (λ r, [inject_Z (hd 0%Z r)]) <$> b_input_ids b; ncols := 1 |}.

(** ** Sample graphs *)

(** A solver that always raises. *)
Definition failing_solver (edges : list (nat * nat)) (prizes costs : list Q)
    (root : Z) (num_clusters : nat) (pruning : string) (verbosity : nat)
    : result (list nat * list nat) :=
  raise (RuntimeError "pcst_fast").

(** Two nodes and no edge. *)
Definition edgeless_graph : Data :=
  {| x := [[1; 0]; [0; 1]]%Q; edge_index := []; edge_attr := [];
     num_nodes := 2 |}.
Definition edgeless_nodes : list node_row :=
  [ {| n_node_id := 0; n_node_attr := "paris" |};
    {| n_node_id := 1; n_node_attr := "france" |} ].

(** ** What the reduction is expected to produce

    These follow the description of the reduction, not its code.  An
    edge is kept as a real edge when its prize does not exceed the edge
    cost; [kept_before i] and [virtual_before i] count the real edges and
    the virtual nodes created for the edges before [i]. *)

Definition kept (cost_e p : Q) : Prop := Qle_bool p cost_e = true.

#[global] Instance kept_dec (cost_e p : Q) : Decision (kept cost_e p).
Proof. unfold kept. apply _. Defined.

Definition kept_before (cost_e : Q) (e_prizes : list Q) (i : nat) : nat :=
  length (filter (kept cost_e) (take i e_prizes)).

Definition virtual_before (cost_e : Q) (e_prizes : list Q) (i : nat) : nat :=
  length (filter (λ p, ¬ kept cost_e p) (take i e_prizes)).

(** What edge [i = (src, dst)] with prize [p] contributes to a reduced
    instance [st]. *)
Definition edge_reduced (num_nodes : nat) (cost_e : Q) (e_prizes : list Q)
    (st : reduction) (i src dst : nat) (p : Q) : Prop :=
  if Qle_bool p cost_e then
    let k := kept_before cost_e e_prizes i in
    edge_list st !! k = Some (src, dst)
    ∧ cost_list st !! k = Some (cost_e - p)%Q
    ∧ (0 <= cost_e - p)%Q
    ∧ mapping_e st !! k = Some i
  else
    let r := virtual_before cost_e e_prizes i in
    let virtual_id := num_nodes + r in
    virtual_n_prizes st !! r = Some (p - cost_e)%Q
    ∧ virtual_edges st !! (2 * r) = Some (src, virtual_id)
    ∧ virtual_edges st !! (2 * r + 1) = Some (virtual_id, dst)
    ∧ virtual_costs st !! (2 * r) = Some 0%Q
    ∧ virtual_costs st !! (2 * r + 1) = Some 0%Q
    ∧ mapping_n st !! virtual_id = Some i.

(** The sizes of a reduced instance after the first [n] edges: nothing
    beyond what the edges contribute. *)
Definition reduction_sizes (num_nodes : nat) (cost_e : Q) (e_prizes : list Q)
    (n : nat) (st : reduction) : Prop :=
  length (edge_list st) = kept_before cost_e e_prizes n
  ∧ length (cost_list st) = kept_before cost_e e_prizes n
  ∧ length (virtual_n_prizes st) = virtual_before cost_e e_prizes n
  ∧ length (virtual_edges st) = 2 * virtual_before cost_e e_prizes n
  ∧ length (virtual_costs st) = 2 * virtual_before cost_e e_prizes n
  ∧ (∀ k, is_Some (mapping_e st !! k) ↔ k < kept_before cost_e e_prizes n)
  ∧ (∀ v, is_Some (mapping_n st !! v) ↔
          num_nodes ≤ v < num_nodes + virtual_before cost_e e_prizes n).

(** Every entry of a reduced instance comes from an edge among the
    first [n]. *)
Definition reduction_origin (num_nodes : nat) (e_idx : list (nat * nat))
    (n : nat) (st : reduction) : Prop :=
  (∀ k i, mapping_e st !! k = Some i → i < n)
  ∧ (∀ v i, mapping_n st !! v = Some i → i < n)
  ∧ (∀ k a b, edge_list st !! k = Some (a, b) →
       ∃ i, mapping_e st !! k = Some i ∧ e_idx !! i = Some (a, b))
  ∧ (∀ k a b, virtual_edges st !! k = Some (a, b) →
       ∃ i s d, mapping_n st !! (num_nodes + k / 2) = Some i
         ∧ e_idx !! i = Some (s, d)
         ∧ ((a, b) = (s, num_nodes + k / 2) ∨ (a, b) = (num_nodes + k / 2, d))).

Definition reduction_inv (num_nodes : nat) (cost_e : Q)
    (e_idx : list (nat * nat)) (e_prizes : list Q)
    (n : nat) (st : reduction) : Prop :=
  reduction_sizes num_nodes cost_e e_prizes n st
  ∧ reduction_origin num_nodes e_idx n st
  ∧ ∀ i src dst p, i < n →
      e_idx !! i = Some (src, dst) → e_prizes !! i = Some p →
      edge_reduced num_nodes cost_e e_prizes st i src dst p.

(** Reduces the projections of a reduction state that is given by its
    fields. *)
Ltac reduction_fields :=
  cbn [cost_list edge_list virtual_n_prizes virtual_edges virtual_costs
       mapping_n mapping_e].

(** ** The contract of [torch.topk]

    [torch.topk(t, k)] returns the values [vals] and positions [idx] of
    [k] distinct entries of [t], by descending value, none of them
    smaller than an entry that was not selected.  The order among equal
    values is left to the implementation. *)
Definition topk_ok (t : list Q) (k : nat) (vals : list Q) (idx : list nat)
    : Prop :=
  length idx = k
  ∧ NoDup idx
  ∧ Forall2 (λ i v, t !! i = Some v) idx vals
  ∧ StronglySorted (λ a b, (b <= a)%Q) vals
  ∧ ∀ i q v, t !! i = Some q → i ∉ idx → v ∈ vals → (q <= v)%Q.

(** Three unit vectors as node features; the query is the third. *)
Definition sample_node_feat : list (list Q) :=
  [[0; 1]; [3 # 5; 4 # 5]; [1; 0]]%Q.
Definition sample_q_emb : list Q := [1; 0]%Q.

(** ** A sample instance: three nodes, two edges

    Edge 0 is [(0, 1)] with prize 0, edge 1 is [(1, 2)] with prize
    [99/100]; with [cost_e = 1/2] the second edge becomes the virtual
    node 3. *)
Definition sample_e_idx : list (nat * nat) := [(0, 1); (1, 2)].
Definition sample_e_prizes : list Q := [0; 99 # 100]%Q.

Definition sample_reduction : reduction :=
  Eval vm_compute in
    match virtual_node_reduction 3 (1 # 2) sample_e_idx sample_e_prizes with
    | inr r => r
    | inl _ => reduction_init
    end.

(** ** Well-formed inputs of the retrieval

    The graph and its tables as [process] builds them: one feature row
    and one table row per node and per edge, and edge endpoints that are
    nodes of the graph. *)
Definition well_formed (num_nodes : nat) (e_idx : list (nat * nat))
    (node_feat e_attr : list (list Q))
    (textual_nodes : list node_row) (textual_edges : list edge_row) : Prop :=
  length node_feat = num_nodes
  ∧ length textual_nodes = num_nodes
  ∧ length e_attr = length e_idx
  ∧ length textual_edges = length e_idx
  ∧ Forall (λ col, col.1 < num_nodes ∧ col.2 < num_nodes) e_idx.

(** The tables and features of the sample instance. *)
Definition sample_textual_nodes : list node_row :=
  [ {| n_node_id := 0; n_node_attr := "europe" |};
    {| n_node_id := 1; n_node_attr := "france" |};
    {| n_node_id := 2; n_node_attr := "paris" |} ].
Definition sample_textual_edges : list edge_row :=
  [ {| e_src := 0; e_edge_attr := "contains"; e_dst := 1 |};
    {| e_src := 1; e_edge_attr := "capital"; e_dst := 2 |} ].
Definition sample_e_attr : list (list Q) := [[0; 1]; [1; 0]]%Q.
Definition sample_graph : Data :=
  {| x := sample_node_feat; edge_index := sample_e_idx;
     edge_attr := sample_e_attr; num_nodes := 3 |}.

(** ** The statement that the output edges use every compact id

    Follows the wording "the node ids appearing in [edge_index] are
    exactly [[0, n)]". *)
Definition ids_are_exactly_range (ei : list (nat * nat)) (n : nat) : Prop :=
  ∀ i, i ∈ ei.*1 ++ ei.*2 ↔ i < n.

(** Two nodes joined by one edge; the query is the first node. *)
Definition pair_graph : Data :=
  {| x := [[1; 0]; [0; 1]]%Q; edge_index := [(0, 1)];
     edge_attr := [[0; 1]]%Q; num_nodes := 2 |}.
Definition pair_nodes : list node_row :=
  [ {| n_node_id := 0; n_node_attr := "paris" |};
    {| n_node_id := 1; n_node_attr := "france" |} ].
Definition pair_edges : list edge_row :=
  [ {| e_src := 0; e_edge_attr := "capital_of"; e_dst := 1 |} ].

(** A solver answer that consists of vertex 0 alone.  On the instance of
    [pair_graph] with [topk = 1] and [topk_e = 0] (prizes [1, 0], one
    edge of cost [1/2]) this is the best tree: it is worth 1, the tree
    with the edge [1/2]. *)
Definition single_vertex_solver (edges : list (nat * nat))
    (prizes costs : list Q) (root : Z) (num_clusters : nat)
    (pruning : string) (verbosity : nat) : result (list nat * list nat) :=
  ret ([0], []).

(** ** The description the wording asks for

    Follows the wording "using the compact remapped node ids for edges":
    the selected edge rows with [src] and [dst] replaced by the columns of
    the output [edge_index]. *)
Definition relabel_edges (e : list edge_row) (ei : list (nat * nat))
    : list edge_row :=
  zip_with (λ row col, {| e_src := col.1; e_edge_attr := e_edge_attr row;
                          e_dst := col.2 |}) e ei.

Definition compact_description (n : list node_row) (e : list edge_row)
    (data : Data) : string :=
  nodes_to_csv n +:+ newline
  +:+ edges_to_csv (relabel_edges e (edge_index data)).

(** A solver answer for the sample instance with [topk = 1] and
    [topk_e = 1] (prizes [0, 0, 1, 49/100]; instance edges [(0, 1)] of
    cost [1/2], [(1, 3)] and [(3, 2)] of cost 0): nodes 1 and 2 joined
    through the virtual node 3 by the two free edges, worth [149/100]. *)
Definition virtual_path_solver (edges : list (nat * nat))
    (prizes costs : list Q) (root : Z) (num_clusters : nat)
    (pruning : string) (verbosity : nat) : result (list nat * list nat) :=
  ret ([1; 2; 3], [1; 2]).

(** ** The contract of the solver's answer

    [pcst_fast] with one cluster returns a tree of the instance: a set of
    vertices (no repetition), edges of the instance between selected
    vertices, and either a single vertex (or none) without edges or
    vertices that are all on a selected edge. *)
Definition tree_selection (r : reduction) (vertices edges : list nat) : Prop :=
  NoDup vertices
  ∧ (∀ e, e ∈ edges →
       ∃ a b, pcst_edges r !! e = Some (a, b) ∧ a ∈ vertices ∧ b ∈ vertices)
  ∧ ((edges = [] ∧ length vertices ≤ 1)
     ∨ ∀ v, v ∈ vertices →
         ∃ e a b, e ∈ edges ∧ pcst_edges r !! e = Some (a, b)
                  ∧ (v = a ∨ v = b)).

(** The distinct node ids used by an edge index. *)
Definition distinct_ids (ei : list (nat * nat)) : list nat :=
  remove_dups (ei.*1 ++ ei.*2).

(** ** The edge prizes the description asks for

    Follows the wording of the prize assignment: the distinct
    similarities from the highest down, the first [topk_e] of them as
    tiers; the tier at rank [k] with [count] edges gets
    [min((topk_e - k) / count, previous - c)], the previous value starting
    at [topk_e]; an edge gets the value of the tier of its own similarity
    and 0 when its similarity is below the last tier. *)
Fixpoint tier_prizes (topk_e k : nat) (previous : Q) (counts : list nat)
    : list Q :=
  match counts with
  | [] => []
  | count :: counts' =>
      let value := py_min (Q_of_nat (topk_e - k) / Q_of_nat count)%Q
                          (previous - c)%Q in
      value :: tier_prizes topk_e (S k) value counts'
  end.

Definition tier_size (sims : list Q) (v : Q) : nat :=
  length (filter (λ s, Qeq_bool s v = true) sims).

Fixpoint tier_of (s : Q) (tiers : list Q) : option nat :=
  match tiers with
  | [] => None
  | v :: tiers' => if Qeq_bool s v then Some 0 else S <$> tier_of s tiers'
  end.

Definition expected_edge_prizes (topk_e : Z) (sims : list Q) : list Q :=
  if (0 <? topk_e)%Z then
    let distinct := reverse (torch_unique sims) in
    let topk_e := Z.to_nat topk_e `min` length distinct in
    let tiers := take topk_e distinct in
    let values :=
      tier_prizes topk_e 0 (Q_of_nat topk_e) (tier_size sims <$> tiers) in
    (λ s, match tier_of s tiers with
          | Some k => default 0%Q (values !! k)
          | None => 0%Q
          end) <$> sims
  else replicate (length sims) 0%Q.

(** Three edges whose similarities to the query [[1, 0]] are [0],
    [-3/5] and [-1]. *)
Definition signed_e_attr : list (list Q) :=
  [[0; 1]; [-3 # 5; 4 # 5]; [-1; 0]]%Q.

(** * The rest of the dataset module *)

(** ** [WebQSPDataset.download] *)

(** The three splits of the loaded dataset. *)
Record dataset_dict (A : Type) : Type := {
  ds_train : list A;
  ds_validation : list A;
  ds_test : list A;
}.
Arguments ds_train {A} _.
Arguments ds_validation {A} _.
Arguments ds_test {A} _.

(** [self.split_idxs]. *)
Record split_idxs : Type := {
  idx_train : list nat;
  idx_val : list nat;
  idx_test : list nat;
}.

(** [torch.arange(n) + k] *)
Definition arange_from (k n : nat) : list nat := (λ i, i + k) <$> seq 0 n.

(** [download], given what [datasets.load_dataset] returned: the
    concatenated dataset and the index tensors of the splits. *)
Definition download {A} (dataset : dataset_dict A) : list A * split_idxs :=
  let raw_dataset :=
    ds_train dataset ++ ds_validation dataset ++ ds_test dataset in
  (raw_dataset,
   {| idx_train := arange_from 0 (length (ds_train dataset));
      idx_val := arange_from (length (ds_train dataset))
                             (length (ds_validation dataset));
      idx_test := arange_from (length (ds_train dataset)
                               + length (ds_validation dataset))
                              (length (ds_test dataset)) |}).

(** ** The graph builder of [WebQSPDataset.process] *)

(** [raw_nodes]: a Python dict from entity string to id, kept as its
    items in insertion order. *)
Definition raw_nodes_lookup (raw_nodes : list (string * nat)) (k : string)
    : option nat :=
  (λ found : nat * (string * nat), found.2.2)
    <$> list_find (λ item, item.1 = k) raw_nodes.

(** [if k not in raw_nodes: raw_nodes[k] = len(raw_nodes)] *)
Definition add_node (k : string) (raw_nodes : list (string * nat))
    : list (string * nat) :=
  match raw_nodes_lookup raw_nodes k with
  | Some _ => raw_nodes
  | None => raw_nodes ++ [(k, length raw_nodes)]
  end.

(** [raw_nodes[k]] *)
Definition raw_nodes_get (raw_nodes : list (string * nat)) (k : string)
    : result nat :=
  match raw_nodes_lookup raw_nodes k with
  | Some v => ret v
  | None => raise (RuntimeError ("KeyError: " +:+ k))
  end.

Section GraphBuilder.
(** [str.lower] *)
Variable lower : string → string.

(** One iteration of [for tri in data_i["graph"]]. *)
Definition triple_step (tri : string * string * string)
    (st : list (string * nat) * list edge_row)
    : result (list (string * nat) * list edge_row) :=
  let '(h, r, t) := tri in
  let '(raw_nodes, raw_edges) := st in
  let h := lower h in
  let t := lower t in
  let raw_nodes := add_node h raw_nodes in
  let raw_nodes := add_node t raw_nodes in
  let* src := raw_nodes_get raw_nodes h in
  let* dst := raw_nodes_get raw_nodes t in
  ret (raw_nodes,
       raw_edges ++ [{| e_src := src; e_edge_attr := r; e_dst := dst |}]).

Fixpoint triple_loop (graph : list (string * string * string))
    (st : list (string * nat) * list edge_row)
    : result (list (string * nat) * list edge_row) :=
  match graph with
  | [] => ret st
  | tri :: graph' => let* st' := triple_step tri st in triple_loop graph' st'
  end.

(** The [nodes] and [edges] data frames of one graph. *)
Definition build_tables (graph : list (string * string * string))
    : result (list node_row * list edge_row) :=
  let* (raw_nodes, raw_edges) := triple_loop graph ([], []) in
  let nodes :=
    (λ item : string * nat, {| n_node_id := item.2; n_node_attr := item.1 |})
      <$> raw_nodes in
  ret (nodes, raw_edges).
End GraphBuilder.

(** The entity strings of a graph in the order the loop meets them, and
    that list without repetitions, each string at its first place. *)
Definition mentions (lower : string → string)
    (graph : list (string * string * string)) : list string :=
  graph ≫= (λ tri, [lower tri.1.1; lower tri.2]).

Definition first_seen (l : list string) : list string :=
  reverse (remove_dups (reverse l)).

(** The dict invariant: the keys are the strings seen so far, each once
    and by first occurrence, and the value of a key is its position. *)
Definition raw_nodes_inv (raw_nodes : list (string * nat)) (seen : list string)
    : Prop :=
  raw_nodes.*1 = first_seen seen
  ∧ ∀ i item, raw_nodes !! i = Some item → item.2 = i.

(** ** [WebQSPDataset.process] *)

(** One example of the raw dataset, and one processed graph with the
    attributes [process] attaches to it. *)
Record raw_example : Type := {
  ex_question : string;
  ex_answer : list string;
  ex_graph : list (string * string * string);
}.

Record processed_graph : Type := {
  pg_data : Data;
  pg_question : string;
  pg_label : string;
  pg_desc : string;
}.

Section Process.
Variable lower : string → string.
Variable tokenizer : list string → result encoding.
Variable model : batch → result matrix.
Variable CosineSimilarity : list Q → list Q → Q.
Variable torch_topk : list Q → nat → result (list Q * list nat).
Variable pcst_fast :
  list (nat * nat) → list Q → list Q → Z → nat → string → nat →
  result (list nat * list nat).

(** [self.text2embedding(self.model, self.tokenizer, self.device, text)] *)
Definition text2embedding (text : list string) : matrix :=
  sbert_text2embedding tokenizer model text.

(** The body of the loop over the dataset, for the example at [index]. *)
Definition process_item (q_embs : matrix) (index : nat) (data_i : raw_example)
    : result processed_graph :=
  let* (nodes, edges) := build_tables lower (ex_graph data_i) in
  let node_emb := text2embedding (n_node_attr <$> nodes) in
  let edge_emb := text2embedding (e_edge_attr <$> edges) in
  let edge_index := (λ row, (e_src row, e_dst row)) <$> edges in
  let question := "Question: " +:+ ex_question data_i +:+ newline +:+ "Answer: " in
  let label := lower (join "|" (ex_answer data_i)) in
  let raw_graph := {| x := rows node_emb; edge_index := edge_index;
                      edge_attr := rows edge_emb;
                      num_nodes := length nodes |} in
  let* q_emb := getitem (rows q_embs) index in
  let* (psct_subgraph, desc) :=
    retrieval_via_pcst CosineSimilarity torch_topk pcst_fast raw_graph q_emb
      nodes edges 3 5 (1 # 2) in
  ret {| pg_data := psct_subgraph; pg_question := question;
         pg_label := label; pg_desc := desc |}.

(** [process], up to saving: the list of processed graphs. *)
Definition process (raw_dataset : list raw_example)
    : result (list processed_graph) :=
  let questions := ex_question <$> raw_dataset in
  let q_embs := text2embedding questions in
  mapM (λ item : nat * raw_example, process_item q_embs item.1 item.2)
       (imap (λ index data_i, (index, data_i)) raw_dataset).
End Process.

(** ** Further invariants of the reduction loop *)

(** The signs of what the loop produces. *)
Definition reduction_signs (st : reduction) : Prop :=
  Forall (λ q, (0 <= q)%Q) (cost_list st)
  ∧ Forall (λ q, (0 < q)%Q) (virtual_n_prizes st)
  ∧ Forall (λ q, q = 0%Q) (virtual_costs st).

(** Where the values of the two dicts come from: position [k] of the
    edge list belongs to a kept edge with [k] kept edges before it, and a
    virtual node to an edge above the cost, numbered by the virtual nodes
    before it. *)
Definition reduction_keys (num_nodes : nat) (cost_e : Q) (e_prizes : list Q)
    (st : reduction) : Prop :=
  (∀ k i, mapping_e st !! k = Some i →
     ∃ p, e_prizes !! i = Some p ∧ Qle_bool p cost_e = true
          ∧ kept_before cost_e e_prizes i = k)
  ∧ (∀ v i, mapping_n st !! v = Some i →
     ∃ p, e_prizes !! i = Some p ∧ Qle_bool p cost_e = false
          ∧ v = num_nodes + virtual_before cost_e e_prizes i).

(** A solver answer that is always within the instance: the first
    vertex when there is one, and no edge. *)
Definition first_vertex_solver (edges : list (nat * nat))
    (prizes costs : list Q) (root : Z) (num_clusters : nat)
    (pruning : string) (verbosity : nat) : result (list nat * list nat) :=
  ret (match prizes with [] => [] | _ :: _ => [0] end, []).

(** ** [Sentence_Transformer.mean_pooling] *)

(** [torch.clamp(v, min=m)] *)
Definition clamp_min (v m : Q) : Q := if Qlt_bool v m then m else v.

(** [Tensor.expand] along one dimension: a dimension that has the wanted
    size stays as it is, a dimension of size one is repeated, and any
    other size is an error. *)
Definition expand_dim {A} (n : nat) (t : list A) : result (list A) :=
  if length t =? n then ret t
  else match t with
       | [a] => ret (replicate n a)
       | _ => raise (RuntimeError
                "The expanded size of the tensor must match the existing size")
       end.

(** [attention_mask.unsqueeze(-1).expand(token_embeddings.size())
    .to(data_type)], for token embeddings of shape [(B, T, D)]: the new
    last dimension has size one and is repeated [D] times. *)
Definition input_mask_expanded (B T D : nat) (attention_mask : list (list Z))
    : result (list (list (list Q))) :=
  let* sentences := expand_dim B attention_mask in
  mapM (λ mask, let* tokens := expand_dim T mask in
                ret ((λ m, replicate D (inject_Z m)) <$> tokens))
       sentences.

(** [torch.sum(t, 1)] on one element of the batch: the sum of its [T]
    rows of [D] entries. *)
Definition sum_rows (D : nat) (t : list (list Q)) : list Q :=
  foldr (zip_with Qplus) (replicate D 0%Q) t.

(** [mean_pooling] for token embeddings of shape [(B, T, D)], as a list
    of [B] sentences, each a list of [T] rows. *)
Definition mean_pooling (T D : nat) (token_embeddings : list (list (list Q)))
    (attention_mask : list (list Z)) : result (list (list Q)) :=
  let* mask :=
    input_mask_expanded (length token_embeddings) T D attention_mask in
  let product := zip_with (zip_with (zip_with Qmult)) token_embeddings mask in
  ret (zip_with (zip_with Qdiv)
         (sum_rows D <$> product)
         (fmap (λ v, clamp_min v (1 # 1000000000)) <$> (sum_rows D <$> mask))).

(** The rows of the tokens of a sentence that the mask selects. *)
Definition selected_rows (e : list (list Q)) (m : list Z) : list (list Q) :=
  (filter (λ p : list Q * Z, p.2 = 1%Z) (zip e m)).*1.

(** A tensor of shape [(B, T, D)]. *)
Definition has_shape (T D : nat) (t : list (list (list Q))) : Prop :=
  Forall (λ e, length e = T ∧ Forall (λ row : list Q, length row = D) e) t.

(** The sum over the tokens of a sentence of the embedding rows, each
    multiplied by the mask value of its token. *)
Definition masked_sum (D : nat) (e : list (list Q)) (m : list Z) : list Q :=
  sum_rows D (zip_with (λ row (v : Z), (λ x, (x * inject_Z v)%Q) <$> row) e m).
(** * Properties *)

(** ** Strings *)

Lemma append_cons (ch : ascii) (a b : string) :
  String ch a +:+ b = String ch (a +:+ b).
Proof. reflexivity. Qed.

Lemma append_assoc (a b d : string) : (a +:+ b) +:+ d = a +:+ (b +:+ d).
Proof. induction a as [|ch a IH]; [done|]. rewrite !append_cons. by f_equal. Qed.

Lemma append_nil_r (a : string) : a +:+ "" = a.
Proof. induction a as [|ch a IH]; [done|]. rewrite append_cons. by f_equal. Qed.

Lemma occurs_in_context (sub s pre post : string) :
  occurs_in sub s → occurs_in sub (pre +:+ s +:+ post).
Proof.
  intros (p & q & ->). exists (pre +:+ p), (q +:+ post).
  by rewrite !append_assoc.
Qed.

Lemma join_cons (sep y z : string) (l : list string) :
  join sep (y :: z :: l) = y +:+ sep +:+ join sep (z :: l).
Proof. reflexivity. Qed.

Lemma occurs_in_join (sep name : string) (l : list string) :
  name ∈ l → occurs_in name (join sep l).
Proof.
  induction l as [|y l IH]; intros Hin; [by apply elem_of_nil in Hin|].
  apply elem_of_cons in Hin as [<- | Hin].
  - destruct l as [|z l].
    + exists "", "". change (join sep [name]) with name.
      by rewrite append_nil_r.
    + by exists "", (sep +:+ join sep (z :: l)).
  - destruct l as [|z l]; [by apply elem_of_nil in Hin|].
    rewrite join_cons.
    destruct (IH Hin) as (p & q & ->).
    exists (y +:+ sep +:+ p), q. by rewrite !append_assoc.
Qed.

(** ** The import guard *)

Lemma init_unfold {A} (env : imports) (body : unit → result A) :
  __init__ env body =
    if all_available env then body tt
    else raise (ImportError ("`pip install " +:+ join " " (missing env)
                             +:+ "` to use this dataset.")).
Proof. by destruct env as [[] [] [] []]. Qed.

Lemma missing_spec (env : imports) (name : string) (flag : imports → bool) :
  (name, flag) ∈ collaborators → (name ∈ missing env ↔ flag env = false).
Proof.
  unfold collaborators. rewrite !elem_of_cons, elem_of_nil.
  intros [H|[H|[H|[H|[]]]]]; injection H as -> ->;
    destruct env as [[] [] [] []]; vm_compute; split; intros H;
    first [ done | by repeat constructor
          | by repeat (apply elem_of_cons in H as [H|H]; [discriminate H|]);
               apply elem_of_nil in H ].
Qed.

(** C9.  The constructor raises one [ImportError] exactly when some
    required collaborator is missing; it does so instead of running the
    rest of the constructor; the message is the fixed template around the
    space-separated list of exactly the missing collaborators, so each of
    them occurs in it; with all four present the constructor goes on to
    its body and the guard raises nothing. *)
Theorem init_reports_all_missing {A} (env : imports) (body : unit → result A) :
  let error_out :=
    "`pip install " +:+ join " " (missing env) +:+ "` to use this dataset." in
  __init__ env body =
    (if all_available env then body tt else raise (ImportError error_out))
  ∧ (∀ name flag, (name, flag) ∈ collaborators →
       (name ∈ missing env ↔ flag env = false))
  ∧ (∀ name flag, (name, flag) ∈ collaborators → flag env = false →
       occurs_in name error_out)
  ∧ (all_available env = true ↔
       WITH_PCST env = true ∧ WITH_TRANSFORMERS env = true
       ∧ WITH_DATASETS env = true ∧ WITH_PANDAS env = true).
Proof.
  intros error_out. split; [apply init_unfold|]. split; [apply missing_spec|].
  split.
  - intros name flag Hin Hflag. apply occurs_in_context, occurs_in_join.
    by apply (missing_spec env name flag).
  - destruct env as [[] [] [] []]; vm_compute; intuition congruence.
Qed.

(** A run with [transformers] and [pandas] missing. *)
Lemma init_reports_all_missing_witness :
  let env := {| WITH_PANDAS := false; WITH_PCST := true;
                WITH_TRANSFORMERS := false; WITH_DATASETS := true |} in
  __init__ env (λ _, ret 0) =
    raise (ImportError "`pip install transformers pandas` to use this dataset.")
  ∧ occurs_in "transformers" "`pip install transformers pandas` to use this dataset."
  ∧ occurs_in "pandas" "`pip install transformers pandas` to use this dataset.".
Proof.
  intros env.
  destruct (init_reports_all_missing env (λ _, ret 0)) as (H1 & _ & H3 & _).
  split; [exact H1|]. split.
  - apply (H3 "transformers" WITH_TRANSFORMERS); [|reflexivity].
    unfold collaborators. apply list_elem_of_In. simpl. tauto.
  - apply (H3 "pandas" WITH_PANDAS); [|reflexivity].
    unfold collaborators. apply list_elem_of_In. simpl. tauto.
Defined.

(** ** The error monad *)

Lemma bind_inr {A B} (m : result A) (k : A → result B) (b : B) :
  bind m k = inr b → ∃ a, m = inr a ∧ k a = inr b.
Proof. destruct m as [e|a]; simpl; [discriminate | eauto]. Qed.

Lemma mapM_Forall2 {A B} (f : A → result B) (l : list A) (bs : list B) :
  mapM f l = inr bs ↔ Forall2 (λ a b, f a = inr b) l bs.
Proof.
  revert bs. induction l as [|a l IH]; intros bs; simpl.
  - split; [intros [= <-]; constructor | by inversion 1].
  - split.
    + intros H. apply bind_inr in H as (b & Hb & H).
      apply bind_inr in H as (bs' & Hbs & [= <-]).
      constructor; [done | by apply IH].
    + inversion 1 as [|? b ? bs' Hb Hbs]; subst.
      rewrite Hb. simpl. apply IH in Hbs. by rewrite Hbs.
Qed.

Lemma mapM_length {A B} (f : A → result B) (l : list A) (bs : list B) :
  mapM f l = inr bs → length bs = length l.
Proof. intros H. apply mapM_Forall2 in H. symmetry. by eapply Forall2_length. Qed.

Lemma mapM_lookup {A B} (f : A → result B) (l : list A) (bs : list B) i a :
  mapM f l = inr bs → l !! i = Some a → ∃ b, bs !! i = Some b ∧ f a = inr b.
Proof.
  intros H Hi. apply mapM_Forall2 in H.
  destruct (Forall2_lookup_l _ _ _ _ _ H Hi) as (b & ? & ?). eauto.
Qed.

Lemma mapM_lookup_r {A B} (f : A → result B) (l : list A) (bs : list B) i b :
  mapM f l = inr bs → bs !! i = Some b → ∃ a, l !! i = Some a ∧ f a = inr b.
Proof.
  intros H Hi. apply mapM_Forall2 in H.
  destruct (Forall2_lookup_r _ _ _ _ _ H Hi) as (a & ? & ?). eauto.
Qed.

Lemma mapM_total {A B} (f : A → result B) (l : list A) :
  Forall (λ a, ∃ b, f a = inr b) l → ∃ bs, mapM f l = inr bs.
Proof.
  induction 1 as [|a l [b Hb] _ [bs Hbs]]; simpl; [by eexists|].
  rewrite Hb. simpl. rewrite Hbs. simpl. by eexists.
Qed.

Lemma getitem_inr {A} (t : list A) (i : nat) (a : A) :
  getitem t i = inr a ↔ t !! i = Some a.
Proof.
  unfold getitem. destruct (t !! i); split; intros H; by inversion H.
Qed.

Lemma dict_get_inr (d : gmap nat nat) (k v : nat) :
  dict_get d k = inr v ↔ d !! k = Some v.
Proof.
  unfold dict_get. destruct (d !! k); split; intros H; by inversion H.
Qed.

Lemma take_rows_lookup {A} (t : list A) (idxs : list nat) (out : list A) j a :
  take_rows t idxs = inr out → out !! j = Some a →
  ∃ i, idxs !! j = Some i ∧ t !! i = Some a.
Proof.
  intros H Hj. destruct (mapM_lookup_r _ _ _ _ _ H Hj) as (i & ? & Hi).
  apply getitem_inr in Hi. eauto.
Qed.

(** ** Chunking *)

Lemma chunks_fuel_cons {A} (fuel n : nat) (a : A) (l : list A) :
  chunks_fuel (S fuel) n (a :: l)
  = take n (a :: l) :: chunks_fuel fuel n (drop n (a :: l)).
Proof. reflexivity. Qed.

(** With equal-length outputs per chunk, position [i] of the
    concatenation is position [i mod n] of output [i / n]. *)
Lemma chunks_fuel_concat_lookup {A B} (n fuel : nat) (l : list A)
    (outs : list (list B)) :
  0 < n → length l ≤ fuel →
  Forall2 (λ ch o, length o = length ch) (chunks_fuel fuel n l) outs →
  length (concat outs) = length l
  ∧ ∀ i, i < length l →
      chunks_fuel fuel n l !! (i / n) = Some (take n (drop (i / n * n) l))
      ∧ ∃ o, outs !! (i / n) = Some o ∧ concat outs !! i = o !! (i mod n).
Proof.
  intros Hn. revert l outs.
  induction fuel as [|fuel IH]; intros l outs Hlen HF.
  - destruct l; [|simpl in Hlen; lia]. inversion HF; subst. simpl.
    split; [done | intros; lia].
  - destruct l as [|a l].
    { inversion HF; subst. simpl. split; [done | intros; lia]. }
    rewrite chunks_fuel_cons in HF |- *.
    inversion HF as [|ch o chs outs' Hlo HF']; subst.
    assert (Hdrop : length (drop n (a :: l)) ≤ fuel).
    { rewrite length_drop. simpl in *. lia. }
    destruct (IH _ _ Hdrop HF') as [IHlen IHi].
    assert (Hto : length o = n `min` length (a :: l)) by (by rewrite Hlo, length_take).
    split.
    { simpl concat. rewrite length_app, IHlen, length_drop, Hto. lia. }
    intros i Hi. destruct (decide (i < n)) as [Hlt|Hge].
    + rewrite (Nat.div_small i n), (Nat.mod_small i n) by done.
      split; [done|]. exists o. split; [done|].
      simpl concat. rewrite lookup_app_l; [done|]. lia.
    + assert (Hq : i / n = S ((i - n) / n)).
      { replace i with ((i - n) + 1 * n) at 1 by lia.
        rewrite Nat.div_add by lia. lia. }
      assert (Hm : i mod n = (i - n) mod n).
      { replace i with ((i - n) + 1 * n) at 1 by lia.
        by rewrite Nat.Div0.mod_add. }
      assert (Hi' : i - n < length (drop n (a :: l))).
      { rewrite length_drop. lia. }
      destruct (IHi _ Hi') as (Hch & o' & Ho' & Hlk).
      rewrite Hq, Hm. split.
      * simpl lookup at 1. by rewrite Hch, drop_drop.
      * exists o'. split; [done|].
        simpl concat. rewrite lookup_app_r by lia.
        by replace (i - length o) with (i - n) by lia.
Qed.

(** ** [sbert_text2embedding] *)

Lemma torch_cat_inr (ms : list matrix) (m : matrix) :
  torch_cat ms = inr m → rows m = concat (rows <$> ms).
Proof.
  destruct ms as [|m0 ms]; [discriminate|]. unfold torch_cat.
  destruct (forallb _ _); [|discriminate]. by intros [= <-].
Qed.

Lemma Dataset_getitem_inr (d : Dataset) (i : nat) (item : list Z * list Z) :
  Dataset_getitem d i = inr item →
  data_input_ids d !! i = Some item.1 ∧ data_att_mask d !! i = Some item.2.
Proof.
  unfold Dataset_getitem.
  destruct (data_input_ids d !! i), (data_att_mask d !! i); try discriminate.
  by intros [= <-].
Qed.

(** A batch holds the rows of the dataset at the indices it was
    collated from. *)
Lemma collate_lookup (d : Dataset) (idxs : list nat) (b : batch) :
  (let* items := mapM (Dataset_getitem d) idxs in ret (collate items)) = inr b →
  length (b_input_ids b) = length idxs
  ∧ ∀ j i, idxs !! j = Some i →
      b_input_ids b !! j = data_input_ids d !! i
      ∧ b_att_mask b !! j = data_att_mask d !! i.
Proof.
  intros H. apply bind_inr in H as (items & Hitems & [= <-]). split.
  - simpl. rewrite length_fmap. by eapply mapM_length.
  - intros j i Hj.
    destruct (mapM_lookup _ _ _ _ _ Hitems Hj) as (item & Hitem & Hget).
    apply Dataset_getitem_inr in Hget as [-> ->].
    simpl. by rewrite !list_lookup_fmap, Hitem.
Qed.

Section SbertProps.
Variable tokenizer : list string → result encoding.
Variable model : batch → result matrix.

Lemma sbert_failure (text : list string) (e : exn) :
  embed_batches tokenizer model text = inl e →
  sbert_text2embedding tokenizer model text = torch_zeros 0 1024.
Proof. unfold sbert_text2embedding. by intros ->. Qed.

Lemma sbert_success (text : list string) (enc : encoding) (m : matrix) :
  tokenizer text = inr enc →
  length (input_ids enc) = length text →
  (∀ b o, model b = inr o → length (rows o) = length (b_input_ids b)) →
  embed_batches tokenizer model text = inr m →
  length (rows m) = length text
  ∧ ∀ i, i < length text →
      ∃ b o, model b = inr o
        ∧ b_input_ids b !! (i mod 256) = input_ids enc !! i
        ∧ b_att_mask b !! (i mod 256) = attention_mask enc !! i
        ∧ rows m !! i = rows o !! (i mod 256).
Proof.
  intros Htok Hlen Hmodel H. unfold embed_batches in H. rewrite Htok in H.
  simpl in H. apply bind_inr in H as (batches & Hdl & H).
  apply bind_inr in H as (outs & Houts & Hcat).
  apply torch_cat_inr in Hcat. unfold DataLoader, Dataset_len in Hdl.
  simpl in Hdl. set (d := {| data_input_ids := input_ids enc;
                             data_att_mask := attention_mask enc |}) in *.
  set (idx := seq 0 (length (input_ids enc))) in *.
  apply mapM_Forall2 in Hdl. apply mapM_Forall2 in Houts.
  assert (HF : Forall2 (λ (ch : list nat) (o : list (list Q)),
                          length o = length ch)
                 (chunks_fuel (length idx) 256 idx) (rows <$> outs)).
  { apply Forall2_fmap_r.
    eapply Forall2_trans; [| exact Hdl | exact Houts].
    intros ch b o Hb Ho. simpl in *.
    rewrite (Hmodel _ _ Ho). by apply (collate_lookup d). }
  destruct (chunks_fuel_concat_lookup 256 (length idx) idx _
              ltac:(lia) ltac:(lia) HF) as [Hl Hlook].
  rewrite <- Hcat in *. unfold idx in Hl at 1. rewrite length_seq in Hl.
  split; [congruence|]. intros i Hi.
  assert (Hi' : i < length idx) by (unfold idx; rewrite length_seq; lia).
  destruct (Hlook i Hi') as (Hch & ro & Hro & Hrow).
  rewrite list_lookup_fmap in Hro.
  destruct (outs !! (i / 256)) as [o|] eqn:Ho; [|discriminate].
  injection Hro as <-.
  destruct (Forall2_lookup_r _ _ _ _ _ Houts Ho) as (b & Hb & Hmb).
  destruct (Forall2_lookup_r _ _ _ _ _ Hdl Hb) as (ch & Hch' & Hcol).
  unfold chunks in Hch'. rewrite Hch in Hch'. injection Hch' as <-.
  apply collate_lookup in Hcol as [_ Hcol].
  assert (Hidx : take 256 (drop (i / 256 * 256) idx) !! (i mod 256) = Some i).
  { rewrite lookup_take_lt by (apply Nat.mod_upper_bound; lia).
    rewrite lookup_drop. unfold idx. apply lookup_seq.
    pose proof (Nat.div_mod_eq i 256). lia. }
  destruct (Hcol _ _ Hidx) as [Hid Hmask].
  exists b, o. by repeat split.
Qed.
End SbertProps.

(** C8.  If anything inside the [try] block raises, the function returns
    [torch.zeros((0, 1024))], a matrix of shape [(0, 1024)], instead of
    the exception.  If the block succeeds its result is returned as it
    is; when the tokenizer yields one row per text and the model one
    embedding per row of a batch, that result has one row per text, and
    row [i] is the embedding the model computed for the tokenised text
    [i] (row [i mod 256] of the batch holding it). *)
Theorem sbert_text2embedding_spec
    (tokenizer : list string → result encoding)
    (model : batch → result matrix) (text : list string) :
  (∀ e, embed_batches tokenizer model text = inl e →
     sbert_text2embedding tokenizer model text = torch_zeros 0 1024
     ∧ shape (sbert_text2embedding tokenizer model text) = (0, 1024))
  ∧ (∀ enc m,
       tokenizer text = inr enc →
       length (input_ids enc) = length text →
       (∀ b o, model b = inr o → length (rows o) = length (b_input_ids b)) →
       embed_batches tokenizer model text = inr m →
       sbert_text2embedding tokenizer model text = m
       ∧ length (rows m) = length text
       ∧ ∀ i, i < length text →
           ∃ b o, model b = inr o
             ∧ b_input_ids b !! (i mod 256) = input_ids enc !! i
             ∧ b_att_mask b !! (i mod 256) = attention_mask enc !! i
             ∧ rows m !! i = rows o !! (i mod 256)).
Proof.
  split.
  - intros e He. by rewrite (sbert_failure _ _ _ _ He).
  - intros enc m Htok Hlen Hmodel Hm. split.
    + unfold sbert_text2embedding. by rewrite Hm.
    + by eapply sbert_success.
Qed.

(** A failing tokenizer, and a run on two texts. *)
Lemma sbert_text2embedding_spec_witness :
  sbert_text2embedding failing_tokenizer first_token_model ["a"]
    = torch_zeros 0 1024
  ∧ sbert_text2embedding length_tokenizer first_token_model ["a"; "bc"]
    = {| rows := [[1%Q]; [2%Q]]; ncols := 1 |}.
Proof.
  split.
  - destruct (sbert_text2embedding_spec failing_tokenizer first_token_model
                ["a"]) as [Hfail _].
    apply (Hfail (RuntimeError "tokenizer")). reflexivity.
  - destruct (sbert_text2embedding_spec length_tokenizer first_token_model
                ["a"; "bc"]) as [_ Hok].
    eapply Hok.
    + reflexivity.
    + reflexivity.
    + intros b o [= <-]. simpl. by rewrite length_fmap.
    + reflexivity.
Defined.

(** ** The degenerate bypass *)

(** C7.  When the graph, whose tables have one row per node and per edge,
    has no node or no edge, the result is the input graph itself with the
    description made of the two table dumps; no solver, top-k or
    similarity is consulted, whatever they are (the right-hand side does
    not mention them, and they may as well raise).  Without edges the edge
    block of the description is the header line alone. *)
Theorem degenerate_passthrough
    (CosineSimilarity : list Q → list Q → Q)
    (torch_topk : list Q → nat → result (list Q * list nat))
    (pcst_fast : list (nat * nat) → list Q → list Q → Z → nat → string → nat →
                 result (list nat * list nat))
    (graph : Data) (q_emb : list Q)
    (textual_nodes : list node_row) (textual_edges : list edge_row)
    (topk topk_e : Z) (cost_e : Q) :
  length textual_nodes = num_nodes graph →
  length textual_edges = num_edges graph →
  num_nodes graph = 0 ∨ num_edges graph = 0 →
  retrieval_via_pcst CosineSimilarity torch_topk pcst_fast graph q_emb
      textual_nodes textual_edges topk topk_e cost_e
    = ret (graph, nodes_to_csv textual_nodes +:+ newline
                  +:+ edges_to_csv textual_edges)
  ∧ (num_edges graph = 0 →
     edges_to_csv textual_edges = "src,edge_attr,dst" +:+ newline).
Proof.
  intros Hn He Hdeg. split.
  - unfold retrieval_via_pcst.
    assert ((length textual_nodes =? 0) || (length textual_edges =? 0) = true)
      as ->.
    { apply orb_true_iff. rewrite !Nat.eqb_eq. lia. }
    unfold passthrough. by destruct graph.
  - intros H0. rewrite H0 in He. by destruct textual_edges.
Qed.

(** Two nodes, no edge, and a solver that would raise if it were called. *)
Lemma degenerate_passthrough_witness :
  retrieval_via_pcst dot topk_stable failing_solver edgeless_graph [1; 0]%Q
      edgeless_nodes [] 3 5 (1 # 2)
    = ret (edgeless_graph,
           "node_id,node_attr" +:+ newline +:+ "0,paris" +:+ newline
           +:+ "1,france" +:+ newline +:+ newline
           +:+ "src,edge_attr,dst" +:+ newline).
Proof.
  apply (degenerate_passthrough dot topk_stable failing_solver edgeless_graph
           [1; 0]%Q edgeless_nodes [] 3 5 (1 # 2)); [reflexivity | reflexivity |].
  right. reflexivity.
Defined.

(** ** The virtual-node reduction *)

Lemma kept_before_S (cost_e : Q) (e_prizes : list Q) (n : nat) (p : Q) :
  e_prizes !! n = Some p →
  kept_before cost_e e_prizes (S n)
  = kept_before cost_e e_prizes n + (if Qle_bool p cost_e then 1 else 0).
Proof.
  intros Hp. unfold kept_before. rewrite (take_S_r _ _ _ Hp), filter_app.
  rewrite length_app. f_equal. unfold kept.
  destruct (Qle_bool p cost_e) eqn:Hc.
  - by rewrite filter_cons_True.
  - rewrite filter_cons_False; [done|]. unfold kept. by rewrite Hc.
Qed.

Lemma virtual_before_S (cost_e : Q) (e_prizes : list Q) (n : nat) (p : Q) :
  e_prizes !! n = Some p →
  virtual_before cost_e e_prizes (S n)
  = virtual_before cost_e e_prizes n + (if Qle_bool p cost_e then 0 else 1).
Proof.
  intros Hp. unfold virtual_before. rewrite (take_S_r _ _ _ Hp), filter_app.
  rewrite length_app. f_equal. unfold kept.
  destruct (Qle_bool p cost_e) eqn:Hc.
  - rewrite filter_cons_False; [done|]. unfold kept. rewrite Hc. tauto.
  - rewrite filter_cons_True; [done|]. unfold kept. by rewrite Hc.
Qed.

Lemma kept_virtual_before_sum (cost_e : Q) (e_prizes : list Q) (n : nat) :
  n ≤ length e_prizes →
  kept_before cost_e e_prizes n + virtual_before cost_e e_prizes n = n.
Proof.
  induction n as [|n IH]; intros Hn; [done|].
  destruct (lookup_lt_is_Some_2 e_prizes n ltac:(lia)) as [p Hp].
  rewrite (kept_before_S _ _ _ _ Hp), (virtual_before_S _ _ _ _ Hp).
  specialize (IH ltac:(lia)). destruct (Qle_bool p cost_e); lia.
Qed.

(** The loop establishes any property that holds initially and that
    each iteration preserves, and it does not raise when the prize tensor
    covers the columns. *)
Lemma reduction_loop_invariant (P : nat → reduction → Prop)
    (num_nodes : nat) (cost_e : Q) (e_prizes : list Q)
    (columns : list (nat * nat)) :
  ∀ (i : nat) (st : reduction),
    i + length columns ≤ length e_prizes →
    P i st →
    (∀ j s d p st', columns !! j = Some (s, d) →
       e_prizes !! (i + j) = Some p → P (i + j) st' →
       P (S (i + j)) (reduction_step num_nodes cost_e (i + j) s d p st')) →
    ∃ r, reduction_loop num_nodes cost_e e_prizes i columns st = inr r
         ∧ P (i + length columns) r.
Proof.
  induction columns as [|[s d] columns IH]; intros i st Hlen HP Hstep.
  - exists st. simpl. by rewrite Nat.add_0_r.
  - simpl in Hlen.
    destruct (lookup_lt_is_Some_2 e_prizes i ltac:(lia)) as [p Hp].
    simpl. unfold getitem. rewrite Hp. simpl.
    destruct (IH (S i) (reduction_step num_nodes cost_e i s d p st))
      as (r & Hr & HPr).
    + lia.
    + specialize (Hstep 0 s d p st). rewrite Nat.add_0_r in Hstep.
      by apply Hstep.
    + intros j s' d' p' st' Hj Hp' HP'.
      replace (S i + j) with (i + S j) in * by lia.
      by apply Hstep.
    + exists r. split; [done|].
      by replace (i + S (length columns)) with (S i + length columns) by lia.
Qed.

Lemma reduction_step_inv (num_nodes : nat) (cost_e : Q)
    (e_idx : list (nat * nat)) (e_prizes : list Q)
    (n s d : nat) (p : Q) (st : reduction) :
  e_idx !! n = Some (s, d) → e_prizes !! n = Some p →
  reduction_inv num_nodes cost_e e_idx e_prizes n st →
  reduction_inv num_nodes cost_e e_idx e_prizes (S n)
    (reduction_step num_nodes cost_e n s d p st).
Proof.
  intros He Hp ((L1 & L2 & L3 & L4 & L5 & M1 & M2) & (O1 & O2 & O3 & O4) & Hed).
  pose proof (kept_before_S cost_e _ _ _ Hp) as Hk.
  pose proof (virtual_before_S cost_e _ _ _ Hp) as Hv.
  unfold reduction_step. destruct (Qle_bool p cost_e) eqn:Hc.
  - rewrite Nat.add_0_r in Hv. split; [|split].
    + unfold reduction_sizes. simpl. rewrite !length_app. simpl.
      rewrite Hk, Hv. split_and!; try lia.
      * intros k. rewrite lookup_insert_is_Some, M1. lia.
      * exact M2.
    + unfold reduction_origin. reduction_fields. split_and!.
      * intros k i. rewrite lookup_insert_Some. intros [[_ <-]|[_ H]]; [lia|].
        apply O1 in H. lia.
      * intros v i H. apply O2 in H. lia.
      * intros k a b Hl. apply lookup_app_Some in Hl as [Hl|[Hge Hl]].
        -- destruct (O3 _ _ _ Hl) as (i & Hi & Hei). exists i. split; [|done].
           rewrite lookup_insert_ne; [done|]. apply lookup_lt_Some in Hl. lia.
        -- apply list_lookup_singleton_Some in Hl as [Hz [= <- <-]].
           exists n. split; [|done].
           replace k with (length (edge_list st)) by lia.
           apply lookup_insert_eq.
      * apply O4.
    + intros i src dst q Hi Hei Hq. destruct (decide (i = n)) as [->|Hne].
      * rewrite He in Hei. rewrite Hp in Hq. injection Hei as <- <-.
        injection Hq as <-. unfold edge_reduced. rewrite Hc. simpl.
        rewrite <- L1. split_and!.
        -- by apply list_lookup_middle.
        -- rewrite L1, <- L2. by apply list_lookup_middle.
        -- apply Qle_bool_iff in Hc. lra.
        -- apply lookup_insert_eq.
      * specialize (Hed i src dst q ltac:(lia) Hei Hq).
        unfold edge_reduced in *. destruct (Qle_bool q cost_e); simpl.
        -- destruct Hed as (E1 & E2 & E3 & E4).
           pose proof (lookup_lt_Some _ _ _ E1).
           split_and!; try done.
           ++ by apply lookup_app_l_Some.
           ++ by apply lookup_app_l_Some.
           ++ rewrite lookup_insert_ne; [done | lia].
        -- exact Hed.
  - rewrite Nat.add_0_r in Hk. split; [|split].
    + unfold reduction_sizes. simpl. rewrite !length_app. simpl.
      rewrite Hk, Hv. split_and!; try lia.
      * exact M1.
      * intros v. rewrite lookup_insert_is_Some, M2. lia.
    + unfold reduction_origin. reduction_fields. split_and!.
      * intros k i H. apply O1 in H. lia.
      * intros v i. rewrite lookup_insert_Some. intros [[_ <-]|[_ H]]; [lia|].
        apply O2 in H. lia.
      * apply O3.
      * intros k a b Hl. apply lookup_app_Some in Hl as [Hl|[Hge Hl]].
        -- destruct (O4 _ _ _ Hl) as (i & s' & d' & Hi & Hei & Hab).
           exists i, s', d'. split; [|done].
           rewrite lookup_insert_ne; [done|].
           pose proof (proj1 (M2 _) (mk_is_Some _ _ Hi)). lia.
        -- rewrite L4 in Hge, Hl. rewrite L3 in Hl |- *.
           set (r := virtual_before cost_e e_prizes n) in *.
           assert (Hk2 : k = 2 * r ∨ k = 2 * r + 1).
           { apply lookup_lt_Some in Hl. simpl in Hl. lia. }
           assert (Hdiv : k / 2 = r).
           { destruct Hk2 as [->| ->].
             - rewrite Nat.mul_comm. by apply Nat.div_mul.
             - rewrite Nat.mul_comm, Nat.div_add_l by lia. simpl. lia. }
           rewrite Hdiv. exists n, s, d. rewrite lookup_insert_eq.
           split; [done|]. split; [done|].
           destruct Hk2 as [->| ->].
           ++ rewrite Nat.sub_diag in Hl. injection Hl as <- <-. by left.
           ++ replace (2 * r + 1 - 2 * r) with 1 in Hl by lia.
              injection Hl as <- <-. by right.
    + intros i src dst q Hi Hei Hq. destruct (decide (i = n)) as [->|Hne].
      * rewrite He in Hei. rewrite Hp in Hq. injection Hei as <- <-.
        injection Hq as <-. unfold edge_reduced. rewrite Hc.
        reduction_fields. cbv zeta. rewrite L3.
        set (r := virtual_before cost_e e_prizes n) in *.
        split_and!.
        -- rewrite lookup_app_r by lia. by rewrite L3, Nat.sub_diag.
        -- rewrite lookup_app_r by lia. by rewrite L4, Nat.sub_diag.
        -- rewrite lookup_app_r by lia. rewrite L4.
           by replace (2 * r + 1 - 2 * r) with 1 by lia.
        -- rewrite lookup_app_r by lia. by rewrite L5, Nat.sub_diag.
        -- rewrite lookup_app_r by lia. rewrite L5.
           by replace (2 * r + 1 - 2 * r) with 1 by lia.
        -- apply lookup_insert_eq.
      * specialize (Hed i src dst q ltac:(lia) Hei Hq).
        unfold edge_reduced in *. destruct (Qle_bool q cost_e); simpl.
        -- exact Hed.
        -- destruct Hed as (E1 & E2 & E3 & E4 & E5 & E6).
           pose proof (lookup_lt_Some _ _ _ E1).
           split_and!; try by apply lookup_app_l_Some.
           rewrite lookup_insert_ne; [done | lia].
Qed.

Lemma reduction_init_inv (num_nodes : nat) (cost_e : Q)
    (e_idx : list (nat * nat)) (e_prizes : list Q) :
  reduction_inv num_nodes cost_e e_idx e_prizes 0 reduction_init.
Proof.
  split; [|split].
  - unfold reduction_sizes, kept_before, virtual_before. simpl.
    split_and!; try done.
    + intros k. rewrite lookup_empty. split; [by intros [? ?] | lia].
    + intros v. rewrite lookup_empty. split; [by intros [? ?] | lia].
  - unfold reduction_origin. simpl. split_and!.
    + intros k i. by rewrite lookup_empty.
    + intros k i. by rewrite lookup_empty.
    + intros k a b. by rewrite lookup_nil.
    + intros k a b. by rewrite lookup_nil.
  - intros; lia.
Qed.

(** The reduction never raises on a prize tensor that covers the edges,
    and its result satisfies the invariant for all edges. *)
Lemma virtual_node_reduction_inv (num_nodes : nat) (cost_e : Q)
    (e_idx : list (nat * nat)) (e_prizes : list Q) :
  length e_idx ≤ length e_prizes →
  ∃ r, virtual_node_reduction num_nodes cost_e e_idx e_prizes = inr r
       ∧ reduction_inv num_nodes cost_e e_idx e_prizes (length e_idx) r.
Proof.
  intros Hlen. unfold virtual_node_reduction.
  apply (reduction_loop_invariant
           (reduction_inv num_nodes cost_e e_idx e_prizes)
           num_nodes cost_e e_prizes e_idx 0 reduction_init).
  - simpl. lia.
  - apply reduction_init_inv.
  - intros j s d p st Hj Hp Hinv. simpl in *. by apply reduction_step_inv.
Qed.

(** C1.  On a graph whose prize tensor has one entry per edge the
    reduction returns, and for every edge [i = (src, dst)] with prize [p]:
    when [p <= cost_e] the edge is the real edge at position
    [kept_before i] of the edge list, with the non-negative cost
    [cost_e - p], and that position is mapped back to [i]; otherwise the
    virtual node [num_nodes + virtual_before i], numbered by the virtual
    nodes created before it, has prize [p - cost_e], the two zero-cost
    edges [(src, id)] and [(id, dst)] sit at positions [2r] and [2r + 1]
    of the virtual edges, and the id is mapped back to [i].  The sizes say
    there is nothing else: as many real edges, costs and keys of
    [mapping_e] as kept edges, as many virtual prizes and keys of
    [mapping_n] as the remaining edges, and two virtual edges and costs for
    each of those. *)
Theorem virtual_node_reduction_spec (num_nodes : nat) (cost_e : Q)
    (e_idx : list (nat * nat)) (e_prizes : list Q) :
  length e_prizes = length e_idx →
  ∃ r, virtual_node_reduction num_nodes cost_e e_idx e_prizes = inr r
    ∧ (∀ i src dst p,
         e_idx !! i = Some (src, dst) → e_prizes !! i = Some p →
         edge_reduced num_nodes cost_e e_prizes r i src dst p)
    ∧ reduction_sizes num_nodes cost_e e_prizes (length e_idx) r
    ∧ kept_before cost_e e_prizes (length e_idx)
      + virtual_before cost_e e_prizes (length e_idx) = length e_idx.
Proof.
  intros Hlen.
  destruct (virtual_node_reduction_inv num_nodes cost_e e_idx e_prizes)
    as (r & Hr & Hsz & _ & Hed); [lia|].
  exists r. split_and!; try done.
  - intros i src dst p Hi Hp. apply Hed; [|done..].
    by apply lookup_lt_Some in Hi.
  - apply kept_virtual_before_sum. lia.
Qed.

(** Two edges on three nodes, the second one with a prize above the cost. *)
Lemma virtual_node_reduction_spec_witness :
  ∃ r, virtual_node_reduction 3 (1 # 2) [(0, 1); (1, 2)] [0; 99 # 100]%Q = inr r
    ∧ (∀ i src dst p,
         [(0, 1); (1, 2)] !! i = Some (src, dst) →
         [0; 99 # 100]%Q !! i = Some p →
         edge_reduced 3 (1 # 2) [0; 99 # 100]%Q r i src dst p)
    ∧ reduction_sizes 3 (1 # 2) [0; 99 # 100]%Q 2 r
    ∧ kept_before (1 # 2) [0; 99 # 100]%Q 2
      + virtual_before (1 # 2) [0; 99 # 100]%Q 2 = 2.
Proof.
  apply (virtual_node_reduction_spec 3 (1 # 2) [(0, 1); (1, 2)]
           [0; 99 # 100]%Q).
  reflexivity.
Defined.

(** ** Node prizes *)

Lemma arange_down_lookup (k j : nat) :
  j < k → arange_down k !! j = Some (Q_of_nat (k - j)).
Proof.
  intros Hj. unfold arange_down. rewrite list_lookup_fmap.
  rewrite reverse_lookup by (rewrite length_seq; lia).
  rewrite length_seq. rewrite lookup_seq_lt by lia. simpl.
  do 2 f_equal. lia.
Qed.

Lemma arange_down_length (k : nat) : length (arange_down k) = k.
Proof. unfold arange_down. by rewrite length_fmap, length_reverse, length_seq. Qed.

Lemma index_put_spec (idx : list nat) :
  ∀ (vals t : list Q),
    length idx = length vals → NoDup idx →
    Forall (λ i, i < length t) idx →
    ∃ t', index_put t idx vals = inr t'
      ∧ length t' = length t
      ∧ (∀ j i v, idx !! j = Some i → vals !! j = Some v → t' !! i = Some v)
      ∧ (∀ i, i ∉ idx → t' !! i = t !! i).
Proof.
  induction idx as [|i idx IH]; intros vals t Hlen Hnd Hin.
  - destruct vals; [|discriminate]. exists t. simpl. split_and!; try done.
  - destruct vals as [|v vals]; [discriminate|].
    apply NoDup_cons in Hnd as [Hni Hnd]. apply Forall_cons in Hin as [Hi Hin].
    simpl. unfold setitem. apply Nat.ltb_lt in Hi as Hi'. rewrite Hi'. simpl.
    destruct (IH vals (<[i:=v]> t)) as (t' & Ht' & Hl & Hsel & Hother).
    + simpl in Hlen. lia.
    + done.
    + by rewrite length_insert.
    + exists t'. split_and!; try done.
      * by rewrite Hl, length_insert.
      * intros [|j] i' v' Hj Hv; simpl in *.
        -- injection Hj as <-. injection Hv as <-.
           rewrite (Hother _ Hni). by apply list_lookup_insert_eq.
        -- by eapply Hsel.
      * intros i' Hni'. apply not_elem_of_cons in Hni' as [Hne Hni'].
        rewrite (Hother _ Hni'). by apply list_lookup_insert_ne.
Qed.

Lemma Q_of_nat_lt (a b : nat) : a < b → (Q_of_nat a < Q_of_nat b)%Q.
Proof.
  intros H. unfold Q_of_nat. rewrite <- Zlt_Qlt. lia.
Qed.

Lemma StronglySorted_lookup_lt {A} (R : relation A) (l : list A) i j a b :
  StronglySorted R l → l !! i = Some a → l !! j = Some b → i < j → R a b.
Proof.
  intros Hs. revert i j. induction Hs as [|y l Hs IH Hall]; intros i j Hi Hj Hlt.
  - by rewrite lookup_nil in Hi.
  - destruct j as [|j]; [lia|]. destruct i as [|i]; simpl in *.
    + injection Hi as <-. rewrite Forall_forall in Hall. apply Hall.
      by eapply list_elem_of_lookup_2.
    + apply (IH i j); [done | done | lia].
Qed.

(** C3.  With [topk <= 0] every node prize is zero.  Otherwise let
    [k = min(topk, num_nodes)] and let [torch.topk] return the positions
    [idx] under its contract: these are [k] distinct nodes, listed by
    descending similarity and at least as similar to the query as every
    other node; the node at place [j] of [idx] gets the prize [k - j]
    (so [k, k-1, ..., 1]), a node listed earlier gets a strictly larger
    prize than one listed later, and every other node gets 0. *)
Theorem node_prize_assignment_spec
    (CosineSimilarity : list Q → list Q → Q)
    (torch_topk : list Q → nat → result (list Q * list nat))
    (topk : Z) (q_emb : list Q) (node_feat : list (list Q)) (num_nodes : nat) :
  length node_feat = num_nodes →
  ((topk <= 0)%Z →
     node_prize_assignment CosineSimilarity torch_topk topk q_emb node_feat
       num_nodes = inr (replicate num_nodes 0%Q))
  ∧ ((0 < topk)%Z →
     ∀ vals idx,
       torch_topk (CosineSimilarity q_emb <$> node_feat)
                  (Z.to_nat topk `min` num_nodes) = inr (vals, idx) →
       topk_ok (CosineSimilarity q_emb <$> node_feat)
               (Z.to_nat topk `min` num_nodes) vals idx →
       ∃ n_prizes,
         node_prize_assignment CosineSimilarity torch_topk topk q_emb node_feat
           num_nodes = inr n_prizes
         ∧ length n_prizes = num_nodes
         ∧ length idx = Z.to_nat topk `min` num_nodes
         ∧ NoDup idx
         ∧ (∀ j i, idx !! j = Some i →
              n_prizes !! i
              = Some (Q_of_nat (Z.to_nat topk `min` num_nodes - j)))
         ∧ (∀ i, i < num_nodes → i ∉ idx → n_prizes !! i = Some 0%Q)
         ∧ (∀ j1 j2 i1 i2, j1 < j2 → idx !! j1 = Some i1 → idx !! j2 = Some i2 →
              ∃ s1 s2 p1 p2,
                node_feat !! i1 = Some s1 ∧ node_feat !! i2 = Some s2
                ∧ (CosineSimilarity q_emb s2 <= CosineSimilarity q_emb s1)%Q
                ∧ n_prizes !! i1 = Some p1 ∧ n_prizes !! i2 = Some p2
                ∧ (p2 < p1)%Q)
         ∧ (∀ i i' s s', i ∈ idx → i' ∉ idx →
              node_feat !! i = Some s → node_feat !! i' = Some s' →
              (CosineSimilarity q_emb s' <= CosineSimilarity q_emb s)%Q)).
Proof.
  intros Hlen. split.
  - intros Hle. unfold node_prize_assignment.
    by assert ((0 <? topk)%Z = false) as -> by lia.
  - intros Hpos vals idx Htopk (Hk & Hnd & Hvals & Hsorted & Hrest).
    set (sims := CosineSimilarity q_emb <$> node_feat) in *.
    set (k := Z.to_nat topk `min` num_nodes) in *.
    assert (Hkz : Z.to_nat (Z.min topk (Z.of_nat num_nodes)) = k) by (unfold k; lia).
    assert (Hsl : length sims = num_nodes) by (unfold sims; by rewrite length_fmap).
    destruct (index_put_spec idx (arange_down k) ((λ _ : Q, 0%Q) <$> sims))
      as (n_prizes & Hput & Hl & Hsel & Hother).
    { by rewrite arange_down_length. }
    { done. }
    { rewrite length_fmap. apply Forall_forall. intros i Hi.
      apply list_elem_of_lookup in Hi as [j Hj].
      destruct (Forall2_lookup_l _ _ _ _ _ Hvals Hj) as (v & _ & Hv).
      by apply lookup_lt_Some in Hv. }
    assert (Hprize : ∀ j i, idx !! j = Some i →
              n_prizes !! i = Some (Q_of_nat (k - j))).
    { intros j i Hj. apply (Hsel j i); [done|].
      apply arange_down_lookup. apply lookup_lt_Some in Hj. lia. }
    exists n_prizes. split_and!; try done.
    + unfold node_prize_assignment.
      assert ((0 <? topk)%Z = true) as -> by lia.
      fold sims. rewrite Hkz, Htopk. simpl. exact Hput.
    + by rewrite Hl, length_fmap.
    + intros i Hi Hni. rewrite (Hother _ Hni), list_lookup_fmap.
      destruct (lookup_lt_is_Some_2 sims i ltac:(lia)) as [q ->]. done.
    + intros j1 j2 i1 i2 Hj Hj1 Hj2.
      destruct (Forall2_lookup_l _ _ _ _ _ Hvals Hj1) as (v1 & Hv1 & Hs1).
      destruct (Forall2_lookup_l _ _ _ _ _ Hvals Hj2) as (v2 & Hv2 & Hs2).
      unfold sims in Hs1, Hs2. rewrite list_lookup_fmap in Hs1, Hs2.
      destruct (node_feat !! i1) as [s1|] eqn:E1; [|discriminate].
      destruct (node_feat !! i2) as [s2|] eqn:E2; [|discriminate].
      injection Hs1 as <-. injection Hs2 as <-.
      exists s1, s2, (Q_of_nat (k - j1)), (Q_of_nat (k - j2)).
      split_and!; try done; try by apply Hprize.
      * apply (StronglySorted_lookup_lt _ _ _ _ _ _ Hsorted Hv1 Hv2 Hj).
      * apply Q_of_nat_lt. apply lookup_lt_Some in Hj2. lia.
    + intros i i' s s' Hi Hni Hs Hs'.
      apply list_elem_of_lookup in Hi as [j Hj].
      destruct (Forall2_lookup_l _ _ _ _ _ Hvals Hj) as (v & Hv & Hsv).
      unfold sims in Hsv. rewrite list_lookup_fmap, Hs in Hsv.
      injection Hsv as <-.
      apply (Hrest i'); [|done|].
      * unfold sims. by rewrite list_lookup_fmap, Hs'.
      * by eapply list_elem_of_lookup_2.
Qed.

(** The two nodes closest to the query out of three. *)
Lemma node_prize_assignment_spec_witness :
  ∃ n_prizes,
    node_prize_assignment dot topk_stable 2 sample_q_emb sample_node_feat 3
      = inr n_prizes
    ∧ n_prizes !! 2 = Some (Q_of_nat 2)
    ∧ n_prizes !! 1 = Some (Q_of_nat 1)
    ∧ n_prizes !! 0 = Some 0%Q.
Proof.
  destruct (node_prize_assignment_spec dot topk_stable 2 sample_q_emb
              sample_node_feat 3 eq_refl) as [_ H].
  edestruct (H ltac:(lia)) as (n_prizes & Hn & _ & _ & _ & Hsel & Hother & _).
  - reflexivity.
  - split_and!.
    + reflexivity.
    + apply NoDup_cons. split; [|apply NoDup_singleton].
      intros Hin. apply list_elem_of_singleton in Hin. discriminate.
    + repeat constructor.
    + repeat constructor. by vm_compute.
    + intros i q v Hq Hni Hv.
      destruct i as [|[|[|i]]]; simpl in Hq; try discriminate.
      * injection Hq as <-.
        repeat (apply elem_of_cons in Hv as [->|Hv]; [by vm_compute|]).
        by apply elem_of_nil in Hv.
      * exfalso. apply Hni. by repeat constructor.
      * exfalso. apply Hni. by repeat constructor.
  - exists n_prizes. split_and!.
    + exact Hn.
    + apply (Hsel 0 2). reflexivity.
    + apply (Hsel 1 1). reflexivity.
    + apply Hother; [lia|]. intros Hin.
      repeat (apply elem_of_cons in Hin as [Hin|Hin]; [discriminate|]).
      by apply elem_of_nil in Hin.
Defined.

(** ** Reconstruction *)

Lemma StronglySorted_le_NoDup_lt (l : list nat) :
  StronglySorted le l → NoDup l → StronglySorted lt l.
Proof.
  induction 1 as [|a l Hs IH Hall]; intros Hnd; [constructor|].
  apply NoDup_cons in Hnd as [Hni Hnd]. constructor; [by apply IH|].
  rewrite Forall_forall in Hall |- *. intros b Hb.
  specialize (Hall b Hb). assert (a ≠ b) by (by intros ->). lia.
Qed.

Lemma np_unique_spec (l : list nat) :
  StronglySorted lt (np_unique l)
  ∧ NoDup (np_unique l)
  ∧ ∀ v, v ∈ np_unique l ↔ v ∈ l.
Proof.
  unfold np_unique.
  assert (Hnd : NoDup (merge_sort le (remove_dups l))).
  { rewrite merge_sort_Permutation. apply NoDup_remove_dups. }
  split_and!; [|done|].
  - apply StronglySorted_le_NoDup_lt; [|done].
    apply StronglySorted_merge_sort; apply _.
  - intros v. by rewrite merge_sort_Permutation, elem_of_remove_dups.
Qed.

Lemma reduction_loop_covered (num_nodes : nat) (cost_e : Q) (e_prizes : list Q)
    (columns : list (nat * nat)) :
  ∀ i st r,
    reduction_loop num_nodes cost_e e_prizes i columns st = inr r →
    columns = [] ∨ i + length columns ≤ length e_prizes.
Proof.
  induction columns as [|[s d] columns IH]; intros i st r H; [by left|].
  right. simpl in H. apply bind_inr in H as (p & Hp & H).
  apply getitem_inr, lookup_lt_Some in Hp.
  apply IH in H as [-> | H]; simpl in *; lia.
Qed.

(** A reduction that returned satisfies the invariant for all edges. *)
Lemma virtual_node_reduction_inr_inv (num_nodes : nat) (cost_e : Q)
    (e_idx : list (nat * nat)) (e_prizes : list Q) (r : reduction) :
  virtual_node_reduction num_nodes cost_e e_idx e_prizes = inr r →
  reduction_inv num_nodes cost_e e_idx e_prizes (length e_idx) r.
Proof.
  intros Hr.
  destruct (virtual_node_reduction_inv num_nodes cost_e e_idx e_prizes)
    as (r' & Hr' & Hinv).
  - apply reduction_loop_covered in Hr as [-> | Hr]; simpl in *; lia.
  - rewrite Hr in Hr'. by injection Hr' as <-.
Qed.

Lemma dict_get_total (m : gmap nat nat) (k : nat) :
  is_Some (m !! k) → ∃ v, dict_get m k = inr v.
Proof. intros [v Hv]. exists v. by apply dict_get_inr. Qed.

(** Reconstruction does not raise on a selection whose vertices index
    the prize vector of the reduced instance; its parts are the kept
    edges among the selected instance edges, the edges of the selected
    virtual nodes, and the columns of [e_idx] for both. *)
Lemma reconstruct_spec (num_nodes : nat) (cost_e : Q)
    (e_idx : list (nat * nat)) (e_prizes : list Q) (r : reduction)
    (vertices edges : list nat) :
  reduction_inv num_nodes cost_e e_idx e_prizes (length e_idx) r →
  Forall (λ v, v < num_nodes + length (virtual_n_prizes r)) vertices →
  ∃ sel_e virt_e ei,
    mapM (dict_get (mapping_e r))
         (filter (λ e, e < length (edge_list r)) edges) = inr sel_e
    ∧ mapM (dict_get (mapping_n r))
           (filter (λ v, num_nodes ≤ v) vertices) = inr virt_e
    ∧ take_rows e_idx (sel_e ++ virt_e) = inr ei
    ∧ reconstruct num_nodes e_idx r vertices edges
      = inr {| selected_nodes := filter (λ v, v < num_nodes) vertices;
               new_selected_edges := sel_e ++ virt_e;
               selected_edge_index := ei;
               new_selected_nodes :=
                 np_unique (filter (λ v, v < num_nodes) vertices
                            ++ ei.*1 ++ ei.*2) |}.
Proof.
  intros ((L1 & L2 & L3 & L4 & L5 & M1 & M2) & (O1 & O2 & O3 & O4) & _) Hrange.
  destruct (mapM_total (dict_get (mapping_e r))
              (filter (λ e, e < length (edge_list r)) edges)) as [sel_e Hsel].
  { apply Forall_forall. intros e He. apply list_elem_of_filter in He as [He _].
    apply dict_get_total, M1. lia. }
  destruct (mapM_total (dict_get (mapping_n r))
              (filter (λ v, num_nodes ≤ v) vertices)) as [virt_e Hvirt].
  { apply Forall_forall. intros v Hv. apply list_elem_of_filter in Hv as [Hge Hv].
    rewrite Forall_forall in Hrange. specialize (Hrange v Hv).
    apply dict_get_total, M2. lia. }
  destruct (mapM_total (getitem e_idx) (sel_e ++ virt_e)) as [ei Hei].
  { apply Forall_forall. intros i Hi.
    assert (i < length e_idx) as Hlt.
    { apply elem_of_app in Hi as [Hi|Hi];
        apply list_elem_of_lookup in Hi as [j Hj].
      - destruct (mapM_lookup_r _ _ _ _ _ Hsel Hj) as (k & _ & Hk).
        apply dict_get_inr in Hk. by eapply O1.
      - destruct (mapM_lookup_r _ _ _ _ _ Hvirt Hj) as (k & _ & Hk).
        apply dict_get_inr in Hk. by eapply O2. }
    destruct (lookup_lt_is_Some_2 _ _ Hlt) as [col Hcol].
    exists col. by apply getitem_inr. }
  exists sel_e, virt_e, ei. split_and!; try done.
  unfold reconstruct. rewrite Hsel. simpl.
  destruct (0 <? length (filter (λ v, num_nodes ≤ v) vertices)) eqn:Hv.
  - rewrite Hvirt. simpl. unfold take_rows in *. rewrite Hei. by simpl.
  - apply Nat.ltb_ge in Hv.
    destruct (filter (λ v, num_nodes ≤ v) vertices); [|simpl in Hv; lia].
    simpl in Hvirt. injection Hvirt as <-. rewrite app_nil_r in *.
    simpl. unfold take_rows in *. rewrite Hei. by simpl.
Qed.

Lemma elem_of_endpoints (ei : list (nat * nat)) (v : nat) :
  v ∈ ei.*1 ++ ei.*2 ↔ ∃ s d, (s, d) ∈ ei ∧ (v = s ∨ v = d).
Proof.
  rewrite elem_of_app, !list_elem_of_fmap. split.
  - intros [([s d] & -> & H)|([s d] & -> & H)]; exists s, d; simpl; auto.
  - intros (s & d & H & [-> | ->]); [left|right]; by exists (s, d).
Qed.

(** What reconstruction returns: the selected real nodes, the final
    edges with their columns of [e_idx], and the final nodes. *)
Lemma reconstruct_final_nodes (num_nodes : nat) (cost_e : Q)
    (e_idx : list (nat * nat)) (e_prizes : list Q) (r : reduction)
    (vertices edges : list nat) :
  virtual_node_reduction num_nodes cost_e e_idx e_prizes = inr r →
  Forall (λ v, v < num_nodes + length (virtual_n_prizes r)) vertices →
  ∃ rc, reconstruct num_nodes e_idx r vertices edges = inr rc
    ∧ selected_nodes rc = filter (λ v, v < num_nodes) vertices
    ∧ Forall2 (λ j col, e_idx !! j = Some col)
              (new_selected_edges rc) (selected_edge_index rc)
    ∧ new_selected_nodes rc
      = np_unique (selected_nodes rc ++ (selected_edge_index rc).*1
                   ++ (selected_edge_index rc).*2)
    ∧ StronglySorted lt (new_selected_nodes rc)
    ∧ (∀ v, v ∈ new_selected_nodes rc ↔
            v ∈ selected_nodes rc
            ∨ ∃ s d, (s, d) ∈ selected_edge_index rc ∧ (v = s ∨ v = d)).
Proof.
  intros Hred Hrange. apply virtual_node_reduction_inr_inv in Hred.
  destruct (reconstruct_spec _ _ _ _ _ vertices edges Hred Hrange)
    as (sel_e & virt_e & ei & Hsel & Hvirt & Hei & Hrc).
  eexists. split; [exact Hrc|]. simpl.
  destruct (np_unique_spec (filter (λ v, v < num_nodes) vertices
                            ++ ei.*1 ++ ei.*2)) as (Hsorted & _ & Hmem).
  assert (Hnodes : ∀ v,
    v ∈ np_unique (filter (λ v, v < num_nodes) vertices ++ ei.*1 ++ ei.*2) ↔
    v ∈ filter (λ v, v < num_nodes) vertices
    ∨ ∃ s d, (s, d) ∈ ei ∧ (v = s ∨ v = d)).
  { intros v. by rewrite Hmem, elem_of_app, elem_of_endpoints. }
  split_and!; try done.
  - apply mapM_Forall2 in Hei.
    eapply Forall2_impl; [exact Hei|]. intros j col. apply getitem_inr.
Qed.

(** C4.  After a reduction that returned, and for a selection whose
    vertices index the reduced prize vector, reconstruction returns; its
    final node list is [np.unique] of the selected real nodes followed by
    the sources and targets of the final edges: strictly ascending (so
    without duplicates), and holding exactly the selected real nodes and
    the endpoints of the final edges.  A selected virtual node brings its
    original edge into the final edges and both endpoints of that edge
    into the final nodes, whether or not the solver selected them. *)
Theorem reconstruction_node_set (num_nodes : nat) (cost_e : Q)
    (e_idx : list (nat * nat)) (e_prizes : list Q) (r : reduction)
    (vertices edges : list nat) :
  virtual_node_reduction num_nodes cost_e e_idx e_prizes = inr r →
  Forall (λ v, v < num_nodes + length (virtual_n_prizes r)) vertices →
  ∃ rc, reconstruct num_nodes e_idx r vertices edges = inr rc
    ∧ selected_nodes rc = filter (λ v, v < num_nodes) vertices
    ∧ Forall2 (λ j col, e_idx !! j = Some col)
              (new_selected_edges rc) (selected_edge_index rc)
    ∧ new_selected_nodes rc
      = np_unique (selected_nodes rc ++ (selected_edge_index rc).*1
                   ++ (selected_edge_index rc).*2)
    ∧ StronglySorted lt (new_selected_nodes rc)
    ∧ (∀ v, v ∈ new_selected_nodes rc ↔
            v ∈ selected_nodes rc
            ∨ ∃ s d, (s, d) ∈ selected_edge_index rc ∧ (v = s ∨ v = d))
    ∧ (∀ v i s d,
         v ∈ vertices → num_nodes ≤ v →
         mapping_n r !! v = Some i → e_idx !! i = Some (s, d) →
         i ∈ new_selected_edges rc ∧ (s, d) ∈ selected_edge_index rc
         ∧ s ∈ new_selected_nodes rc ∧ d ∈ new_selected_nodes rc).
Proof.
  intros Hred Hrange. apply virtual_node_reduction_inr_inv in Hred.
  destruct (reconstruct_spec _ _ _ _ _ vertices edges Hred Hrange)
    as (sel_e & virt_e & ei & Hsel & Hvirt & Hei & Hrc).
  eexists. split; [exact Hrc|]. simpl.
  destruct (np_unique_spec (filter (λ v, v < num_nodes) vertices
                            ++ ei.*1 ++ ei.*2)) as (Hsorted & _ & Hmem).
  assert (Hnodes : ∀ v,
    v ∈ np_unique (filter (λ v, v < num_nodes) vertices ++ ei.*1 ++ ei.*2) ↔
    v ∈ filter (λ v, v < num_nodes) vertices
    ∨ ∃ s d, (s, d) ∈ ei ∧ (v = s ∨ v = d)).
  { intros v. by rewrite Hmem, elem_of_app, elem_of_endpoints. }
  split_and!; try done.
  - apply mapM_Forall2 in Hei.
    eapply Forall2_impl; [exact Hei|]. intros j col. apply getitem_inr.
  - intros v i s d Hv Hge Hi Hcol.
    assert (Hvv : v ∈ filter (λ v, num_nodes ≤ v) vertices).
    { by apply list_elem_of_filter. }
    apply list_elem_of_lookup in Hvv as [j Hj].
    destruct (mapM_lookup _ _ _ _ _ Hvirt Hj) as (i' & Hi' & Hget).
    apply dict_get_inr in Hget. rewrite Hi in Hget. injection Hget as <-.
    assert (Hpos : (sel_e ++ virt_e) !! (length sel_e + j) = Some i).
    { by rewrite lookup_app_r, Nat.add_comm, Nat.add_sub by lia. }
    destruct (mapM_lookup _ _ _ _ _ Hei Hpos) as (col & Hc & Hgc).
    apply getitem_inr in Hgc. rewrite Hcol in Hgc. injection Hgc as <-.
    assert (Hin : (s, d) ∈ ei) by (by eapply list_elem_of_lookup_2).
    split_and!.
    + by eapply list_elem_of_lookup_2.
    + done.
    + apply Hnodes. right. exists s, d. auto.
    + apply Hnodes. right. exists s, d. auto.
Qed.

(** The solver selects the virtual node 3 alone: edge 1 comes back with
    both its endpoints. *)
Lemma reconstruction_node_set_witness :
  ∃ rc, reconstruct 3 sample_e_idx sample_reduction [3] [] = inr rc
    ∧ selected_nodes rc = []
    ∧ new_selected_edges rc = [1]
    ∧ new_selected_nodes rc = [1; 2].
Proof.
  destruct (reconstruction_node_set 3 (1 # 2) sample_e_idx sample_e_prizes
              sample_reduction [3] [])
    as (rc & Hrc & Hsel & _); [reflexivity | |].
  - repeat constructor.
  - exists rc. split; [exact Hrc|].
    vm_compute in Hrc. injection Hrc as <-. by vm_compute.
Defined.

(** ** The dense remapping and the output graph *)

Lemma compact_mapping_snoc (nodes : list nat) (n : nat) :
  compact_mapping (nodes ++ [n]) = <[n := length nodes]> (compact_mapping nodes).
Proof.
  unfold compact_mapping. rewrite imap_app, foldl_app. simpl.
  by rewrite Nat.add_0_r.
Qed.

(** The dict sends a node to its position in the list. *)
Lemma compact_mapping_lookup (nodes : list nat) (n i : nat) :
  NoDup nodes →
  compact_mapping nodes !! n = Some i ↔ nodes !! i = Some n.
Proof.
  induction nodes as [|a nodes IH] using rev_ind; intros Hnd.
  - unfold compact_mapping. simpl. by rewrite lookup_empty, lookup_nil.
  - apply NoDup_app in Hnd as (Hnd & Hdisj & _).
    rewrite compact_mapping_snoc, lookup_insert_Some, (IH Hnd). split.
    + intros [[-> <-]|[Hne Hi]].
      * by apply list_lookup_middle.
      * by apply lookup_app_l_Some.
    + intros Hi. apply lookup_app_Some in Hi as [Hi|[Hge Hi]].
      * right. split; [|done]. intros ->.
        apply (Hdisj n); [by eapply list_elem_of_lookup_2 | by left].
      * apply list_lookup_singleton_Some in Hi as [Hz ->].
        left. split; [done | lia].
Qed.

Lemma take_rows_total {A} (t : list A) (idxs : list nat) :
  Forall (λ i, i < length t) idxs → ∃ out, take_rows t idxs = inr out.
Proof.
  intros H. apply mapM_total. eapply Forall_impl; [exact H|].
  intros i Hi. destruct (lookup_lt_is_Some_2 _ _ Hi) as [a Ha].
  exists a. by apply getitem_inr.
Qed.

Lemma take_rows_Forall2 {A} (t : list A) (idxs : list nat) (out : list A) :
  take_rows t idxs = inr out → Forall2 (λ i a, t !! i = Some a) idxs out.
Proof.
  intros H. apply mapM_Forall2 in H. eapply Forall2_impl; [exact H|].
  intros i a. apply getitem_inr.
Qed.

(** The output is built without raising when the final nodes and edges
    index the feature tensors and the tables, and every endpoint of a
    final edge is a final node. *)
Lemma build_output_spec (node_feat e_attr : list (list Q))
    (textual_nodes : list node_row) (textual_edges : list edge_row)
    (rc : reconstruction) :
  NoDup (new_selected_nodes rc) →
  Forall (λ n, n < length node_feat) (new_selected_nodes rc) →
  Forall (λ n, n < length textual_nodes) (new_selected_nodes rc) →
  Forall (λ j, j < length e_attr) (new_selected_edges rc) →
  Forall (λ j, j < length textual_edges) (new_selected_edges rc) →
  (∀ s d, (s, d) ∈ selected_edge_index rc →
          s ∈ new_selected_nodes rc ∧ d ∈ new_selected_nodes rc) →
  ∃ n e xs eattr src dst,
    take_rows textual_nodes (new_selected_nodes rc) = inr n
    ∧ take_rows textual_edges (new_selected_edges rc) = inr e
    ∧ take_rows node_feat (new_selected_nodes rc) = inr xs
    ∧ take_rows e_attr (new_selected_edges rc) = inr eattr
    ∧ Forall2 (λ s s', new_selected_nodes rc !! s' = Some s)
              (selected_edge_index rc).*1 src
    ∧ Forall2 (λ d d', new_selected_nodes rc !! d' = Some d)
              (selected_edge_index rc).*2 dst
    ∧ build_output node_feat e_attr textual_nodes textual_edges rc
      = inr ({| x := xs; edge_index := zip src dst; edge_attr := eattr;
                num_nodes := length (selected_nodes rc) |},
             nodes_to_csv n +:+ newline +:+ edges_to_csv e).
Proof.
  intros Hnd Hnf Htn Hea Hte Hends.
  destruct (take_rows_total textual_nodes _ Htn) as [n Hn].
  destruct (take_rows_total textual_edges _ Hte) as [e He].
  destruct (take_rows_total node_feat _ Hnf) as [xs Hxs].
  destruct (take_rows_total e_attr _ Hea) as [eattr Heattr].
  set (mapping := compact_mapping (new_selected_nodes rc)).
  assert (Hget : ∀ v, v ∈ new_selected_nodes rc →
                      ∃ i, dict_get mapping v = inr i).
  { intros v Hv. apply list_elem_of_lookup in Hv as [i Hi]. exists i.
    by apply dict_get_inr, compact_mapping_lookup. }
  destruct (mapM_total (dict_get mapping) (selected_edge_index rc).*1)
    as [src Hsrc].
  { apply Forall_forall. intros s Hs.
    apply list_elem_of_fmap in Hs as ([s' d] & -> & Hs).
    apply Hget. by apply (Hends s' d). }
  destruct (mapM_total (dict_get mapping) (selected_edge_index rc).*2)
    as [dst Hdst].
  { apply Forall_forall. intros d Hd.
    apply list_elem_of_fmap in Hd as ([s d'] & -> & Hd).
    apply Hget. by apply (Hends s d'). }
  exists n, e, xs, eattr, src, dst. split_and!; try done.
  - apply mapM_Forall2 in Hsrc. eapply Forall2_impl; [exact Hsrc|].
    intros s s' H. apply dict_get_inr in H. by apply compact_mapping_lookup in H.
  - apply mapM_Forall2 in Hdst. eapply Forall2_impl; [exact Hdst|].
    intros d d' H. apply dict_get_inr in H. by apply compact_mapping_lookup in H.
  - unfold build_output. rewrite Hn. simpl. rewrite He. simpl.
    rewrite Hxs. simpl. rewrite Heattr. simpl.
    fold mapping. rewrite Hsrc. simpl. rewrite Hdst. by simpl.
Qed.

Lemma Forall2_zip_columns {A B} (P Q : A → B → Prop)
    (ei : list (A * A)) :
  ∀ (src dst : list B),
    Forall2 P ei.*1 src → Forall2 Q ei.*2 dst →
    Forall2 (λ col col', P col.1 col'.1 ∧ Q col.2 col'.2) ei (zip src dst).
Proof.
  induction ei as [|[s d] ei IH]; intros src dst Hs Hd; simpl in *.
  - inversion Hs; subst. constructor.
  - inversion Hs; subst. inversion Hd; subst. simpl.
    constructor; [done | by apply IH].
Qed.

Lemma StronglySorted_lt_NoDup (l : list nat) : StronglySorted lt l → NoDup l.
Proof.
  induction 1 as [|a l _ IH Hall]; constructor; [|done].
  intros Hin. rewrite Forall_forall in Hall. specialize (Hall a Hin). lia.
Qed.

(** The compact ids of the output edges: a position [i] of the final node
    list occurs in [zip src dst] exactly when the node at that position
    is an endpoint of a final edge. *)
Lemma compact_ids_spec (nodes : list nat) (ei : list (nat * nat))
    (src dst : list nat) :
  NoDup nodes →
  Forall2 (λ s s', nodes !! s' = Some s) ei.*1 src →
  Forall2 (λ d d', nodes !! d' = Some d) ei.*2 dst →
  ∀ i, i ∈ (zip src dst).*1 ++ (zip src dst).*2 ↔
       ∃ n s d, nodes !! i = Some n ∧ (s, d) ∈ ei ∧ (n = s ∨ n = d).
Proof.
  intros Hnd Hs Hd i.
  pose proof (Forall2_length _ _ _ Hs) as Hls.
  pose proof (Forall2_length _ _ _ Hd) as Hld.
  rewrite !length_fmap in Hls, Hld.
  rewrite fst_zip, snd_zip by lia. rewrite elem_of_app. split.
  - intros [Hi|Hi]; apply list_elem_of_lookup in Hi as [k Hk].
    + destruct (Forall2_lookup_r _ _ _ _ _ Hs Hk) as (s & Hsk & Hn).
      rewrite list_lookup_fmap in Hsk.
      destruct (ei !! k) as [[s' d']|] eqn:E; [|discriminate].
      injection Hsk as <-. exists s', s', d'. split_and!; auto.
      by eapply list_elem_of_lookup_2.
    + destruct (Forall2_lookup_r _ _ _ _ _ Hd Hk) as (d & Hdk & Hn).
      rewrite list_lookup_fmap in Hdk.
      destruct (ei !! k) as [[s' d']|] eqn:E; [|discriminate].
      injection Hdk as <-. exists d', s', d'. split_and!; auto.
      by eapply list_elem_of_lookup_2.
  - intros (n & s & d & Hn & Hsd & Hv).
    apply list_elem_of_lookup in Hsd as [k Hk]. destruct Hv as [-> | ->].
    + assert (Hk1 : ei.*1 !! k = Some s) by (by rewrite list_lookup_fmap, Hk).
      destruct (Forall2_lookup_l _ _ _ _ _ Hs Hk1) as (s' & Hs' & Hn').
      left. rewrite <- (NoDup_lookup _ _ _ _ Hnd Hn' Hn).
      by eapply list_elem_of_lookup_2.
    + assert (Hk2 : ei.*2 !! k = Some d) by (by rewrite list_lookup_fmap, Hk).
      destruct (Forall2_lookup_l _ _ _ _ _ Hd Hk2) as (d' & Hd' & Hn').
      right. rewrite <- (NoDup_lookup _ _ _ _ Hnd Hn' Hn).
      by eapply list_elem_of_lookup_2.
Qed.

(** Reconstruction followed by the construction of the output, on a
    well-formed graph and a selection within the reduced instance. *)
Lemma reconstruct_build_output (num_nodes : nat) (cost_e : Q)
    (e_idx : list (nat * nat)) (e_prizes : list Q) (r : reduction)
    (vertices edges : list nat) (node_feat e_attr : list (list Q))
    (textual_nodes : list node_row) (textual_edges : list edge_row) :
  virtual_node_reduction num_nodes cost_e e_idx e_prizes = inr r →
  Forall (λ v, v < num_nodes + length (virtual_n_prizes r)) vertices →
  well_formed num_nodes e_idx node_feat e_attr textual_nodes textual_edges →
  ∃ rc n e xs eattr src dst,
    reconstruct num_nodes e_idx r vertices edges = inr rc
    ∧ build_output node_feat e_attr textual_nodes textual_edges rc
      = inr ({| x := xs; edge_index := zip src dst; edge_attr := eattr;
                num_nodes := length (selected_nodes rc) |},
             nodes_to_csv n +:+ newline +:+ edges_to_csv e)
    ∧ take_rows textual_nodes (new_selected_nodes rc) = inr n
    ∧ take_rows textual_edges (new_selected_edges rc) = inr e
    ∧ take_rows node_feat (new_selected_nodes rc) = inr xs
    ∧ take_rows e_attr (new_selected_edges rc) = inr eattr
    ∧ Forall2 (λ s s', new_selected_nodes rc !! s' = Some s)
              (selected_edge_index rc).*1 src
    ∧ Forall2 (λ d d', new_selected_nodes rc !! d' = Some d)
              (selected_edge_index rc).*2 dst
    ∧ NoDup (new_selected_nodes rc)
    ∧ selected_nodes rc = filter (λ v, v < num_nodes) vertices
    ∧ Forall2 (λ j col, e_idx !! j = Some col)
              (new_selected_edges rc) (selected_edge_index rc)
    ∧ (∀ v, v ∈ new_selected_nodes rc ↔
            v ∈ selected_nodes rc
            ∨ ∃ s d, (s, d) ∈ selected_edge_index rc ∧ (v = s ∨ v = d)).
Proof.
  intros Hred Hrange (Hnf & Htn & Hea & Hte & Hcols).
  destruct (reconstruct_final_nodes num_nodes cost_e e_idx e_prizes r
              vertices edges Hred Hrange)
    as (rc & Hrc & Hsel & Hei & Hnodes & Hsorted & Hmem).
  assert (Hend : ∀ s d, (s, d) ∈ selected_edge_index rc →
                        s < num_nodes ∧ d < num_nodes).
  { intros s d Hsd. apply list_elem_of_lookup in Hsd as [k Hk].
    destruct (Forall2_lookup_r _ _ _ _ _ Hei Hk) as (j & _ & Hj).
    rewrite Forall_forall in Hcols.
    apply (Hcols (s, d)). by eapply list_elem_of_lookup_2. }
  assert (Hlt : Forall (λ n, n < num_nodes) (new_selected_nodes rc)).
  { apply Forall_forall. intros v Hv. apply Hmem in Hv as [Hv|(s & d & Hsd & Hv)].
    - rewrite Hsel in Hv. by apply list_elem_of_filter in Hv as [? _].
    - destruct (Hend s d Hsd). destruct Hv as [-> | ->]; lia. }
  assert (Hje : Forall (λ j, j < length e_idx) (new_selected_edges rc)).
  { apply Forall_forall. intros j Hj. apply list_elem_of_lookup in Hj as [k Hk].
    destruct (Forall2_lookup_l _ _ _ _ _ Hei Hk) as (col & _ & Hcol).
    by apply lookup_lt_Some in Hcol. }
  destruct (build_output_spec node_feat e_attr textual_nodes textual_edges rc)
    as (n & e & xs & eattr & src & dst & H1 & H2 & H3 & H4 & H5 & H6 & H7).
  - by apply StronglySorted_lt_NoDup.
  - by rewrite Hnf.
  - by rewrite Htn.
  - by rewrite Hea.
  - by rewrite Hte.
  - intros s d Hsd. split; apply Hmem; right; exists s, d; auto.
  - exists rc, n, e, xs, eattr, src, dst. split_and!; try done.
    by apply StronglySorted_lt_NoDup.
Qed.

(** ** Selected vertices and final edges *)

Lemma pcst_edges_app (num_nodes : nat) (cost_e : Q)
    (e_idx : list (nat * nat)) (e_prizes : list Q) (n : nat) (r : reduction) :
  reduction_inv num_nodes cost_e e_idx e_prizes n r →
  pcst_edges r = edge_list r ++ virtual_edges r.
Proof.
  intros ((_ & _ & _ & L4 & L5 & _) & _). unfold pcst_edges.
  destruct (0 <? length (virtual_costs r)) eqn:H; [done|].
  apply Nat.ltb_ge in H.
  destruct (virtual_edges r); [by rewrite app_nil_r | simpl in *; lia].
Qed.

(** A real vertex on a selected instance edge whose endpoints are
    selected is an endpoint of a final edge. *)
Lemma incident_edge_final (num_nodes : nat) (cost_e : Q)
    (e_idx : list (nat * nat)) (e_prizes : list Q) (r : reduction)
    (vertices edges sel_e virt_e : list nat) (ei : list (nat * nat))
    (e a b v : nat) :
  reduction_inv num_nodes cost_e e_idx e_prizes (length e_idx) r →
  mapM (dict_get (mapping_e r))
       (filter (λ e, e < length (edge_list r)) edges) = inr sel_e →
  mapM (dict_get (mapping_n r))
       (filter (λ v, num_nodes ≤ v) vertices) = inr virt_e →
  take_rows e_idx (sel_e ++ virt_e) = inr ei →
  e ∈ edges → pcst_edges r !! e = Some (a, b) →
  a ∈ vertices → b ∈ vertices →
  v < num_nodes → v = a ∨ v = b →
  ∃ s d, (s, d) ∈ ei ∧ (v = s ∨ v = d).
Proof.
  intros Hinv Hsel Hvirt Hei He Hab Ha Hb Hv Hvab.
  rewrite (pcst_edges_app _ _ _ _ _ _ Hinv) in Hab.
  destruct Hinv as (_ & (O1 & O2 & O3 & O4) & _).
  assert (Hfinal : ∀ i col, i ∈ sel_e ++ virt_e → e_idx !! i = Some col →
                            col ∈ ei).
  { intros i col Hi Hcol. apply list_elem_of_lookup in Hi as [k Hk].
    destruct (mapM_lookup _ _ _ _ _ Hei Hk) as (col' & Hc & Hg).
    apply getitem_inr in Hg. rewrite Hcol in Hg. injection Hg as <-.
    by eapply list_elem_of_lookup_2. }
  apply lookup_app_Some in Hab as [Hab|[Hge Hab]].
  - destruct (O3 _ _ _ Hab) as (i & Hi & Hcol).
    exists a, b. split; [|done]. apply (Hfinal i); [|done].
    apply elem_of_app. left.
    assert (Hin : e ∈ filter (λ e, e < length (edge_list r)) edges).
    { apply list_elem_of_filter. split; [|done]. by apply lookup_lt_Some in Hab. }
    apply list_elem_of_lookup in Hin as [k Hk].
    destruct (mapM_lookup _ _ _ _ _ Hsel Hk) as (i' & Hi' & Hg).
    apply dict_get_inr in Hg. rewrite Hi in Hg. injection Hg as <-.
    by eapply list_elem_of_lookup_2.
  - destruct (O4 _ _ _ Hab) as (i & s & d & Hi & Hcol & Hsd).
    set (vid := num_nodes + (e - length (edge_list r)) / 2) in *.
    assert (Hvid : vid ∈ vertices).
    { destruct Hsd as [[= -> ->] | [= -> ->]]; done. }
    exists s, d. split.
    + apply (Hfinal i); [|done]. apply elem_of_app. right.
      assert (Hin : vid ∈ filter (λ v, num_nodes ≤ v) vertices).
      { apply list_elem_of_filter. split; [unfold vid; lia | done]. }
      apply list_elem_of_lookup in Hin as [k Hk].
      destruct (mapM_lookup _ _ _ _ _ Hvirt Hk) as (i' & Hi' & Hg).
      apply dict_get_inr in Hg. rewrite Hi in Hg. injection Hg as <-.
      by eapply list_elem_of_lookup_2.
    + assert (v ≠ vid) by (unfold vid; lia).
      destruct Hsd as [[= -> ->] | [= -> ->]]; destruct Hvab; auto; done.
Qed.

(** ** Compact ids of the output edges *)

(** The solver keeps vertex 0 and no edge: the output has one node, so
    the compact range is [[0, 1)], and no edge, so no id occurs in
    [edge_index]. *)
Lemma compact_ids_not_whole_range :
  ∃ data desc,
    retrieval_via_pcst dot topk_stable single_vertex_solver pair_graph
      [1; 0]%Q pair_nodes pair_edges 1 0 (1 # 2) = inr (data, desc)
    ∧ length (x data) = 1
    ∧ ¬ ids_are_exactly_range (edge_index data) (length (x data)).
Proof.
  eexists _, _. split; [by vm_compute|]. split; [done|].
  simpl. intros H. destruct (H 0) as [_ H0].
  specialize (H0 ltac:(lia)). by apply elem_of_nil in H0.
Qed.

(** Under the solver's contract every selected node of the graph is an
    endpoint of a final edge, unless the answer is a single node of the
    graph without edge. *)
Lemma selected_nodes_on_final_edges (num_nodes : nat) (cost_e : Q)
    (e_idx : list (nat * nat)) (e_prizes : list Q) (r : reduction)
    (vertices edges : list nat) (rc : reconstruction) :
  virtual_node_reduction num_nodes cost_e e_idx e_prizes = inr r →
  Forall (λ v, v < num_nodes + length (virtual_n_prizes r)) vertices →
  reconstruct num_nodes e_idx r vertices edges = inr rc →
  tree_selection r vertices edges →
  ¬ (edges = [] ∧ ∃ v, vertices = [v] ∧ v < num_nodes) →
  ∀ v, v ∈ selected_nodes rc →
       ∃ s d, (s, d) ∈ selected_edge_index rc ∧ (v = s ∨ v = d).
Proof.
  intros Hred Hrange Hrc (Hvnd & Hedges & Htree) Hnot v Hv.
  pose proof (virtual_node_reduction_inr_inv _ _ _ _ _ Hred) as Hinv.
  destruct (reconstruct_spec _ _ _ _ _ vertices edges Hinv Hrange)
    as (sel_e & virt_e & ei & Hsel & Hvirt & Hei & Hrc1).
  rewrite Hrc in Hrc1. injection Hrc1 as ->. simpl in *.
  apply list_elem_of_filter in Hv as [Hvlt Hv].
  destruct Htree as [[-> Hone] | Hcov].
  - exfalso. apply Hnot. split; [done|].
    destruct vertices as [|v' [|? ?]]; [| |simpl in Hone; lia].
    + by apply elem_of_nil in Hv.
    + apply list_elem_of_singleton in Hv as <-. by exists v.
  - destruct (Hcov v Hv) as (e' & a & b & He' & Hab & Hvab).
    destruct (Hedges e' He') as (a' & b' & Hab' & Ha & Hb).
    rewrite Hab in Hab'. injection Hab' as <- <-.
    by eapply (incident_edge_final num_nodes cost_e e_idx e_prizes r
                 vertices edges sel_e virt_e ei e' a b v).
Qed.

(** When the answer is a single node of the graph without edge, the
    final node list is that node and there is no final edge. *)
Lemma reconstruct_single_vertex (num_nodes : nat) (e_idx : list (nat * nat))
    (r : reduction) (v : nat) :
  v < num_nodes →
  reconstruct num_nodes e_idx r [v] []
  = inr {| selected_nodes := [v]; new_selected_edges := [];
           selected_edge_index := []; new_selected_nodes := [v] |}.
Proof.
  intros Hv. unfold reconstruct. cbn [filter list_filter].
  destruct (decide (v < num_nodes)); [|lia].
  destruct (decide (num_nodes <= v)); [lia|]. done.
Qed.

(** C5 (amended).  On a well-formed graph and a selection within the
    reduced instance the output is built, and: [x] holds the feature rows
    of the final nodes and [edge_attr] those of the final edges, in
    order; each output edge is the final edge with both endpoints replaced
    by their positions in the ascending, duplicate-free final node list;
    hence every id in [edge_index] is below the number of final nodes, and
    a position occurs in [edge_index] exactly when its node is an
    endpoint of a final edge.  When the selection is a tree of the
    reduced instance, the ids in [edge_index] are exactly the range
    [[0, |final nodes|)], without gap, with one exception: when the
    selection is a single node of the graph without edge, the output has
    one node and an empty [edge_index]. *)
Theorem compact_edge_index_spec (num_nodes : nat) (cost_e : Q)
    (e_idx : list (nat * nat)) (e_prizes : list Q) (r : reduction)
    (vertices edges : list nat) (node_feat e_attr : list (list Q))
    (textual_nodes : list node_row) (textual_edges : list edge_row) :
  virtual_node_reduction num_nodes cost_e e_idx e_prizes = inr r →
  Forall (λ v, v < num_nodes + length (virtual_n_prizes r)) vertices →
  well_formed num_nodes e_idx node_feat e_attr textual_nodes textual_edges →
  ∃ rc data desc,
    reconstruct num_nodes e_idx r vertices edges = inr rc
    ∧ build_output node_feat e_attr textual_nodes textual_edges rc
      = inr (data, desc)
    ∧ StronglySorted lt (new_selected_nodes rc)
    ∧ Forall2 (λ n row, node_feat !! n = Some row)
              (new_selected_nodes rc) (x data)
    ∧ Forall2 (λ j row, e_attr !! j = Some row)
              (new_selected_edges rc) (edge_attr data)
    ∧ Forall2 (λ col col',
                 new_selected_nodes rc !! col'.1 = Some col.1
                 ∧ new_selected_nodes rc !! col'.2 = Some col.2)
              (selected_edge_index rc) (edge_index data)
    ∧ (∀ i, i ∈ (edge_index data).*1 ++ (edge_index data).*2 →
            i < length (x data))
    ∧ (∀ i, i ∈ (edge_index data).*1 ++ (edge_index data).*2 ↔
            ∃ n s d, new_selected_nodes rc !! i = Some n
                     ∧ (s, d) ∈ selected_edge_index rc ∧ (n = s ∨ n = d))
    ∧ (tree_selection r vertices edges →
       ¬ (edges = [] ∧ ∃ v, vertices = [v] ∧ v < num_nodes) →
       ids_are_exactly_range (edge_index data) (length (x data)))
    ∧ (edges = [] → ∀ v, vertices = [v] → v < num_nodes →
       edge_index data = [] ∧ length (x data) = 1).
Proof.
  intros Hred Hrange Hwf.
  destruct (reconstruct_final_nodes num_nodes cost_e e_idx e_prizes r
              vertices edges Hred Hrange) as (rc' & Hrc' & _ & _ & _ & Hsorted & _).
  destruct (reconstruct_build_output num_nodes cost_e e_idx e_prizes r
              vertices edges node_feat e_attr textual_nodes textual_edges
              Hred Hrange Hwf)
    as (rc & n & e & xs & eattr & src & dst & Hrc & Hout & Hn & He & Hxs
        & Heattr & Hsrc & Hdst & Hnd & Hsel & Hei & Hmem).
  rewrite Hrc in Hrc'. injection Hrc' as <-.
  eexists rc, _, _. split; [exact Hrc|]. split; [exact Hout|]. simpl.
  pose proof (compact_ids_spec _ _ _ _ Hnd Hsrc Hdst) as Hids.
  assert (Hlx : length xs = length (new_selected_nodes rc)).
  { apply take_rows_Forall2, Forall2_length in Hxs. lia. }
  assert (Hbelow : ∀ i, i ∈ (zip src dst).*1 ++ (zip src dst).*2 →
                        i < length xs).
  { intros i Hi. apply Hids in Hi as (v & _ & _ & Hv & _).
    apply lookup_lt_Some in Hv. lia. }
  split_and!; try done.
  - by apply take_rows_Forall2.
  - by apply take_rows_Forall2.
  - by apply (Forall2_zip_columns
                 (λ s s', new_selected_nodes rc !! s' = Some s)
                 (λ d d', new_selected_nodes rc !! d' = Some d)).
  - intros Htree Hnot i. split; [apply Hbelow|]. intros Hi.
    destruct (lookup_lt_is_Some_2 (new_selected_nodes rc) i ltac:(lia))
      as [v Hv].
    apply Hids.
    assert (v ∈ new_selected_nodes rc) as Hin
      by (by eapply list_elem_of_lookup_2).
    apply Hmem in Hin as [Hin | (s & d & Hsd & Hvsd)].
    + destruct (selected_nodes_on_final_edges num_nodes cost_e e_idx e_prizes
                  r vertices edges rc Hred Hrange Hrc Htree Hnot v Hin)
        as (s & d & Hsd & Hvsd).
      by exists v, s, d.
    + by exists v, s, d.
  - intros -> v -> Hv.
    rewrite (reconstruct_single_vertex _ _ _ _ Hv) in Hrc.
    injection Hrc as <-. simpl in *.
    apply Forall2_nil_inv_l in Hsrc as ->. split; [done | lia].
Qed.

(** The solver selects nodes 1 and 2 with the virtual node between them:
    the output edge joins the compact ids 0 and 1, the whole range of the
    two final nodes. *)
Lemma compact_edge_index_spec_witness :
  ∃ rc data desc,
    reconstruct 3 sample_e_idx sample_reduction [1; 2; 3] [1; 2] = inr rc
    ∧ build_output sample_node_feat sample_e_attr sample_textual_nodes
        sample_textual_edges rc = inr (data, desc)
    ∧ new_selected_nodes rc = [1; 2]
    ∧ edge_index data = [(0, 1)]
    ∧ ids_are_exactly_range (edge_index data) (length (x data)).
Proof.
  destruct (compact_edge_index_spec 3 (1 # 2) sample_e_idx sample_e_prizes
              sample_reduction [1; 2; 3] [1; 2] sample_node_feat sample_e_attr
              sample_textual_nodes sample_textual_edges)
    as (rc & data & desc & Hrc & Hout & _ & _ & _ & _ & _ & _ & Hrange & _).
  - reflexivity.
  - repeat constructor.
  - unfold well_formed. split_and!; try reflexivity.
    repeat constructor.
  - exists rc, data, desc. split; [exact Hrc|]. split; [exact Hout|].
    split_and!.
    + vm_compute in Hrc. by injection Hrc as <-.
    + vm_compute in Hrc. injection Hrc as <-.
      vm_compute in Hout. injection Hout as <- _. by vm_compute.
    + apply Hrange.
      * split_and!.
        -- apply NoDup_cons. split.
           { intros H. apply elem_of_cons in H as [H|H]; [discriminate|].
             apply list_elem_of_singleton in H. discriminate. }
           apply NoDup_cons. split; [|apply NoDup_singleton].
           intros H. apply list_elem_of_singleton in H. discriminate.
        -- intros e He. apply elem_of_cons in He as [->|He].
           { exists 1, 3. split; [reflexivity|]. split; by repeat constructor. }
           apply list_elem_of_singleton in He as ->.
           exists 3, 2. split; [reflexivity|]. split; by repeat constructor.
        -- right. intros v Hv. apply elem_of_cons in Hv as [->|Hv].
           { exists 1, 1, 3. split; [by repeat constructor|].
             split; [reflexivity | by left]. }
           apply elem_of_cons in Hv as [->|Hv].
           { exists 2, 3, 2. split; [by repeat constructor|].
             split; [reflexivity | by right]. }
           apply list_elem_of_singleton in Hv as ->.
           exists 1, 1, 3. split; [by repeat constructor|].
           split; [reflexivity | by right].
      * intros [H _]. discriminate.
Defined.

(** ** The textual description *)

Lemma to_csv_unfold (header : list string) (records : list (list string)) :
  to_csv header records
  = csv_line header +:+ String.concat "" (csv_line <$> records).
Proof.
  unfold to_csv. rewrite fmap_cons.
  destruct (csv_line <$> records) as [|l ls]; simpl.
  - by rewrite append_nil_r.
  - done.
Qed.




(** ** The [num_nodes] attribute of the output *)

Lemma NoDup_subset_length (l k : list nat) :
  NoDup l → (∀ v, v ∈ l → v ∈ k) → length l ≤ length k.
Proof.
  intros Hnd Hsub. apply submseteq_length. by apply NoDup_submseteq.
Qed.

(** C10.  The [num_nodes] attribute of the output is the number of
    vertices of the solver's answer that are nodes of the graph (ids
    below its node count [graph_nodes]), while [x] has one
    row per final node.  When the answer is a tree of the reduced
    instance and the union with the endpoints of the final edges adds a
    node that the solver did not select, [num_nodes] is strictly
    smaller than the number of rows of [x] and than the number of
    distinct compact ids in [edge_index]. *)
Theorem output_num_nodes (graph_nodes : nat) (cost_e : Q)
    (e_idx : list (nat * nat)) (e_prizes : list Q) (r : reduction)
    (vertices edges : list nat) (node_feat e_attr : list (list Q))
    (textual_nodes : list node_row) (textual_edges : list edge_row) :
  virtual_node_reduction graph_nodes cost_e e_idx e_prizes = inr r →
  Forall (λ v, v < graph_nodes + length (virtual_n_prizes r)) vertices →
  well_formed graph_nodes e_idx node_feat e_attr textual_nodes textual_edges →
  ∃ rc data desc,
    reconstruct graph_nodes e_idx r vertices edges = inr rc
    ∧ build_output node_feat e_attr textual_nodes textual_edges rc
      = inr (data, desc)
    ∧ num_nodes data = length (filter (λ v, v < graph_nodes) vertices)
    ∧ length (x data) = length (new_selected_nodes rc)
    ∧ (tree_selection r vertices edges →
       (∃ v, v ∈ new_selected_nodes rc ∧ v ∉ selected_nodes rc) →
       num_nodes data < length (x data)
       ∧ num_nodes data < length (distinct_ids (edge_index data))).
Proof.
  intros Hred Hrange Hwf.
  pose proof (virtual_node_reduction_inr_inv _ _ _ _ _ Hred) as Hinv.
  destruct (reconstruct_spec _ _ _ _ _ vertices edges Hinv Hrange)
    as (sel_e & virt_e & ei & Hsel & Hvirt & Hei & Hrc1).
  destruct (reconstruct_build_output graph_nodes cost_e e_idx e_prizes r
              vertices edges node_feat e_attr textual_nodes textual_edges
              Hred Hrange Hwf)
    as (rc & n & e & xs & eattr & src & dst & Hrc & Hout & Hn & He & Hxs
        & Heattr & Hsrc & Hdst & Hnd & Hselq & HeiF & Hmem).
  eexists rc, _, _. split; [exact Hrc|]. split; [exact Hout|].
  rewrite Hrc in Hrc1. injection Hrc1 as ->. simpl in *.
  set (selected := filter (λ v, v < graph_nodes) vertices) in *.
  set (nodes := np_unique (selected ++ ei.*1 ++ ei.*2)) in *.
  assert (Hlx : length xs = length nodes).
  { apply take_rows_Forall2, Forall2_length in Hxs. lia. }
  split_and!; try done.
  intros (Hvnd & Hedges & Htree) (w & Hw & Hnw).
  assert (Hlt : length selected < length nodes).
  { assert (length (w :: selected) ≤ length nodes); [|simpl in *; lia].
    apply NoDup_subset_length.
    - apply NoDup_cons. split; [done|]. by apply NoDup_filter.
    - intros v Hv. apply elem_of_cons in Hv as [->|Hv]; [done|].
      apply Hmem. by left. }
  split; [lia|].
  assert (Hw' : ∃ s d, (s, d) ∈ ei ∧ (w = s ∨ w = d)).
  { apply Hmem in Hw as [Hw|Hw]; [done | exact Hw]. }
  assert (Hall : ∀ v, v ∈ nodes → ∃ s d, (s, d) ∈ ei ∧ (v = s ∨ v = d)).
  { intros v Hv. apply Hmem in Hv as [Hv|Hv]; [|exact Hv].
    apply list_elem_of_filter in Hv as [Hvlt Hv].
    destruct Htree as [[-> Hone] | Hcov].
    - exfalso. destruct vertices as [|v' [|? ?]]; [| |simpl in Hone; lia].
      + by apply elem_of_nil in Hv.
      + apply list_elem_of_singleton in Hv as <-.
        assert (selected = [v]) as Hs.
        { unfold selected. by rewrite filter_cons_True. }
        rewrite filter_cons_False in Hvirt by lia.
        simpl in Hsel, Hvirt. injection Hsel as <-. injection Hvirt as <-.
        simpl in Hei. injection Hei as <-.
        destruct Hw' as (s & d & Hsd & _). by apply elem_of_nil in Hsd.
    - destruct (Hcov v Hv) as (e' & a & b & He' & Hab & Hvab).
      destruct (Hedges e' He') as (a' & b' & Hab' & Ha & Hb).
      rewrite Hab in Hab'. injection Hab' as <- <-.
      by eapply (incident_edge_final graph_nodes cost_e e_idx e_prizes r
                   vertices edges sel_e virt_e ei e' a b v). }
  pose proof (compact_ids_spec _ _ _ _ Hnd Hsrc Hdst) as Hids.
  assert (length nodes ≤ length (distinct_ids (zip src dst))); [|lia].
  replace (length nodes) with (length (seq 0 (length nodes)))
    by apply length_seq.
  apply NoDup_subset_length.
  - apply NoDup_seq.
  - intros i Hi. apply elem_of_seq in Hi as [_ Hi]. simpl in Hi.
    unfold distinct_ids. apply elem_of_remove_dups, Hids.
    destruct (lookup_lt_is_Some_2 nodes i Hi) as [v Hv].
    destruct (Hall v) as (s & d & Hsd & Hvsd);
      [by eapply list_elem_of_lookup_2|].
    by exists v, s, d.
Qed.

(** The solver selects node 1 and the virtual node 3, joined by the
    instance edge 1: node 2 comes in as an endpoint, and [num_nodes] is 1
    against two rows and two compact ids. *)
Lemma output_num_nodes_witness :
  ∃ rc data desc,
    reconstruct 3 sample_e_idx sample_reduction [1; 3] [1] = inr rc
    ∧ build_output sample_node_feat sample_e_attr sample_textual_nodes
        sample_textual_edges rc = inr (data, desc)
    ∧ num_nodes data = 1
    ∧ num_nodes data < length (x data)
    ∧ num_nodes data < length (distinct_ids (edge_index data)).
Proof.
  destruct (output_num_nodes 3 (1 # 2) sample_e_idx sample_e_prizes
              sample_reduction [1; 3] [1] sample_node_feat sample_e_attr
              sample_textual_nodes sample_textual_edges)
    as (rc & data & desc & Hrc & Hout & Hnum & _ & Hlt).
  - reflexivity.
  - repeat constructor.
  - unfold well_formed. split_and!; try reflexivity.
    repeat constructor.
  - exists rc, data, desc. split; [exact Hrc|]. split; [exact Hout|].
    split; [exact Hnum|]. apply Hlt.
    + split_and!.
      * apply NoDup_cons. split; [|apply NoDup_singleton].
        intros H. apply list_elem_of_singleton in H. discriminate.
      * intros e He. apply list_elem_of_singleton in He as ->.
        exists 1, 3. split; [reflexivity|]. split; by repeat constructor.
      * right. intros v Hv. exists 1, 1, 3.
        split; [by repeat constructor|]. split; [reflexivity|].
        apply elem_of_cons in Hv as [->|Hv]; [by left|].
        apply list_elem_of_singleton in Hv as ->. by right.
    + vm_compute in Hrc. injection Hrc as <-. exists 2. simpl. split.
      * by repeat constructor.
      * intros H. apply list_elem_of_singleton in H. discriminate.
Defined.

(** ** Edge prizes *)

(** On distinct positive similarities with one tie the loop computes the
    expected prizes: [199/100] for the top edge, [1/2] for the two edges
    of the second tier, 0 below. *)
Example edge_prizes_agree_without_collision :
  edge_prize_assignment dot topk_stable 2 sample_q_emb
    [[4 # 5; 3 # 5]; [3 # 5; 4 # 5]; [3 # 5; -4 # 5]; [0; 1]]%Q 4
  = inr (expected_edge_prizes 2
           (dot sample_q_emb
              <$> [[4 # 5; 3 # 5]; [3 # 5; 4 # 5]; [3 # 5; -4 # 5]; [0; 1]]%Q)).
Proof. by vm_compute. Qed.

(** C2.  The similarities are [0], [-3/5] and [-1] and [topk_e = 2], so
    the tiers are [0] and [-3/5], and edge 2 lies below the last tier.
    The code first writes 0 to edge 2, and the loop then compares the
    written prizes, not the similarities, with the tier value [0]: edge 2
    joins the first tier.  It gets the prize 1 where 0 is expected, and
    the first tier is divided among two edges, so edge 0 gets 1 instead
    of [199/100] and edge 1 gets [99/100] instead of 1. *)
Theorem edge_prizes_reread_written_values :
  (dot sample_q_emb <$> signed_e_attr) = [0; -15 # 25; -1]%Q
  ∧ edge_prize_assignment dot topk_stable 2 sample_q_emb signed_e_attr 3
    = inr [2 # 2; 198 # 200; 2 # 2]%Q
  ∧ expected_edge_prizes 2 (dot sample_q_emb <$> signed_e_attr)
    = [199 # 100; 1; 0]%Q
  ∧ ¬ (2 # 2 == 0)%Q.
Proof. split_and!; try by vm_compute. Qed.

(** * Properties of the rest of the dataset module *)

(** ** The splits of [download] *)

Lemma arange_from_lookup (k n j i : nat) :
  arange_from k n !! j = Some i ↔ i = j + k ∧ j < n.
Proof.
  unfold arange_from. rewrite list_lookup_fmap. split.
  - intros H. destruct (seq 0 n !! j) as [j'|] eqn:E; [|discriminate].
    apply lookup_seq in E as [-> ?]. injection H as <-. simpl. lia.
  - intros [-> Hj]. by rewrite lookup_seq_lt.
Qed.

Lemma arange_from_seq (k n : nat) : arange_from k n = seq k n.
Proof.
  apply list_eq. intros j. destruct (decide (j < n)) as [Hj|Hj].
  - rewrite lookup_seq_lt by done.
    apply arange_from_lookup. split; [lia | done].
  - rewrite (lookup_ge_None_2 (seq k n)) by (rewrite length_seq; lia).
    apply lookup_ge_None_2. unfold arange_from.
    rewrite length_fmap, length_seq. lia.
Qed.

(** X1.  The three index tensors of [download], one after the other, are
    [0, 1, ..., len(raw_dataset) - 1]: the splits are disjoint, in order
    and cover the concatenated dataset; and the [j]-th index of a split
    points at the [j]-th example of that split. *)
Theorem download_splits {A} (dataset : dataset_dict A) :
  idx_train (download dataset).2 ++ idx_val (download dataset).2
    ++ idx_test (download dataset).2
  = seq 0 (length (download dataset).1)
  ∧ (∀ j i, idx_train (download dataset).2 !! j = Some i →
            (download dataset).1 !! i = ds_train dataset !! j)
  ∧ (∀ j i, idx_val (download dataset).2 !! j = Some i →
            (download dataset).1 !! i = ds_validation dataset !! j)
  ∧ (∀ j i, idx_test (download dataset).2 !! j = Some i →
            (download dataset).1 !! i = ds_test dataset !! j).
Proof.
  unfold download. simpl. split_and!.
  - by rewrite !arange_from_seq, !length_app, !seq_app.
  - intros j i Hj. apply arange_from_lookup in Hj as [-> Hj].
    rewrite Nat.add_0_r. by rewrite lookup_app_l.
  - intros j i Hj. apply arange_from_lookup in Hj as [-> Hj].
    rewrite lookup_app_r by lia.
    replace (j + length (ds_train dataset) - length (ds_train dataset))
      with j by lia.
    by rewrite lookup_app_l.
  - intros j i Hj. apply arange_from_lookup in Hj as [-> Hj].
    rewrite lookup_app_r by lia. rewrite lookup_app_r by lia.
    f_equal. lia.
Qed.

(** ** The graph builder *)

Lemma first_seen_snoc (l : list string) (k : string) :
  first_seen (l ++ [k])
  = if decide (k ∈ l) then first_seen l else first_seen l ++ [k].
Proof.
  unfold first_seen. rewrite reverse_snoc. simpl.
  destruct (decide_rel elem_of k (reverse l)) as [Hin|Hni];
    rewrite elem_of_reverse in *.
  - by rewrite decide_True.
  - rewrite decide_False by done. by rewrite reverse_cons.
Qed.

Lemma elem_of_first_seen (l : list string) (k : string) :
  k ∈ first_seen l ↔ k ∈ l.
Proof.
  unfold first_seen. by rewrite elem_of_reverse, elem_of_remove_dups, elem_of_reverse.
Qed.

Lemma NoDup_first_seen (l : list string) : NoDup (first_seen l).
Proof.
  unfold first_seen. rewrite reverse_Permutation. apply NoDup_remove_dups.
Qed.

Lemma raw_nodes_lookup_Some (raw_nodes : list (string * nat))
    (seen : list string) (k : string) (v : nat) :
  raw_nodes_inv raw_nodes seen →
  raw_nodes_lookup raw_nodes k = Some v ↔ raw_nodes.*1 !! v = Some k.
Proof.
  intros [Hkeys Hval]. unfold raw_nodes_lookup. split.
  - intros H.
    destruct (list_find _ raw_nodes) as [[i item]|] eqn:E; [|discriminate].
    simpl in H. injection H as <-.
    apply list_find_Some in E as (Hi & Hk & _).
    rewrite list_lookup_fmap, (Hval _ _ Hi), Hi. simpl. by rewrite Hk.
  - intros H. rewrite list_lookup_fmap in H.
    destruct (raw_nodes !! v) as [item|] eqn:Hi; [|discriminate].
    injection H as Hk.
    destruct (list_find (λ item, item.1 = k) raw_nodes) as [[j item']|] eqn:E.
    + apply list_find_Some in E as (Hj & Hk' & _). simpl.
      assert (j = v) as ->; [|by rewrite (Hval _ _ Hj)].
      eapply (NoDup_lookup raw_nodes.*1); [rewrite Hkeys; apply NoDup_first_seen|..].
      * by rewrite list_lookup_fmap, Hj; simpl; rewrite Hk'.
      * by rewrite list_lookup_fmap, Hi; simpl; rewrite Hk.
    + apply list_find_None in E. rewrite Forall_forall in E.
      exfalso. apply (E item); [by eapply list_elem_of_lookup_2 | done].
Qed.

Lemma raw_nodes_lookup_None (raw_nodes : list (string * nat)) (k : string) :
  raw_nodes_lookup raw_nodes k = None ↔ k ∉ raw_nodes.*1.
Proof.
  unfold raw_nodes_lookup. rewrite fmap_None, list_find_None, Forall_forall.
  rewrite list_elem_of_fmap. split.
  - intros H ([k' v] & -> & Hin). by apply (H _ Hin).
  - intros H item Hin Hk. apply H. by exists item.
Qed.

Lemma add_node_inv (raw_nodes : list (string * nat)) (seen : list string)
    (k : string) :
  raw_nodes_inv raw_nodes seen →
  raw_nodes_inv (add_node k raw_nodes) (seen ++ [k])
  ∧ ∃ extra, add_node k raw_nodes = raw_nodes ++ extra.
Proof.
  intros Hinv. pose proof Hinv as [Hkeys Hval]. unfold add_node.
  destruct (raw_nodes_lookup raw_nodes k) as [v|] eqn:E.
  - split; [|exists []; by rewrite app_nil_r].
    split; [|done]. rewrite first_seen_snoc, decide_True; [done|].
    apply (raw_nodes_lookup_Some _ _ _ _ Hinv) in E.
    apply elem_of_first_seen. rewrite <- Hkeys. by eapply list_elem_of_lookup_2.
  - split; [|by eexists]. apply raw_nodes_lookup_None in E. split.
    + rewrite fmap_app, first_seen_snoc, decide_False, Hkeys; [done|].
      by rewrite <- elem_of_first_seen, <- Hkeys.
    + intros i item Hi. apply lookup_app_Some in Hi as [Hi|[Hge Hi]].
      * by apply Hval.
      * apply list_lookup_singleton_Some in Hi as [Hz <-]. simpl. lia.
Qed.

Lemma add_node_get (raw_nodes : list (string * nat)) (seen : list string)
    (k : string) :
  raw_nodes_inv raw_nodes seen → k ∈ seen →
  ∃ v, raw_nodes_get raw_nodes k = inr v ∧ raw_nodes.*1 !! v = Some k.
Proof.
  intros Hinv Hk. pose proof Hinv as [Hkeys _].
  assert (k ∈ raw_nodes.*1) as Hin by (by rewrite Hkeys, elem_of_first_seen).
  apply list_elem_of_lookup in Hin as [v Hv]. exists v. split; [|done].
  unfold raw_nodes_get.
  by rewrite (proj2 (raw_nodes_lookup_Some _ _ _ _ Hinv) Hv).
Qed.

Lemma triple_loop_spec (lower : string → string)
    (graph : list (string * string * string)) :
  ∀ (raw_nodes : list (string * nat)) (raw_edges : list edge_row)
    (seen : list string),
    raw_nodes_inv raw_nodes seen →
    ∃ raw_nodes' new_edges,
      triple_loop lower graph (raw_nodes, raw_edges)
        = inr (raw_nodes', raw_edges ++ new_edges)
      ∧ raw_nodes_inv raw_nodes' (seen ++ mentions lower graph)
      ∧ (∃ extra, raw_nodes' = raw_nodes ++ extra)
      ∧ Forall2 (λ tri row,
                   e_edge_attr row = tri.1.2
                   ∧ raw_nodes'.*1 !! e_src row = Some (lower tri.1.1)
                   ∧ raw_nodes'.*1 !! e_dst row = Some (lower tri.2))
                graph new_edges.
Proof.
  induction graph as [|[[h r] t] graph IH]; intros raw_nodes raw_edges seen Hinv.
  - exists raw_nodes, []. simpl. rewrite !app_nil_r.
    split_and!; [done | done | by exists [] ; rewrite app_nil_r | constructor].
  - destruct (add_node_inv raw_nodes seen (lower h) Hinv) as [Hinv1 [ex1 Hex1]].
    destruct (add_node_inv _ _ (lower t) Hinv1) as [Hinv2 [ex2 Hex2]].
    set (rn2 := add_node (lower t) (add_node (lower h) raw_nodes)) in *.
    destruct (add_node_get rn2 _ (lower h) Hinv2) as (src & Hsrc & Hks).
    { rewrite !elem_of_app, !list_elem_of_singleton. auto. }
    destruct (add_node_get rn2 _ (lower t) Hinv2) as (dst & Hdst & Hkd).
    { rewrite !elem_of_app, !list_elem_of_singleton. auto. }
    destruct (IH rn2
                (raw_edges ++ [{| e_src := src; e_edge_attr := r; e_dst := dst |}])
                _ Hinv2)
      as (rn' & new_edges & Hloop & Hinv' & [ex3 Hex3] & HF).
    exists rn', ({| e_src := src; e_edge_attr := r; e_dst := dst |} :: new_edges).
    split_and!.
    + simpl. fold rn2. rewrite Hsrc. simpl. rewrite Hdst. simpl.
      rewrite Hloop. by rewrite <- app_assoc.
    + unfold mentions in *. simpl. by rewrite <- !app_assoc in Hinv'.
    + exists (ex1 ++ ex2 ++ ex3). rewrite Hex3, Hex2, Hex1.
      by rewrite <- !app_assoc.
    + constructor; [|done]. simpl. rewrite Hex3, fmap_app.
      split_and!; [done | by apply lookup_app_l_Some..].
Qed.

(** X2.  The graph builder never raises; the node table lists the
    lower-cased entity strings of the triples once each, in the order of
    their first occurrence, and the [node_id] of a row is its position, so
    the ids are [0 .. n-1]. *)
Theorem build_tables_nodes (lower : string → string)
    (graph : list (string * string * string)) :
  ∃ nodes edges,
    build_tables lower graph = inr (nodes, edges)
    ∧ n_node_attr <$> nodes = first_seen (mentions lower graph)
    ∧ NoDup (n_node_attr <$> nodes)
    ∧ (∀ i row, nodes !! i = Some row → n_node_id row = i).
Proof.
  destruct (triple_loop_spec lower graph [] [] [])
    as (rn & edges & Hloop & [Hkeys Hval] & _ & _).
  { split; [done|]. intros i item. by rewrite lookup_nil. }
  eexists _, edges. unfold build_tables. rewrite Hloop. simpl.
  split; [done|].
  assert (Hattr : n_node_attr <$> ((λ item : string * nat,
            {| n_node_id := item.2; n_node_attr := item.1 |}) <$> rn)
          = first_seen (mentions lower graph)).
  { rewrite <- list_fmap_compose. simpl in Hkeys. rewrite <- Hkeys.
    by apply list_fmap_ext. }
  split_and!; [done | rewrite Hattr; apply NoDup_first_seen |].
  intros i row Hrow. rewrite list_lookup_fmap in Hrow.
  destruct (rn !! i) as [item|] eqn:Hi; [|discriminate].
  injection Hrow as <-. simpl. by apply Hval.
Qed.

(** X3.  The edge table has one row per triple, in the order of the
    triples (parallel and repeated triples are all kept); the row of the
    triple [(h, r, t)] carries the relation [r], and its [src] and [dst]
    are positions of the node table whose entries are [lower h] and
    [lower t], so every endpoint is a node of the table. *)
Theorem build_tables_edges (lower : string → string)
    (graph : list (string * string * string)) :
  ∃ nodes edges,
    build_tables lower graph = inr (nodes, edges)
    ∧ length edges = length graph
    ∧ Forall2 (λ tri row,
                 e_edge_attr row = tri.1.2
                 ∧ n_node_attr <$> nodes !! e_src row = Some (lower tri.1.1)
                 ∧ n_node_attr <$> nodes !! e_dst row = Some (lower tri.2))
              graph edges
    ∧ Forall (λ row, e_src row < length nodes ∧ e_dst row < length nodes)
             edges.
Proof.
  destruct (triple_loop_spec lower graph [] [] [])
    as (rn & edges & Hloop & _ & _ & HF).
  { split; [done|]. intros i item. by rewrite lookup_nil. }
  eexists _, edges. unfold build_tables. rewrite Hloop. simpl.
  split; [done|].
  assert (Hrow : ∀ i k, rn.*1 !! i = Some k →
            n_node_attr <$> ((λ item : string * nat,
              {| n_node_id := item.2; n_node_attr := item.1 |}) <$> rn) !! i
            = Some k).
  { intros i k. rewrite !list_lookup_fmap.
    destruct (rn !! i) as [item|]; simpl; [by intros [= <-] | done]. }
  assert (HF' : Forall2 (λ tri row,
                 e_edge_attr row = tri.1.2
                 ∧ n_node_attr <$> ((λ item : string * nat,
                     {| n_node_id := item.2; n_node_attr := item.1 |}) <$> rn)
                     !! e_src row = Some (lower tri.1.1)
                 ∧ n_node_attr <$> ((λ item : string * nat,
                     {| n_node_id := item.2; n_node_attr := item.1 |}) <$> rn)
                     !! e_dst row = Some (lower tri.2)) graph edges).
  { eapply Forall2_impl; [exact HF|]. intros tri row (H1 & H2 & H3).
    split_and!; [done | by apply Hrow..]. }
  split_and!; [symmetry; by eapply Forall2_length | done |].
  apply Forall_forall. intros row Hin.
  apply list_elem_of_lookup in Hin as [k Hk].
  destruct (Forall2_lookup_r _ _ _ _ _ HF' Hk) as (tri & _ & _ & Hs & Hd).
  rewrite <- list_lookup_fmap in Hs, Hd.
  apply lookup_lt_Some in Hs, Hd. rewrite length_fmap in Hs, Hd. done.
Qed.

(** ** Embedding an empty list and processing *)

(** X4.  When the tokenizer returns no rows (as for an empty list of
    texts), no batch is produced, [torch.cat] of the empty list raises,
    and the function returns [torch.zeros((0, 1024))], whatever the
    model is. *)
Theorem sbert_no_rows (tokenizer : list string → result encoding)
    (model : batch → result matrix) (text : list string) (enc : encoding) :
  tokenizer text = inr enc → input_ids enc = [] →
  sbert_text2embedding tokenizer model text = torch_zeros 0 1024.
Proof.
  intros Htok Hids. unfold sbert_text2embedding, embed_batches.
  rewrite Htok. simpl. unfold DataLoader, Dataset_len. simpl.
  by rewrite Hids.
Qed.

Lemma sbert_no_rows_witness :
  sbert_text2embedding length_tokenizer first_token_model []
  = torch_zeros 0 1024.
Proof.
  by apply (sbert_no_rows length_tokenizer first_token_model []
              {| input_ids := []; attention_mask := [] |}).
Defined.

Lemma build_tables_total (lower : string → string)
    (graph : list (string * string * string)) :
  ∃ nodes edges, build_tables lower graph = inr (nodes, edges).
Proof.
  destruct (triple_loop_spec lower graph [] [] [])
    as (rn & edges & Hloop & _).
  { split; [done|]. intros i item. by rewrite lookup_nil. }
  eexists _, edges. unfold build_tables. by rewrite Hloop.
Qed.

(** X5.  [process] has no fallback for a failed question embedding: the
    embedding wrapper then returns a tensor without rows, and on a
    non-empty dataset the first graph is built and [q_embs[0]] raises
    [IndexError]. *)
Theorem process_without_question_embedding
    (lower : string → string)
    (tokenizer : list string → result encoding)
    (model : batch → result matrix)
    (CosineSimilarity : list Q → list Q → Q)
    (torch_topk : list Q → nat → result (list Q * list nat))
    (pcst_fast : list (nat * nat) → list Q → list Q → Z → nat → string → nat →
                 result (list nat * list nat))
    (raw_dataset : list raw_example) (e : exn) :
  embed_batches tokenizer model (ex_question <$> raw_dataset) = inl e →
  raw_dataset ≠ [] →
  process lower tokenizer model CosineSimilarity torch_topk pcst_fast
    raw_dataset = inl (IndexError 0).
Proof.
  intros Hfail Hne. destruct raw_dataset as [|d rest]; [done|].
  unfold process, text2embedding, sbert_text2embedding.
  rewrite Hfail. simpl. unfold process_item at 1.
  destruct (build_tables_total lower (ex_graph d)) as (nodes & edges & ->).
  done.
Qed.

Lemma process_without_question_embedding_witness :
  process (λ s, s) failing_tokenizer first_token_model dot topk_stable
    failing_solver
    [ {| ex_question := "capital of france?"; ex_answer := ["paris"];
         ex_graph := [("Paris", "capital_of", "France")] |} ]
  = inl (IndexError 0).
Proof.
  by apply (process_without_question_embedding (λ s, s) failing_tokenizer
              first_token_model dot topk_stable failing_solver _
              (RuntimeError "tokenizer")).
Defined.

(** X6.  An example whose graph has no triples is processed without
    prizes, reduction or solver: the graph that comes out has no node
    and no edge, its features are what the embedding wrapper returns for
    the empty list, and its description is the two header lines. *)
Theorem process_item_without_triples
    (lower : string → string)
    (tokenizer : list string → result encoding)
    (model : batch → result matrix)
    (CosineSimilarity : list Q → list Q → Q)
    (torch_topk : list Q → nat → result (list Q * list nat))
    (pcst_fast : list (nat * nat) → list Q → list Q → Z → nat → string → nat →
                 result (list nat * list nat))
    (q_embs : matrix) (index : nat) (data_i : raw_example) (q_emb : list Q) :
  ex_graph data_i = [] →
  rows q_embs !! index = Some q_emb →
  process_item lower tokenizer model CosineSimilarity torch_topk pcst_fast
    q_embs index data_i
  = inr {| pg_data :=
             {| x := rows (sbert_text2embedding tokenizer model []);
                edge_index := [];
                edge_attr := rows (sbert_text2embedding tokenizer model []);
                num_nodes := 0 |};
           pg_question :=
             "Question: " +:+ ex_question data_i +:+ newline +:+ "Answer: ";
           pg_label := lower (join "|" (ex_answer data_i));
           pg_desc := "node_id,node_attr" +:+ newline +:+ newline
                      +:+ "src,edge_attr,dst" +:+ newline |}.
Proof.
  intros Hg Hq. unfold process_item. rewrite Hg. simpl.
  unfold getitem. rewrite Hq. by simpl.
Qed.

Lemma process_item_without_triples_witness :
  process_item (λ s, s) length_tokenizer first_token_model dot topk_stable
    failing_solver {| rows := [[1; 0]]%Q; ncols := 2 |} 0
    {| ex_question := "who?"; ex_answer := ["A"; "b"]; ex_graph := [] |}
  = inr {| pg_data := {| x := []; edge_index := []; edge_attr := [];
                         num_nodes := 0 |};
           pg_question := "Question: who?" +:+ newline +:+ "Answer: ";
           pg_label := "A|b";
           pg_desc := "node_id,node_attr" +:+ newline +:+ newline
                      +:+ "src,edge_attr,dst" +:+ newline |}.
Proof.
  by apply (process_item_without_triples (λ s, s) length_tokenizer
              first_token_model dot topk_stable failing_solver
              {| rows := [[1; 0]]%Q; ncols := 2 |} 0
              {| ex_question := "who?"; ex_answer := ["A"; "b"];
                 ex_graph := [] |} [1; 0]%Q).
Defined.

(** X7.  The graph that [process] hands to the retrieval is well formed
    whenever the embeddings have one row per node and per edge: the
    tables and features have matching sizes, every endpoint of
    [edge_index] is a node, and the edge table lists the endpoints of
    [edge_index] row by row. *)
Theorem build_tables_well_formed (lower : string → string)
    (graph : list (string * string * string))
    (node_feat e_attr : list (list Q)) :
  ∃ nodes edges,
    build_tables lower graph = inr (nodes, edges)
    ∧ (length node_feat = length nodes → length e_attr = length edges →
       well_formed (length nodes) ((λ row, (e_src row, e_dst row)) <$> edges)
                   node_feat e_attr nodes edges
       ∧ Forall2 (λ row col, e_src row = col.1 ∧ e_dst row = col.2)
                 edges ((λ row, (e_src row, e_dst row)) <$> edges)).
Proof.
  destruct (triple_loop_spec lower graph [] [] [])
    as (rn & edges & Hloop & _ & _ & HF).
  { split; [done|]. intros i item. by rewrite lookup_nil. }
  eexists _, edges. unfold build_tables. rewrite Hloop. simpl.
  split; [done|]. intros Hn He. split.
  - rewrite length_fmap in Hn. unfold well_formed. rewrite !length_fmap.
    split_and!; try done.
    apply Forall_fmap, Forall_forall. intros row Hin. simpl.
    apply list_elem_of_lookup in Hin as [k Hk].
    destruct (Forall2_lookup_r _ _ _ _ _ HF Hk) as (tri & _ & _ & Hs & Hd).
    apply lookup_lt_Some in Hs, Hd. rewrite length_fmap in Hs, Hd. done.
  - apply Forall2_fmap_r, Forall_Forall2_diag, Forall_forall. by intros.
Qed.

Lemma build_tables_well_formed_witness :
  ∃ nodes edges,
    build_tables (λ s, s)
      [("paris", "capital_of", "france"); ("france", "in", "europe")]
    = inr (nodes, edges)
    ∧ well_formed (length nodes) ((λ row, (e_src row, e_dst row)) <$> edges)
        sample_node_feat sample_e_attr nodes edges.
Proof.
  destruct (build_tables_well_formed (λ s, s)
              [("paris", "capital_of", "france"); ("france", "in", "europe")]
              sample_node_feat sample_e_attr)
    as (nodes & edges & Hb & Hwf).
  exists nodes, edges. split; [exact Hb|].
  vm_compute in Hb. injection Hb as <- <-.
  by apply Hwf.
Defined.

(** ** The instance handed to the solver *)

Lemma reduction_signs_result (num_nodes : nat) (cost_e : Q)
    (e_idx : list (nat * nat)) (e_prizes : list Q) (r : reduction) :
  virtual_node_reduction num_nodes cost_e e_idx e_prizes = inr r →
  reduction_signs r.
Proof.
  intros Hr.
  destruct (reduction_loop_invariant (λ _ st, reduction_signs st)
              num_nodes cost_e e_prizes e_idx 0 reduction_init)
    as (r' & Hr' & Hs).
  - apply reduction_loop_covered in Hr as [-> | Hr]; simpl in *; lia.
  - by repeat split.
  - intros j s d p st _ _ (H1 & H2 & H3). unfold reduction_step.
    destruct (Qle_bool p cost_e) eqn:Hc; split_and!; reduction_fields;
      try done.
    + apply Forall_app. split; [done|]. apply Forall_singleton.
      apply Qle_bool_iff in Hc. lra.
    + apply Forall_app. split; [done|]. apply Forall_singleton.
      assert (¬ (p <= cost_e)%Q) as Hn.
      { intros Hle. apply Qle_bool_iff in Hle. congruence. }
      apply Qnot_le_lt in Hn. lra.
    + apply Forall_app. split; [done|]. by repeat constructor.
  - unfold virtual_node_reduction in Hr. rewrite Hr in Hr'.
    by injection Hr' as <-.
Qed.

Lemma pcst_costs_app (num_nodes : nat) (cost_e : Q)
    (e_idx : list (nat * nat)) (e_prizes : list Q) (n : nat) (r : reduction) :
  reduction_inv num_nodes cost_e e_idx e_prizes n r →
  pcst_costs r = cost_list r ++ virtual_costs r.
Proof.
  intros _. unfold pcst_costs.
  destruct (0 <? length (virtual_costs r)) eqn:H; [done|].
  apply Nat.ltb_ge in H.
  destruct (virtual_costs r); [by rewrite app_nil_r | simpl in *; lia].
Qed.

(** X8.  The instance that the retrieval hands to the solver is a
    well-formed prize-collecting instance: one cost per edge, no
    negative cost, a positive prize for every virtual node, one prize per
    vertex (the real nodes followed by the virtual ones), and both
    endpoints of every edge indexing the prize vector. *)
Theorem reduced_instance_well_formed (num_nodes : nat) (cost_e : Q)
    (e_idx : list (nat * nat)) (e_prizes n_prizes : list Q) (r : reduction) :
  virtual_node_reduction num_nodes cost_e e_idx e_prizes = inr r →
  Forall (λ col, col.1 < num_nodes ∧ col.2 < num_nodes) e_idx →
  length n_prizes = num_nodes →
  length (pcst_costs r) = length (pcst_edges r)
  ∧ Forall (λ q, (0 <= q)%Q) (pcst_costs r)
  ∧ Forall (λ q, (0 < q)%Q) (virtual_n_prizes r)
  ∧ length (pcst_prizes n_prizes r) = num_nodes + length (virtual_n_prizes r)
  ∧ Forall (λ col, col.1 < length (pcst_prizes n_prizes r)
                   ∧ col.2 < length (pcst_prizes n_prizes r))
           (pcst_edges r).
Proof.
  intros Hr Hcols Hn.
  pose proof (reduction_signs_result _ _ _ _ _ Hr) as (S1 & S2 & S3).
  pose proof (virtual_node_reduction_inr_inv _ _ _ _ _ Hr) as Hinv.
  rewrite (pcst_costs_app _ _ _ _ _ _ Hinv), (pcst_edges_app _ _ _ _ _ _ Hinv).
  destruct Hinv as ((L1 & L2 & L3 & L4 & L5 & M1 & M2) & (O1 & O2 & O3 & O4) & _).
  assert (Hlp : length (pcst_prizes n_prizes r)
                = num_nodes + length (virtual_n_prizes r)).
  { unfold pcst_prizes. rewrite length_app. lia. }
  split_and!; try done.
  - rewrite !length_app. lia.
  - apply Forall_app. split; [done|].
    eapply Forall_impl; [exact S3|]. intros q ->. lra.
  - rewrite Hlp. apply Forall_app. split; apply Forall_forall;
      intros [a b] Hin; apply list_elem_of_lookup in Hin as [k Hk]; simpl.
    + destruct (O3 _ _ _ Hk) as (i & _ & Hi).
      rewrite Forall_forall in Hcols.
      destruct (Hcols (a, b)) as [Ha Hb]; [by eapply list_elem_of_lookup_2|].
      simpl in *. lia.
    + destruct (O4 _ _ _ Hk) as (i & s & d & Hm & Hi & Hab).
      pose proof (proj1 (M2 _) (mk_is_Some _ _ Hm)) as Hv.
      rewrite Forall_forall in Hcols.
      destruct (Hcols (s, d)) as [Hs Hd]; [by eapply list_elem_of_lookup_2|].
      simpl in *. destruct Hab as [[= -> ->] | [= -> ->]]; lia.
Qed.

Lemma reduced_instance_well_formed_witness :
  length (pcst_costs sample_reduction) = length (pcst_edges sample_reduction)
  ∧ Forall (λ q, (0 <= q)%Q) (pcst_costs sample_reduction)
  ∧ Forall (λ q, (0 < q)%Q) (virtual_n_prizes sample_reduction)
  ∧ length (pcst_prizes [0; 0; 1]%Q sample_reduction) = 3 + 1.
Proof.
  destruct (reduced_instance_well_formed 3 (1 # 2) sample_e_idx
              sample_e_prizes [0; 0; 1]%Q sample_reduction)
    as (H1 & H2 & H3 & H4 & _).
  - reflexivity.
  - repeat constructor.
  - reflexivity.
  - by split_and!.
Defined.

Lemma kept_before_all (cost_e : Q) (e_prizes : list Q) (n : nat) :
  Forall (λ p, (p <= cost_e)%Q) e_prizes → n ≤ length e_prizes →
  kept_before cost_e e_prizes n = n ∧ virtual_before cost_e e_prizes n = 0.
Proof.
  intros Hall. induction n as [|n IH]; intros Hn; [done|].
  destruct (lookup_lt_is_Some_2 e_prizes n ltac:(lia)) as [p Hp].
  rewrite (kept_before_S _ _ _ _ Hp), (virtual_before_S _ _ _ _ Hp).
  destruct (IH ltac:(lia)) as [-> ->].
  rewrite Forall_forall in Hall.
  assert (Qle_bool p cost_e = true) as ->.
  { apply Qle_bool_iff, Hall. by eapply list_elem_of_lookup_2. }
  lia.
Qed.

(** X9.  When no edge prize exceeds the edge cost (in particular with
    [topk_e <= 0], where all edge prizes are 0, and a non-negative
    [cost_e]) the reduction creates no virtual node: the solver gets the
    edges of the graph in their order, edge [i] with cost
    [cost_e - prize i], and position [i] is mapped back to edge [i]. *)
Theorem reduction_without_virtual_nodes (num_nodes : nat) (cost_e : Q)
    (e_idx : list (nat * nat)) (e_prizes : list Q) :
  length e_prizes = length e_idx →
  Forall (λ p, (p <= cost_e)%Q) e_prizes →
  ∃ r, virtual_node_reduction num_nodes cost_e e_idx e_prizes = inr r
    ∧ pcst_edges r = e_idx
    ∧ pcst_costs r = (λ p, (cost_e - p)%Q) <$> e_prizes
    ∧ virtual_n_prizes r = []
    ∧ mapping_n r = ∅
    ∧ (∀ k, mapping_e r !! k = if decide (k < length e_idx) then Some k else None).
Proof.
  intros Hlen Hall.
  destruct (virtual_node_reduction_inv num_nodes cost_e e_idx e_prizes)
    as (r & Hr & Hinv); [lia|].
  exists r. split; [done|].
  rewrite (pcst_costs_app _ _ _ _ _ _ Hinv), (pcst_edges_app _ _ _ _ _ _ Hinv).
  destruct Hinv as ((L1 & L2 & L3 & L4 & L5 & M1 & M2) & _ & Hed).
  destruct (kept_before_all cost_e e_prizes (length e_idx) Hall ltac:(lia))
    as [Hk Hv].
  rewrite Hk in L1, L2, M1. rewrite Hv in L3, L4, L5, M2.
  assert (Hi : ∀ i col p, e_idx !! i = Some col → e_prizes !! i = Some p →
            edge_list r !! i = Some col
            ∧ cost_list r !! i = Some (cost_e - p)%Q
            ∧ mapping_e r !! i = Some i).
  { intros i [s d] p Hcol Hp.
    pose proof (lookup_lt_Some _ _ _ Hcol) as Hlt.
    specialize (Hed i s d p Hlt Hcol Hp). unfold edge_reduced in Hed.
    destruct (kept_before_all cost_e e_prizes i Hall ltac:(lia)) as [Hki _].
    rewrite Forall_forall in Hall.
    assert (Qle_bool p cost_e = true) as Hc.
    { apply Qle_bool_iff, Hall. by eapply list_elem_of_lookup_2. }
    rewrite Hc, Hki in Hed. by destruct Hed as (? & ? & _ & ?). }
  destruct (virtual_edges r); [|simpl in L4; lia].
  destruct (virtual_costs r); [|simpl in L5; lia].
  destruct (virtual_n_prizes r); [|simpl in L3; lia].
  rewrite !app_nil_r. split_and!; try done.
  - apply list_eq. intros i. destruct (e_idx !! i) as [col|] eqn:Hcol.
    + destruct (lookup_lt_is_Some_2 e_prizes i) as [p Hp].
      { apply lookup_lt_Some in Hcol. lia. }
      by destruct (Hi i col p Hcol Hp).
    + apply lookup_ge_None in Hcol. apply lookup_ge_None. lia.
  - apply list_eq. intros i. rewrite list_lookup_fmap.
    destruct (e_prizes !! i) as [p|] eqn:Hp; simpl.
    + destruct (lookup_lt_is_Some_2 e_idx i) as [col Hcol].
      { apply lookup_lt_Some in Hp. lia. }
      by destruct (Hi i col p Hcol Hp) as (_ & ? & _).
    + apply lookup_ge_None in Hp. apply lookup_ge_None. lia.
  - apply map_eq. intros v. rewrite lookup_empty.
    apply eq_None_not_Some. rewrite M2. lia.
  - intros k. case_decide as Hk'.
    + destruct (lookup_lt_is_Some_2 e_idx k Hk') as [col Hcol].
      destruct (lookup_lt_is_Some_2 e_prizes k) as [p Hp]; [lia|].
      by destruct (Hi k col p Hcol Hp) as (_ & _ & ?).
    + apply eq_None_not_Some. rewrite M1. lia.
Qed.

Lemma reduction_without_virtual_nodes_witness :
  ∃ r, virtual_node_reduction 3 (1 # 2) sample_e_idx [0; 0]%Q = inr r
    ∧ pcst_edges r = sample_e_idx
    ∧ virtual_n_prizes r = [].
Proof.
  destruct (reduction_without_virtual_nodes 3 (1 # 2) sample_e_idx [0; 0]%Q)
    as (r & Hr & He & _ & Hv & _).
  - reflexivity.
  - repeat constructor; by vm_compute.
  - by exists r.
Defined.

(** ** No edge twice in the output *)

Lemma reduction_keys_result (num_nodes : nat) (cost_e : Q)
    (e_idx : list (nat * nat)) (e_prizes : list Q) (r : reduction) :
  virtual_node_reduction num_nodes cost_e e_idx e_prizes = inr r →
  reduction_keys num_nodes cost_e e_prizes r.
Proof.
  intros Hr.
  destruct (reduction_loop_invariant
              (λ n st, reduction_inv num_nodes cost_e e_idx e_prizes n st
                       ∧ reduction_keys num_nodes cost_e e_prizes st)
              num_nodes cost_e e_prizes e_idx 0 reduction_init)
    as (r' & Hr' & _ & Hk).
  - apply reduction_loop_covered in Hr as [-> | Hr]; simpl in *; lia.
  - split; [apply reduction_init_inv|].
    split; intros k i; simpl; by rewrite lookup_empty.
  - intros j s d p st Hj Hp [Hinv [K1 K2]]. simpl in *.
    split; [by apply reduction_step_inv|].
    destruct Hinv as ((L1 & _ & L3 & _) & _).
    unfold reduction_step. destruct (Qle_bool p cost_e) eqn:Hc;
      split; reduction_fields; try done.
    + intros k i. rewrite lookup_insert_Some. intros [[<- <-]|[_ H]].
      * exists p. by rewrite L1.
      * by apply K1.
    + intros v i. rewrite lookup_insert_Some. intros [[<- <-]|[_ H]].
      * exists p. by rewrite L3.
      * by apply K2.
  - unfold virtual_node_reduction in Hr. rewrite Hr in Hr'.
    by injection Hr' as <-.
Qed.

Lemma mapM_NoDup {A B} (f : A → result B) (l : list A) (bs : list B) :
  mapM f l = inr bs → NoDup l →
  (∀ a a' b, f a = inr b → f a' = inr b → a = a') →
  NoDup bs.
Proof.
  intros HM Hnd Hinj. apply NoDup_alt. intros i j b Hi Hj.
  destruct (mapM_lookup_r _ _ _ _ _ HM Hi) as (a & Ha & Hfa).
  destruct (mapM_lookup_r _ _ _ _ _ HM Hj) as (a' & Ha' & Hfa').
  rewrite (Hinj _ _ _ Hfa Hfa') in Ha.
  by eapply NoDup_lookup.
Qed.

(** X10.  When the solver's answer lists no vertex and no edge twice, no
    edge of the graph occurs twice among the final edges: two kept
    instance edges, two virtual nodes, or a kept edge and a virtual node
    never stand for the same edge.  So the output has at most as many
    edges as the graph. *)
Theorem final_edges_distinct (num_nodes : nat) (cost_e : Q)
    (e_idx : list (nat * nat)) (e_prizes : list Q) (r : reduction)
    (vertices edges : list nat) :
  virtual_node_reduction num_nodes cost_e e_idx e_prizes = inr r →
  Forall (λ v, v < num_nodes + length (virtual_n_prizes r)) vertices →
  NoDup vertices → NoDup edges →
  ∃ rc, reconstruct num_nodes e_idx r vertices edges = inr rc
    ∧ NoDup (new_selected_edges rc)
    ∧ Forall (λ j, j < length e_idx) (new_selected_edges rc)
    ∧ length (new_selected_edges rc) ≤ length e_idx.
Proof.
  intros Hred Hrange Hndv Hnde.
  pose proof (reduction_keys_result _ _ _ _ _ Hred) as [K1 K2].
  pose proof (virtual_node_reduction_inr_inv _ _ _ _ _ Hred) as Hinv.
  destruct (reconstruct_spec _ _ _ _ _ vertices edges Hinv Hrange)
    as (sel_e & virt_e & ei & Hsel & Hvirt & Hei & Hrc).
  eexists. split; [exact Hrc|]. simpl.
  assert (Hnd : NoDup (sel_e ++ virt_e)).
  { apply NoDup_app. split_and!.
    - eapply mapM_NoDup; [exact Hsel | by apply NoDup_filter |].
      intros k k' i Hk Hk'. apply dict_get_inr in Hk, Hk'.
      destruct (K1 _ _ Hk) as (p & _ & _ & <-).
      by destruct (K1 _ _ Hk') as (p' & _ & _ & <-).
    - intros i Hi Hi'.
      apply list_elem_of_lookup in Hi as [a Ha], Hi' as [b Hb].
      destruct (mapM_lookup_r _ _ _ _ _ Hsel Ha) as (k & _ & Hk).
      destruct (mapM_lookup_r _ _ _ _ _ Hvirt Hb) as (v & _ & Hv).
      apply dict_get_inr in Hk, Hv.
      destruct (K1 _ _ Hk) as (p & Hp & Hc & _).
      destruct (K2 _ _ Hv) as (p' & Hp' & Hc' & _).
      rewrite Hp in Hp'. injection Hp' as <-. congruence.
    - eapply mapM_NoDup; [exact Hvirt | by apply NoDup_filter |].
      intros v v' i Hv Hv'. apply dict_get_inr in Hv, Hv'.
      destruct (K2 _ _ Hv) as (p & _ & _ & ->).
      by destruct (K2 _ _ Hv') as (p' & _ & _ & ->). }
  assert (Hlt : Forall (λ j, j < length e_idx) (sel_e ++ virt_e)).
  { apply Forall_forall. intros j Hj. apply list_elem_of_lookup in Hj as [k Hk].
    destruct (mapM_lookup _ _ _ _ _ Hei Hk) as (col & _ & Hcol).
    apply getitem_inr in Hcol. by apply lookup_lt_Some in Hcol. }
  split_and!; try done.
  replace (length e_idx) with (length (seq 0 (length e_idx)))
    by apply length_seq.
  apply NoDup_subset_length; [done|]. intros j Hj.
  rewrite Forall_forall in Hlt. apply elem_of_seq. specialize (Hlt j Hj). lia.
Qed.

Lemma final_edges_distinct_witness :
  ∃ rc, reconstruct 3 sample_e_idx sample_reduction [1; 2; 3] [1; 2] = inr rc
    ∧ NoDup (new_selected_edges rc)
    ∧ length (new_selected_edges rc) ≤ 2.
Proof.
  destruct (final_edges_distinct 3 (1 # 2) sample_e_idx sample_e_prizes
              sample_reduction [1; 2; 3] [1; 2])
    as (rc & Hrc & Hnd & _ & Hle).
  - reflexivity.
  - repeat constructor.
  - apply (bool_decide_unpack _). by vm_compute.
  - apply (bool_decide_unpack _). by vm_compute.
  - by exists rc.
Defined.

(** ** Prize assignment never raises under the contract of [torch.topk] *)

Lemma node_prize_assignment_total
    (CosineSimilarity : list Q → list Q → Q)
    (torch_topk : list Q → nat → result (list Q * list nat))
    (topk : Z) (q_emb : list Q) (node_feat : list (list Q)) (num_nodes : nat) :
  length node_feat = num_nodes →
  ((0 < topk)%Z →
     ∃ vals idx,
       torch_topk (CosineSimilarity q_emb <$> node_feat)
                  (Z.to_nat topk `min` num_nodes) = inr (vals, idx)
       ∧ topk_ok (CosineSimilarity q_emb <$> node_feat)
                 (Z.to_nat topk `min` num_nodes) vals idx) →
  ∃ n_prizes,
    node_prize_assignment CosineSimilarity torch_topk topk q_emb node_feat
      num_nodes = inr n_prizes
    ∧ length n_prizes = num_nodes.
Proof.
  intros Hlen Hcontract. unfold node_prize_assignment.
  destruct (0 <? topk)%Z eqn:Hpos.
  - apply Z.ltb_lt in Hpos.
    destruct (Hcontract Hpos) as (vals & idx & Htopk & Hk & Hnd & Hvals & _).
    replace (Z.to_nat (Z.min topk (Z.of_nat num_nodes)))
      with (Z.to_nat topk `min` num_nodes) by lia.
    rewrite Htopk. simpl.
    destruct (index_put_spec idx
                (arange_down (Z.to_nat topk `min` num_nodes))
                ((λ _ : Q, 0%Q) <$> (CosineSimilarity q_emb <$> node_feat)))
      as (n_prizes & Hput & Hl & _).
    + by rewrite arange_down_length.
    + done.
    + rewrite !length_fmap. apply Forall_forall. intros i Hi.
      apply list_elem_of_lookup in Hi as [j Hj].
      destruct (Forall2_lookup_l _ _ _ _ _ Hvals Hj) as (v & _ & Hv).
      apply lookup_lt_Some in Hv. by rewrite length_fmap in Hv.
    + exists n_prizes. split; [done|]. by rewrite Hl, !length_fmap.
  - eexists. split; [done|]. by rewrite length_replicate.
Qed.

Lemma insert_unique_nonempty (q : Q) (l : list Q) : insert_unique q l ≠ [].
Proof.
  induction l as [|y l IH]; simpl; [done|].
  by destruct (q ?= y)%Q.
Qed.

Lemma torch_unique_nonempty (t : list Q) : t ≠ [] → torch_unique t ≠ [].
Proof.
  destruct t as [|q t]; [done|]. intros _. simpl. apply insert_unique_nonempty.
Qed.

Lemma mask_set_length (t : list Q) (f : Q → bool) (v : Q) :
  length (mask_set t (f <$> t) v) = length t.
Proof.
  unfold mask_set. rewrite length_zip_with, length_fmap. lia.
Qed.

Lemma tier_loop_total (topk_e : nat) (topk_e_values : list Q) (ks : list nat) :
  Forall (λ k, k < length topk_e_values) ks →
  ∀ st, ∃ st', tier_loop topk_e topk_e_values ks st = inr st'
               ∧ length st'.1 = length st.1.
Proof.
  induction 1 as [|k ks Hk _ IH]; intros [e_prizes last_value].
  - by eexists.
  - destruct (lookup_lt_is_Some_2 _ _ Hk) as [v Hv].
    simpl. unfold getitem. rewrite Hv. simpl.
    match goal with |- context [tier_loop _ _ _ ?s] =>
      destruct (IH s) as (st' & Hst' & Hl) end.
    exists st'. split; [done|]. rewrite Hl. simpl. apply mask_set_length.
Qed.

Lemma edge_prize_assignment_total
    (CosineSimilarity : list Q → list Q → Q)
    (torch_topk : list Q → nat → result (list Q * list nat))
    (topk_e : Z) (q_emb : list Q) (e_attr : list (list Q)) (num_edges : nat) :
  length e_attr = num_edges → e_attr ≠ [] →
  ((0 < topk_e)%Z →
     ∃ vals idx,
       torch_topk (torch_unique (CosineSimilarity q_emb <$> e_attr))
         (Z.to_nat topk_e
          `min` length (torch_unique (CosineSimilarity q_emb <$> e_attr)))
       = inr (vals, idx)
       ∧ topk_ok (torch_unique (CosineSimilarity q_emb <$> e_attr))
           (Z.to_nat topk_e
            `min` length (torch_unique (CosineSimilarity q_emb <$> e_attr)))
           vals idx) →
  ∃ e_prizes,
    edge_prize_assignment CosineSimilarity torch_topk topk_e q_emb e_attr
      num_edges = inr e_prizes
    ∧ length e_prizes = num_edges.
Proof.
  intros Hlen Hne Hcontract. unfold edge_prize_assignment.
  destruct (0 <? topk_e)%Z eqn:Hpos.
  - apply Z.ltb_lt in Hpos.
    set (sims := CosineSimilarity q_emb <$> e_attr) in *.
    destruct (Hcontract Hpos) as (vals & idx & Htopk & Hk & _ & Hvals & _).
    set (k := Z.to_nat topk_e `min` length (torch_unique sims)) in *.
    replace (Z.to_nat (Z.min topk_e (Z.of_nat (length (torch_unique sims)))))
      with k by (unfold k; lia).
    rewrite Htopk. simpl.
    assert (Hlv : length vals = k).
    { apply Forall2_length in Hvals. lia. }
    assert (Hk1 : 0 < k).
    { assert (torch_unique sims ≠ []) as Hu.
      { apply torch_unique_nonempty. unfold sims. by destruct e_attr. }
      destruct (torch_unique sims); [done|]. unfold k. simpl. lia. }
    unfold last_item.
    destruct (last vals) as [thr|] eqn:Hlast.
    2: { apply last_None in Hlast. subst vals. simpl in Hlv. lia. }
    simpl.
    match goal with |- context [tier_loop _ _ _ ?s] =>
      destruct (tier_loop_total k vals (seq 0 k)) with (st := s)
        as ([e_prizes lv] & Hloop & Hl) end.
    { apply Forall_forall. intros j Hj. apply elem_of_seq in Hj. lia. }
    rewrite Hloop. simpl. exists e_prizes. split; [done|].
    simpl in Hl. rewrite Hl, mask_set_length. unfold sims.
    by rewrite length_fmap.
  - eexists. split; [done|]. by rewrite length_replicate.
Qed.



(** ** Mean pooling *)

Lemma Forall2_Qeq_refl (l : list Q) : Forall2 Qeq l l.
Proof. induction l; constructor; [reflexivity | done]. Qed.

Lemma Forall2_Qeq_trans (a b c : list Q) :
  Forall2 Qeq a b → Forall2 Qeq b c → Forall2 Qeq a c.
Proof.
  intros Hab. revert c. induction Hab as [|x y a b Hxy Hab IH]; intros c Hbc.
  - by inversion Hbc.
  - inversion Hbc as [|? z ? c' Hyz Hbc']; subst.
    constructor; [by rewrite Hxy | by apply IH].
Qed.

Lemma zip_with_Qplus_proper (a a' b b' : list Q) :
  Forall2 Qeq a a' → Forall2 Qeq b b' →
  Forall2 Qeq (zip_with Qplus a b) (zip_with Qplus a' b').
Proof.
  intros Ha. revert b b'.
  induction Ha as [|x x' a a' Hx Ha IH]; intros b b' Hb; [constructor|].
  destruct Hb as [|y y' b b' Hy Hb]; simpl; [constructor|].
  constructor; [by rewrite Hx, Hy | by apply IH].
Qed.

Lemma sum_rows_proper (D : nat) (t t' : list (list Q)) :
  Forall2 (Forall2 Qeq) t t' → Forall2 Qeq (sum_rows D t) (sum_rows D t').
Proof.
  induction 1 as [|r r' t t' Hr Ht IH]; simpl.
  - apply Forall2_Qeq_refl.
  - by apply zip_with_Qplus_proper.
Qed.

Lemma sum_rows_length (D : nat) (t : list (list Q)) :
  Forall (λ r, length r = D) t → length (sum_rows D t) = D.
Proof.
  induction 1 as [|r t Hr Ht IH]; simpl.
  - apply length_replicate.
  - rewrite length_zip_with, Hr, IH. lia.
Qed.

Lemma zip_with_Qplus_zero (z acc : list Q) :
  Forall (λ v, v == 0)%Q z → length z = length acc →
  Forall2 Qeq (zip_with Qplus z acc) acc.
Proof.
  intros Hz. revert acc. induction Hz as [|v z Hv Hz IH]; intros [|a acc] Hl;
    simplify_eq/=; constructor; [|by apply IH].
  rewrite Hv. apply Qplus_0_l.
Qed.

Lemma masked_row_zero (D : nat) (row : list Q) :
  Forall (λ v, v == 0)%Q (zip_with Qmult row (replicate D (inject_Z 0))).
Proof.
  revert D. induction row as [|v row IH]; intros [|D]; simpl; constructor;
    [apply Qmult_0_r | apply IH].
Qed.

Lemma masked_row_one (D : nat) (row : list Q) :
  length row = D →
  Forall2 Qeq (zip_with Qmult row (replicate D (inject_Z 1))) row.
Proof.
  intros <-. induction row as [|v row IH]; simpl; constructor;
    [apply Qmult_1_r | apply IH].
Qed.

Lemma masked_row_length (D : nat) (row : list Q) (m : Q) :
  length row = D → length (zip_with Qmult row (replicate D m)) = D.
Proof. intros <-. rewrite length_zip_with, length_replicate. lia. Qed.

Lemma expand_dim_same {A} (n : nat) (t : list A) :
  length t = n → expand_dim n t = inr t.
Proof. intros <-. unfold expand_dim. by rewrite Nat.eqb_refl. Qed.

Lemma input_mask_expanded_same (B T D : nat) (attention_mask : list (list Z)) :
  length attention_mask = B →
  Forall (λ m, length m = T) attention_mask →
  input_mask_expanded B T D attention_mask
  = inr ((λ mask : list Z, (λ m, replicate D (inject_Z m)) <$> mask)
           <$> attention_mask).
Proof.
  intros HB HT. unfold input_mask_expanded. rewrite (expand_dim_same _ _ HB).
  simpl. apply mapM_Forall2. apply Forall2_fmap_r, Forall_Forall2_diag.
  eapply Forall_impl; [exact HT|]. intros m Hm. simpl.
  by rewrite (expand_dim_same _ _ Hm).
Qed.

(** The sum over the tokens of the expanded mask: the sum of the mask, in
    every one of the [D] columns. *)
Lemma sum_rows_mask (D : nat) (mask : list Z) :
  Forall2 Qeq (sum_rows D ((λ m : Z, replicate D (inject_Z m)) <$> mask))
              (replicate D (inject_Z (foldr Z.add 0%Z mask))).
Proof.
  induction mask as [|m mask IH]; simpl.
  - apply Forall2_Qeq_refl.
  - eapply Forall2_Qeq_trans.
    + apply zip_with_Qplus_proper; [apply Forall2_Qeq_refl | exact IH].
    + clear IH. induction D as [|D IH]; simpl; constructor; [|exact IH].
      by rewrite inject_Z_plus.
Qed.

Lemma clamp_min_proper (v v' c : Q) :
  (v == v')%Q → (clamp_min v c == clamp_min v' c)%Q.
Proof.
  intros Hv. unfold clamp_min, Qlt_bool.
  destruct (Qle_bool c v) eqn:H1, (Qle_bool c v') eqn:H2; simpl;
    try reflexivity; try done.
  - apply Qle_bool_iff in H1. rewrite Hv in H1. apply Qle_bool_iff in H1.
    congruence.
  - apply Qle_bool_iff in H2. rewrite <- Hv in H2. apply Qle_bool_iff in H2.
    congruence.
Qed.

Lemma zip_with_Qdiv_const (a a' b : list Q) (c : Q) :
  Forall2 Qeq a a' → Forall2 Qeq b (replicate (length a) c) →
  Forall2 Qeq (zip_with Qdiv a b) ((λ s, s / c)%Q <$> a').
Proof.
  intros Ha. revert b. induction Ha as [|x x' a a' Hx Ha IH]; intros b Hb;
    simpl in *; [constructor|].
  inversion Hb as [|y ? b' ? Hy Hb']; subst. simpl.
  constructor; [by rewrite Hx, Hy | by apply IH].
Qed.

(** What [mean_pooling] returns on tensors of matching shapes, sentence
    by sentence. *)
Lemma mean_pooling_rows (T D : nat) (token_embeddings : list (list (list Q)))
    (attention_mask : list (list Z)) :
  length attention_mask = length token_embeddings →
  Forall (λ m, length m = T) attention_mask →
  mean_pooling T D token_embeddings attention_mask
  = inr (zip_with
           (λ e (m : list Z),
              let mask := (λ v : Z, replicate D (inject_Z v)) <$> m in
              zip_with Qdiv
                (sum_rows D (zip_with (zip_with Qmult) e mask))
                ((λ v, clamp_min v (1 # 1000000000)) <$> sum_rows D mask))
           token_embeddings attention_mask).
Proof.
  intros HB HT. unfold mean_pooling.
  rewrite (input_mask_expanded_same _ T D _ HB HT). simpl. f_equal.
  clear HT. revert attention_mask HB.
  induction token_embeddings as [|e es IH]; intros [|m ms] HB;
    simplify_eq/=; [done|]. f_equal. by apply IH.
Qed.

(** The masked sum of a sentence under a 0/1 mask is the sum of the
    selected rows, and the sum of the mask is their number. *)
Lemma masked_sum_selected (D : nat) (e : list (list Q)) (m : list Z) :
  length e = length m →
  Forall (λ row, length row = D) e →
  Forall (λ v, v = 0 ∨ v = 1)%Z m →
  Forall2 Qeq
    (sum_rows D (zip_with (zip_with Qmult) e
                   ((λ v : Z, replicate D (inject_Z v)) <$> m)))
    (sum_rows D (selected_rows e m))
  ∧ foldr Z.add 0%Z m = Z.of_nat (length (selected_rows e m))
  ∧ Forall (λ row, length row = D) (selected_rows e m).
Proof.
  intros Hl He. revert m Hl.
  induction He as [|row e Hrow He IH]; intros [|v m] Hl Hm; simplify_eq/=.
  - split_and!; [apply Forall2_Qeq_refl | done | constructor].
  - inversion Hm as [|? ? Hv Hm']; subst.
    destruct (IH m Hl Hm') as (Hsum & Hcount & Hsel).
    unfold selected_rows in *. simpl. destruct Hv as [-> | ->].
    + rewrite filter_cons_False by (simpl; lia). split_and!; [|done|done].
      eapply Forall2_Qeq_trans.
      * apply zip_with_Qplus_zero; [apply masked_row_zero|].
        rewrite masked_row_length by done. symmetry.
        apply sum_rows_length.
        clear -He Hl. revert m Hl.
        induction He as [|r e Hr He IH]; intros [|v m] Hl; simplify_eq/=;
          constructor; [by apply masked_row_length | by apply IH].
      * exact Hsum.
    + rewrite filter_cons_True by done. split_and!.
      * apply zip_with_Qplus_proper; [by apply masked_row_one | exact Hsum].
      * rewrite Hcount. cbn [fmap list_fmap length]. lia.
      * by constructor.
Qed.

Lemma pooled_sentence_mean (D : nat) (e : list (list Q)) (m : list Z) :
  length e = length m →
  Forall (λ row, length row = D) e →
  Forall (λ v, v = 0 ∨ v = 1)%Z m →
  let mask := (λ v : Z, replicate D (inject_Z v)) <$> m in
  Forall2 Qeq
    (zip_with Qdiv
       (sum_rows D (zip_with (zip_with Qmult) e mask))
       ((λ v, clamp_min v (1 # 1000000000)) <$> sum_rows D mask))
    ((λ s, s / clamp_min (Q_of_nat (length (selected_rows e m)))
                 (1 # 1000000000))%Q
       <$> sum_rows D (selected_rows e m)).
Proof.
  intros Hl He Hm mask. subst mask.
  destruct (masked_sum_selected D e m Hl He Hm) as (Hsum & Hcount & Hsel).
  apply zip_with_Qdiv_const; [exact Hsum|].
  replace (length (sum_rows D (zip_with (zip_with Qmult) e
             ((λ v : Z, replicate D (inject_Z v)) <$> m)))) with D.
  2:{ apply (Forall2_length _ _ _) in Hsum. rewrite Hsum. symmetry.
      by apply sum_rows_length. }
  unfold Q_of_nat. rewrite <- Hcount.
  pose proof (sum_rows_mask D m) as Hmask.
  revert Hmask.
  generalize (sum_rows D ((λ v : Z, replicate D (inject_Z v)) <$> m)).
  generalize (foldr Z.add 0%Z m).
  clear. intros z l. revert l. induction D as [|D IH]; intros l Hl;
    inversion Hl; subst; simpl; constructor; [by apply clamp_min_proper|].
  by apply IH.
Qed.

Lemma zeros_Qeq (a b : list Q) :
  Forall (λ v, v == 0)%Q a → Forall (λ v, v == 0)%Q b → length a = length b →
  Forall2 Qeq a b.
Proof.
  intros Ha. revert b. induction Ha as [|x a Hx Ha IH]; intros b Hb Hl;
    destruct Hb as [|y b Hy Hb]; simplify_eq/=; constructor;
    [by rewrite Hx, Hy | by apply IH].
Qed.

Lemma zip_with_Qdiv_proper (a a' b : list Q) :
  Forall2 Qeq a a' → Forall2 Qeq (zip_with Qdiv a b) (zip_with Qdiv a' b).
Proof.
  intros Ha. revert b. induction Ha as [|x x' a a' Hx Ha IH]; intros [|y b];
    simpl; constructor; [by rewrite Hx | by apply IH].
Qed.

(** Rows that agree wherever the mask is not zero have the same masked
    rows. *)
Lemma masked_rows_agree (D : nat) (e e' : list (list Q)) (m : list Z) :
  Forall (λ row, length row = D) e → Forall (λ row, length row = D) e' →
  length e = length m → length e' = length m →
  (∀ t v, m !! t = Some v → v ≠ 0%Z → e !! t = e' !! t) →
  Forall2 (Forall2 Qeq)
    (zip_with (zip_with Qmult) e ((λ v : Z, replicate D (inject_Z v)) <$> m))
    (zip_with (zip_with Qmult) e' ((λ v : Z, replicate D (inject_Z v)) <$> m)).
Proof.
  intros He. revert e' m.
  induction He as [|row e Hrow He IH]; intros e' m He' Hl Hl' Hagree;
    destruct m as [|v m]; simplify_eq/=;
    destruct He' as [|row' e' Hrow' He']; simplify_eq/=; constructor.
  - destruct (decide (v = 0%Z)) as [-> | Hv].
    + apply zeros_Qeq; [apply masked_row_zero .. |].
      by rewrite !masked_row_length.
    + specialize (Hagree 0 v eq_refl Hv). simplify_eq/=.
      apply Forall2_Qeq_refl.
  - apply IH; [done ..|]. intros t w Ht Hw. by apply (Hagree (S t) w).
Qed.

(** X12.  On a batch of token embeddings of shape (B, T, D) and an
    attention mask of shape (B, T), [mean_pooling] returns one row per
    sentence; for a sentence whose mask holds only zeros and ones, with at
    least one one, that row is the arithmetic mean of the embeddings of
    the tokens whose mask is one: their sum divided by their number. *)
Theorem mean_pooling_is_mean (T D : nat)
    (token_embeddings : list (list (list Q))) (attention_mask : list (list Z)) :
  length attention_mask = length token_embeddings →
  has_shape T D token_embeddings →
  Forall (λ m, length m = T) attention_mask →
  ∃ out, mean_pooling T D token_embeddings attention_mask = inr out
    ∧ length out = length token_embeddings
    ∧ ∀ i e m,
        token_embeddings !! i = Some e → attention_mask !! i = Some m →
        Forall (λ v, v = 0 ∨ v = 1)%Z m →
        selected_rows e m ≠ [] →
        ∃ row, out !! i = Some row
          ∧ Forall2 Qeq row
              ((λ s, s / Q_of_nat (length (selected_rows e m)))%Q
                 <$> sum_rows D (selected_rows e m)).
Proof.
  intros HB Hshape HT. eexists. split; [by apply mean_pooling_rows|].
  split; [rewrite length_zip_with; lia|].
  intros i e m He Hm H01 Hsel. eexists. split.
  { rewrite lookup_zip_with, He. simpl. by rewrite Hm. }
  unfold has_shape in Hshape. rewrite Forall_lookup in Hshape. rewrite Forall_lookup in HT.
  destruct (Hshape i e He) as [HeT HeD]. specialize (HT i m Hm).
  eapply Forall2_Qeq_trans;
    [apply pooled_sentence_mean; [congruence | done | done]|].
  assert (clamp_min (Q_of_nat (length (selected_rows e m))) (1 # 1000000000)
          = Q_of_nat (length (selected_rows e m))) as ->;
    [|apply Forall2_Qeq_refl].
  destruct (selected_rows e m) as [|r sel]; [done|].
  unfold clamp_min, Qlt_bool, Q_of_nat.
  assert (Qle_bool (1 # 1000000000) (inject_Z (Z.of_nat (length (r :: sel))))
          = true) as ->; [|done].
  apply Qle_bool_iff. unfold Qle. cbn [Qnum Qden inject_Z length]. lia.
Qed.

Lemma mean_pooling_is_mean_witness :
  ∃ out, mean_pooling 3 2 [[[1; 2]; [3; 4]; [7; 9]]]%Q [[1; 1; 0]]%Z = inr out
    ∧ length out = 1
    ∧ ∃ row, out !! 0 = Some row
        ∧ Forall2 Qeq row [(1 + (3 + 0)) / 2; (2 + (4 + 0)) / 2]%Q.
Proof.
  destruct (mean_pooling_is_mean 3 2 [[[1; 2]; [3; 4]; [7; 9]]]%Q
              [[1; 1; 0]]%Z) as (out & Hout & Hlen & Hrow).
  - reflexivity.
  - repeat constructor.
  - repeat constructor.
  - exists out. split_and!; [exact Hout | exact Hlen |].
    apply (Hrow 0 [[1; 2]; [3; 4]; [7; 9]]%Q [1; 1; 0]%Z);
      [reflexivity | reflexivity | |done].
    repeat constructor; lia.
Defined.

Lemma zip_with_Qmult_replicate (row : list Q) (q : Q) :
  zip_with Qmult row (replicate (length row) q) = (λ x, (x * q)%Q) <$> row.
Proof. induction row as [|x row IH]; simpl; [done|]. by rewrite IH. Qed.

Lemma masked_rows_fmap (D : nat) (e : list (list Q)) (m : list Z) :
  Forall (λ row, length row = D) e →
  zip_with (zip_with Qmult) e ((λ v : Z, replicate D (inject_Z v)) <$> m)
  = zip_with (λ row (v : Z), (λ x, (x * inject_Z v)%Q) <$> row) e m.
Proof.
  intros He. revert m. induction He as [|row e <- He IH]; intros [|v m];
    simpl; [done ..|]. by rewrite zip_with_Qmult_replicate, IH.
Qed.

Lemma masked_rows_length (D : nat) (e : list (list Q)) (m : list Z) :
  Forall (λ row, length row = D) e →
  Forall (λ row, length row = D)
    (zip_with (λ row (v : Z), (λ x, (x * inject_Z v)%Q) <$> row) e m).
Proof.
  intros He. revert m. induction He as [|row e Hrow He IH]; intros [|v m];
    simpl; constructor; [by rewrite length_fmap | apply IH].
Qed.

(** The divisor of a sentence: the sum of its mask, clamped, in every
    column. *)
Lemma clamped_mask_sum (D : nat) (m : list Z) :
  Forall2 Qeq
    ((λ v, clamp_min v (1 # 1000000000))
       <$> sum_rows D ((λ v : Z, replicate D (inject_Z v)) <$> m))
    (replicate D (clamp_min (inject_Z (foldr Z.add 0%Z m)) (1 # 1000000000))).
Proof.
  pose proof (sum_rows_mask D m) as Hmask. revert Hmask.
  generalize (sum_rows D ((λ v : Z, replicate D (inject_Z v)) <$> m)).
  generalize (foldr Z.add 0%Z m). intros z l. revert l.
  induction D as [|D IH]; intros l Hl; inversion Hl; subst; simpl;
    constructor; [by apply clamp_min_proper | by apply IH].
Qed.

Lemma clamp_min_nonpositive (z : Z) :
  (z ≤ 0)%Z → clamp_min (inject_Z z) (1 # 1000000000) = (1 # 1000000000)%Q.
Proof.
  intros Hz. unfold clamp_min, Qlt_bool.
  assert (Qle_bool (1 # 1000000000) (inject_Z z) = false) as ->; [|done].
  destruct (Qle_bool (1 # 1000000000) (inject_Z z)) eqn:H; [|done].
  apply Qle_bool_iff in H. unfold Qle in H. cbn [Qnum Qden inject_Z] in H. lia.
Qed.

Lemma pooled_zero (row num zs : list Q) (d : Q) :
  Forall2 Qeq row ((λ s, s / d)%Q <$> num) → Forall2 Qeq num zs →
  Forall (λ z, z = 0%Q) zs → Forall (λ v, v == 0)%Q row.
Proof.
  intros Hrow Hnum. revert row Hrow.
  induction Hnum as [|s z num zs Hs Hnum IH]; intros row Hrow Hz;
    inversion Hrow as [|x y row' ? Hx Hrow']; subst; constructor.
  - inversion Hz; subst. rewrite Hx, Hs. reflexivity.
  - inversion Hz; subst. by apply IH.
Qed.

(** X13.  The divisor of the mean is clamped from below at [1e-9]: for a
    sentence whose attention mask sums to zero or less, the pooled row
    has length D and is the masked sum of its token embeddings divided by
    [1e-9], not by the sum of the mask; when the mask is zero everywhere
    the masked sum vanishes and the row is the zero vector. *)
Theorem mean_pooling_clamped_divisor (T D : nat)
    (token_embeddings : list (list (list Q))) (attention_mask : list (list Z)) :
  length attention_mask = length token_embeddings →
  has_shape T D token_embeddings →
  Forall (λ m, length m = T) attention_mask →
  ∃ out, mean_pooling T D token_embeddings attention_mask = inr out
    ∧ ∀ i e m,
        token_embeddings !! i = Some e → attention_mask !! i = Some m →
        (foldr Z.add 0 m ≤ 0)%Z →
        ∃ row, out !! i = Some row ∧ length row = D
          ∧ Forall2 Qeq row
              ((λ s, s / (1 # 1000000000))%Q <$> masked_sum D e m)
          ∧ (Forall (λ v, v = 0%Z) m → Forall (λ v, v == 0)%Q row).
Proof.
  intros HB Hshape HT. eexists. split; [by apply mean_pooling_rows|].
  intros i e m He Hm Hsum. eexists. split.
  { rewrite lookup_zip_with, He. simpl. by rewrite Hm. }
  unfold has_shape in Hshape. rewrite Forall_lookup in Hshape.
  rewrite Forall_lookup in HT.
  destruct (Hshape i e He) as [HeT HeD]. specialize (HT i m Hm).
  cbv zeta. rewrite (masked_rows_fmap D e m HeD). fold (masked_sum D e m).
  assert (Hlen : length (masked_sum D e m) = D).
  { apply sum_rows_length. by apply masked_rows_length. }
  assert (Hrow : Forall2 Qeq
    (zip_with Qdiv (masked_sum D e m)
       ((λ v, clamp_min v (1 # 1000000000))
          <$> sum_rows D ((λ v : Z, replicate D (inject_Z v)) <$> m)))
    ((λ s, s / (1 # 1000000000))%Q <$> masked_sum D e m)).
  { apply zip_with_Qdiv_const; [apply Forall2_Qeq_refl|].
    pose proof (clamped_mask_sum D m) as Hden.
    rewrite (clamp_min_nonpositive _ Hsum) in Hden. by rewrite Hlen. }
  split_and!; [|exact Hrow|].
  - apply (Forall2_length _ _ _) in Hrow. rewrite Hrow.
    by rewrite length_fmap.
  - intros Hzero.
    assert (Forall (λ v, v = 0 ∨ v = 1)%Z m) as H01.
    { eapply Forall_impl; [exact Hzero|]. intros v ->. by left. }
    assert (selected_rows e m = []) as Hsel.
    { unfold selected_rows. clear -Hzero. revert e.
      induction Hzero as [|v m -> Hm' IH]; intros [|r e]; simpl; try done.
      rewrite filter_cons_False by (simpl; lia). apply IH. }
    destruct (masked_sum_selected D e m ltac:(congruence) HeD H01)
      as (Hnum & _ & _).
    rewrite (masked_rows_fmap D e m HeD) in Hnum. fold (masked_sum D e m) in Hnum.
    rewrite Hsel in Hnum. simpl in Hnum.
    eapply pooled_zero; [exact Hrow | exact Hnum |].
    apply Forall_forall. intros z Hz. by apply elem_of_replicate in Hz as [-> _].
Qed.

Lemma mean_pooling_clamped_divisor_witness :
  ∃ out, mean_pooling 2 2 [[[1; 2]; [3; 5]]]%Q [[1; -1]]%Z = inr out
    ∧ ∃ row, out !! 0 = Some row ∧ length row = 2
        ∧ Forall2 Qeq row [-2000000000; -3000000000]%Q.
Proof.
  destruct (mean_pooling_clamped_divisor 2 2 [[[1; 2]; [3; 5]]]%Q
              [[1; -1]]%Z) as (out & Hout & Hrow).
  - reflexivity.
  - repeat constructor.
  - repeat constructor.
  - exists out. split; [exact Hout|].
    destruct (Hrow 0 [[1; 2]; [3; 5]]%Q [1; -1]%Z)
      as (row & Hr & Hl & Heq & _); [reflexivity | reflexivity | simpl; lia |].
    exists row. split_and!; [exact Hr | exact Hl |].
    eapply Forall2_Qeq_trans; [exact Heq|].
    repeat constructor; by vm_compute.
Defined.

(** X14.  The embeddings of masked tokens do not matter: two batches of
    token embeddings of the same shape that agree at every token whose
    mask is not zero are pooled to the same rows (entry by entry equal
    as rationals), whatever integers the mask holds. *)
Theorem mean_pooling_ignores_masked (T D : nat)
    (token_embeddings token_embeddings' : list (list (list Q)))
    (attention_mask : list (list Z)) :
  length attention_mask = length token_embeddings →
  length token_embeddings' = length token_embeddings →
  has_shape T D token_embeddings →
  has_shape T D token_embeddings' →
  Forall (λ m, length m = T) attention_mask →
  (∀ i t e e' m v,
     token_embeddings !! i = Some e → token_embeddings' !! i = Some e' →
     attention_mask !! i = Some m → m !! t = Some v → v ≠ 0%Z →
     e !! t = e' !! t) →
  ∃ out out',
    mean_pooling T D token_embeddings attention_mask = inr out
    ∧ mean_pooling T D token_embeddings' attention_mask = inr out'
    ∧ Forall2 (Forall2 Qeq) out out'.
Proof.
  intros HB HB' Hshape Hshape' HT Hagree. do 2 eexists.
  split; [by apply mean_pooling_rows|].
  split; [apply mean_pooling_rows; [congruence | done]|].
  apply Forall2_same_length_lookup. split.
  { rewrite !length_zip_with. lia. }
  intros i row row' Hrow Hrow'.
  apply lookup_zip_with_Some in Hrow as (e & m & -> & He & Hm).
  apply lookup_zip_with_Some in Hrow' as (e' & m' & -> & He' & Hm').
  simplify_eq. unfold has_shape in *.
  rewrite Forall_lookup in Hshape. rewrite Forall_lookup in Hshape'.
  rewrite Forall_lookup in HT.
  destruct (Hshape i e He) as [HeT HeD].
  destruct (Hshape' i e' He') as [HeT' HeD']. specialize (HT i m Hm).
  cbv zeta. apply zip_with_Qdiv_proper, sum_rows_proper.
  apply masked_rows_agree; [done | done | congruence | congruence |].
  intros t v Ht Hv. by apply (Hagree i t e e' m v).
Qed.

Lemma mean_pooling_ignores_masked_witness :
  ∃ out out',
    mean_pooling 2 2 [[[1; 2]; [3; 4]]]%Q [[1; 0]]%Z = inr out
    ∧ mean_pooling 2 2 [[[1; 2]; [5; 6]]]%Q [[1; 0]]%Z = inr out'
    ∧ Forall2 (Forall2 Qeq) out out'.
Proof.
  apply (mean_pooling_ignores_masked 2 2 [[[1; 2]; [3; 4]]]%Q
           [[[1; 2]; [5; 6]]]%Q [[1; 0]]%Z).
  - reflexivity.
  - reflexivity.
  - repeat constructor.
  - repeat constructor.
  - repeat constructor.
  - intros [|[|]] [|[|]] e e' m v He He' Hm Hv Hne; simplify_eq/=; done.
Defined.
